(** * A shallow embedding of lark's CYK parser (lark/parsers/cyk.py)

    The development follows the Python module top to bottom: the symbol and
    rule model with their overloaded equalities, the grammar container, the
    CYK table builder [_Parse], the CNF converter ([Term], [Bin], [Unit],
    [CnfWrapper]), the tree reversal [RevertCnf] and the [Parser] facade.

    Python values are modelled as follows.
    - [str] is [string]; rule weights are integers ([Z]).
    - An exception is a value of [exn]; code that may raise returns
      [result A = exn + A] and is sequenced with the notation [x <- e ;; k].
    - [defaultdict(set)] / [defaultdict(dict)] / [defaultdict(list)] are
      [gmap]s read with the total lookup [m !!! k], whose default is the
      empty container.
    - The iteration order of a hash-based [set] or [dict] is not fixed by
      Python; it is the field [iter_order] of the class [Runtime], an
      arbitrary permutation of the insertion order.
    - The [re] module is not part of the repository; the compiled pattern
      type and the two functions the module calls ([re.compile] and the
      [match] method of a compiled pattern) are fields of [Runtime] as
      well.  [Module PyRe] gives a concrete instance for a fragment of the
      pattern syntax, with the backtracking (leftmost, first alternative
      first) semantics of the library. *)

From Stdlib Require Import ZArith Permutation Sorted Ascii String.
From stdpp Require Import gmap strings list fin_maps pretty.

Open Scope string_scope.
Open Scope Z_scope.
Open Scope list_scope.

(** ** Exceptions and results *)

Inductive exn : Set :=
| ParseError      (* lark.common.ParseError *)
| AssertionError
| KeyError
| IndexError
| AttributeError
| FormatError    (* TypeError or ValueError of the string operator % *)
| ReError.        (* sre_constants.error, raised by re.compile *)

Definition result (A : Type) : Type := exn + A.

Definition raise {A : Type} (e : exn) : result A := inl e.
Definition ret {A : Type} (a : A) : result A := inr a.

Definition bind {A B : Type} (m : result A) (k : A -> result B) : result B :=
  match m with
  | inl e => inl e
  | inr a => k a
  end.

Notation "x <- e ;; k" := (bind e (fun x => k))
  (at level 100, e at next level, right associativity).

(** [for x in l: body] over a state that may raise. *)
Fixpoint for_each {A S : Type} (l : list A) (body : A -> S -> result S)
    (st : S) : result S :=
  match l with
  | [] => ret st
  | x :: l' => st' <- body x st ;; for_each l' body st'
  end.

(** ** What the module takes from the Python runtime *)

Class Runtime := {
  (** compiled pattern objects *)
  Regex : Type;
  (** [re.compile(s)]; [None] when it raises [re.error] *)
  re_compile : string -> option Regex;
  (** [regexp.match(s)]: [Some (m.group(0))] for a match object [m],
      [None] for no match at position 0 *)
  re_match : Regex -> string -> option string;
  (** order in which a [set] or [dict] built by inserting the elements of
      [l] is iterated *)
  iter_order : forall A : Type, list A -> list A;
  iter_order_perm : forall (A : Type) (l : list A),
      Permutation (iter_order A l) l
}.

Arguments iter_order {_ _} _.

(** ** Symbols *)

Inductive Symbol : Set :=
| T (s : string)     (* class T(Symbol): terminal *)
| NT (s : string).   (* class NT(Symbol): non-terminal *)

(** [str(sym)], i.e. [Symbol.__str__] *)
Definition Symbol_str (x : Symbol) : string :=
  match x with T s => s | NT s => s end.

Definition TypeName (x : Symbol) : string :=
  match x with T _ => "T" | NT _ => "NT" end.

Definition isinstance_T (x : Symbol) : bool :=
  match x with T _ => true | NT _ => false end.

Definition isinstance_NT (x : Symbol) : bool :=
  match x with T _ => false | NT _ => true end.

(** [Symbol.__eq__] *)
Definition Symbol__eq__ (self other : Symbol) : bool :=
  String.eqb (Symbol_str self) (Symbol_str other).

(** [T.__eq__] *)
Definition T__eq__ (self other : Symbol) : bool :=
  Symbol__eq__ self other && isinstance_T other.

(** [NT.__eq__] *)
Definition NT__eq__ (self other : Symbol) : bool :=
  Symbol__eq__ self other && isinstance_NT other.

(** [self == other]: neither of [T], [NT] is a subclass of the other, so
    the method of the left operand's class is the one called. *)
Definition Symbol_eqb (self other : Symbol) : bool :=
  match self with
  | T _ => T__eq__ self other
  | NT _ => NT__eq__ self other
  end.

(** [Symbol.__ne__] *)
Definition Symbol_neb (self other : Symbol) : bool :=
  negb (Symbol_eqb self other).

(** [Symbol.__hash__] hashes this string. *)
Definition Symbol_hash_key (x : Symbol) : string :=
  TypeName x +:+ "&" +:+ Symbol_str x.

#[global] Instance Symbol_eq_dec : EqDecision Symbol.
Proof. solve_decision. Defined.

#[global] Instance Symbol_inhabited : Inhabited Symbol := populate (NT "").

#[global] Instance Symbol_countable : Countable Symbol.
Proof.
  refine (inj_countable'
            (fun x => match x with T s => inl s | NT s => inr s end)
            (fun y => match y with inl s => T s | inr s => NT s end) _).
  by intros [].
Defined.

(** [T.__init__] compiles the pattern, and raises when [re.compile] does. *)
Definition T_init `{RT : Runtime} (s : string) : result Symbol :=
  match re_compile s with
  | Some _ => ret (T s)
  | None => raise ReError
  end.

(** [T.match].  The attribute [regexp] of a terminal is [re.compile(s)];
    it is recomputed here from [s].  A terminal whose pattern does not
    compile is never constructed ([T_init]). *)
Definition T_match `{RT : Runtime} (self : Symbol) (s : string) : bool :=
  match re_compile (Symbol_str self) with
  | Some regexp =>
      match re_match regexp s with
      | Some group0 =>
          Nat.eqb (String.length group0) (String.length s)
      | None => false
      end
  | None => false
  end.

(** Python's [==] on lists: equal lengths and elementwise [==]. *)
Fixpoint list_eqb {A : Type} (eqb : A -> A -> bool) (l1 l2 : list A) : bool :=
  match l1, l2 with
  | [], [] => true
  | x :: l1', y :: l2' => eqb x y && list_eqb eqb l1' l2'
  | _, _ => false
  end.

(** ** Rules *)

(** [mkRule] is an instance of class [Rule] itself, [UnitSkipRule] one of
    its subclass.  [Rule.__init__] asserts [isinstance(lhs, NT)] (and that
    every [rhs] element is a [T] or an [NT]), and no code assigns to [lhs]
    afterwards: a rule object always has a non-terminal [lhs].  The rule
    stores the name of that non-terminal, and [lhs r] is [NT] of it. *)
#[warnings="-register-all"]
Inductive Rule : Set :=
| mkRule (lhs_s : string) (rhs : list Symbol) (weight : Z) (alias : string)
| UnitSkipRule (lhs_s : string) (rhs : list Symbol)
    (skipped_rules : list Rule) (weight : Z) (alias : string).

Definition lhs_s (r : Rule) : string :=
  match r with mkRule l _ _ _ | UnitSkipRule l _ _ _ _ => l end.

(** [r.lhs] *)
Definition lhs (r : Rule) : Symbol := NT (lhs_s r).

Definition rhs (r : Rule) : list Symbol :=
  match r with mkRule _ g _ _ | UnitSkipRule _ g _ _ _ => g end.

Definition weight (r : Rule) : Z :=
  match r with mkRule _ _ w _ | UnitSkipRule _ _ _ w _ => w end.

Definition alias (r : Rule) : string :=
  match r with mkRule _ _ _ a | UnitSkipRule _ _ _ _ a => a end.

Definition isinstance_UnitSkipRule (r : Rule) : bool :=
  match r with mkRule _ _ _ _ => false | UnitSkipRule _ _ _ _ _ => true end.

(** [r.skipped_rules], read only after an [isinstance] test in the code *)
Definition skipped_rules (r : Rule) : list Rule :=
  match r with mkRule _ _ _ _ => [] | UnitSkipRule _ _ sk _ _ => sk end.

(** [str(rule)] *)
Definition Rule_str (r : Rule) : string :=
  Symbol_str (lhs r) +:+ " -> " +:+
  String.concat " " (map Symbol_str (rhs r)).

(** [Rule.__eq__(self, other)] *)
Definition Rule__eq__ (self other : Rule) : bool :=
  Symbol_eqb (lhs self) (lhs other) &&
  list_eqb Symbol_eqb (rhs self) (rhs other).

(** [self == other] on rules.

    [UnitSkipRule.__eq__(self, other)] is
    [Rule.__eq__(self, other) and isinstance(other, type(self)) and
     self.skipped_rules == other.skipped_rules].
    When the right operand's class is a proper subclass of the left
    operand's class (left a plain [Rule], right a [UnitSkipRule]), the
    interpreter calls the right operand's method first, with the operands
    swapped; its result is a [bool], so it is final. *)
Fixpoint Rule_eqb (self other : Rule) {struct self} : bool :=
  match self, other with
  | mkRule _ _ _ _, mkRule _ _ _ _ =>
      Rule__eq__ self other
  | mkRule _ _ _ _, UnitSkipRule _ _ _ _ _ =>
      (* UnitSkipRule.__eq__(other, self) *)
      Rule__eq__ other self && isinstance_UnitSkipRule self
  | UnitSkipRule _ _ sk1 _ _, _ =>
      (* UnitSkipRule.__eq__(self, other) *)
      Rule__eq__ self other && isinstance_UnitSkipRule other &&
      (fix skipped_eq (l1 l2 : list Rule) : bool :=
         match l1, l2 with
         | [], [] => true
         | x :: l1', y :: l2' => Rule_eqb x y && skipped_eq l1' l2'
         | _, _ => false
         end) sk1 (skipped_rules other)
  end.

(** [Rule.__ne__], inherited by [UnitSkipRule]: [not self.__eq__(other)],
    with the same choice of the operand whose method runs. *)
Definition Rule_neb (self other : Rule) : bool := negb (Rule_eqb self other).

(** ** Grammars *)

(** [sorted(l, key=key)] with string keys: a stable sort, [x] is put before
    the first element whose key is not smaller than its own. *)
Fixpoint sorted_insert {A : Type} (key : A -> string) (x : A) (l : list A)
    : list A :=
  match l with
  | [] => [x]
  | y :: l' =>
      if String.ltb (key y) (key x) then y :: sorted_insert key x l'
      else x :: y :: l'
  end.

Fixpoint sorted {A : Type} (key : A -> string) (l : list A) : list A :=
  match l with
  | [] => []
  | x :: l' => sorted_insert key x (sorted key l')
  end.

Record Grammar : Set := mkGrammar { rules : list Rule }.

(** [Grammar.__init__] *)
Definition Grammar_init (rs : list Rule) : Grammar :=
  mkGrammar (sorted Rule_str rs).

(** ** Parse trees *)

(** A [RuleNode]; each child is a terminal [T(w)] or another [RuleNode]. *)
#[warnings="-register-all"]
Inductive RuleNode : Set :=
| mkRuleNode (rule : Rule) (children : list (Symbol + RuleNode)) (weight : Z).

Definition Child : Set := (Symbol + RuleNode)%type.

Definition node_rule (n : RuleNode) : Rule :=
  match n with mkRuleNode r _ _ => r end.

Definition node_children (n : RuleNode) : list Child :=
  match n with mkRuleNode _ c _ => c end.

Definition node_weight (n : RuleNode) : Z :=
  match n with mkRuleNode _ _ w => w end.

(** ** The CNF wrapper *)

Record CnfWrapper : Type := mkCnfWrapper {
  grammar : Grammar;
  (** [defaultdict(list)]: terminal -> rules whose rhs is that terminal *)
  terminal_rules : gmap Symbol (list Rule);
  (** [defaultdict(list)]: [tuple(rhs)] -> rules with that rhs *)
  nonterminal_rules : gmap (Symbol * Symbol) (list Rule)
}.

(** [self.rules] *)
Definition cnf_rules (g : CnfWrapper) : list Rule := rules (grammar g).

(** One iteration of the validation loop of [CnfWrapper.__init__]. *)
Definition CnfWrapper_step (r : Rule)
    (st : gmap Symbol (list Rule) * gmap (Symbol * Symbol) (list Rule))
    : result (gmap Symbol (list Rule) * gmap (Symbol * Symbol) (list Rule)) :=
  let '(tr, ntr) := st in
  if negb (isinstance_NT (lhs r)) then raise AssertionError
  else if negb (bool_decide (length (rhs r) ∈ [1%nat; 2%nat]))
  then raise AssertionError
  else
    match rhs r with
    | [x] =>
        if isinstance_T x then ret (<[x := tr !!! x ++ [r]]> tr, ntr)
        else raise AssertionError
    | [x; y] =>
        if forallb isinstance_NT [x; y]
        then ret (tr, <[(x, y) := ntr !!! (x, y) ++ [r]]> ntr)
        else raise AssertionError
    | _ => raise AssertionError
    end.

(** [CnfWrapper.__init__] *)
Definition CnfWrapper_init (g : Grammar) : result CnfWrapper :=
  st <- for_each (rules g) CnfWrapper_step (∅, ∅) ;;
  ret (mkCnfWrapper g st.1 st.2).

(** ** The CYK table builder *)

(** [set.add] on a set of rules, kept as a duplicate-free list in insertion
    order.  Rules that are [==] have the same [str], hence the same hash. *)
Definition set_add (r : Rule) (s : list Rule) : list Rule :=
  if existsb (fun x => Rule_eqb x r) s then s else s ++ [r].

(** [xrange(a, b)] *)
Definition xrange (a b : Z) : list Z := seqZ a (b - a).

(** [enumerate(s)] *)
Definition enumerate {A : Type} (s : list A) : list (Z * A) :=
  zip (seqZ 0 (Z.of_nat (length s))) s.

Abbreviation table_t := (gmap (Z * Z) (list Rule)).
Abbreviation trees_t := (gmap (Z * Z) (gmap Symbol RuleNode)).

(** The test [lhs not in cell or w < cell[lhs].weight] *)
Definition lighter (cell : gmap Symbol RuleNode) (x : Symbol) (w : Z) : bool :=
  match cell !! x with
  | None => true
  | Some n => w <? node_weight n
  end.

(** [d[k]] on a plain [dict] *)
Definition getitem `{Countable K} {A : Type} (d : gmap K A) (k : K)
    : result A :=
  match d !! k with
  | Some a => ret a
  | None => raise KeyError
  end.

Section Parse.
Context `{RT : Runtime}.

(** Body of [for rule in rules] in the base case, at token [w] of
    index [i]. *)
Definition base_rule (i : Z) (w : string) (rule : Rule)
    (st : table_t * trees_t) : result (table_t * trees_t) :=
  let '(table, trees) := st in
  let table := <[(i, i) := set_add rule (table !!! (i, i))]> table in
  if lighter (trees !!! (i, i)) (lhs rule) (weight rule) then
    tw <- T_init w ;;
    ret (table,
         <[(i, i) := <[lhs rule := mkRuleNode rule [inl tw] (weight rule)]>
                       (trees !!! (i, i))]> trees)
  else ret (table, trees).

(** Body of [for terminal, rules in g.terminal_rules.iteritems()] *)
Definition base_terminal (i : Z) (w : string)
    (item : Symbol * list Rule) (st : table_t * trees_t)
    : result (table_t * trees_t) :=
  let '(terminal, rs) := item in
  if T_match terminal w then for_each rs (base_rule i w) st
  else ret st.

(** Body of [for i, w in enumerate(s)] *)
Definition base_token (g : CnfWrapper) (iw : Z * string)
    (st : table_t * trees_t) : result (table_t * trees_t) :=
  let '(i, w) := iw in
  for_each (iter_order (map_to_list (terminal_rules g)))
           (base_terminal i w) st.

(** Body of [for rule in g.nonterminal_rules.get((r1.lhs, r2.lhs), [])] *)
Definition span_rule (i l p : Z) (r1 r2 rule : Rule)
    (st : table_t * trees_t) : result (table_t * trees_t) :=
  let '(table, trees) := st in
  let span1 := (i, p - 1) in
  let span2 := (p, i + l - 1) in
  let span := (i, i + l - 1) in
  let table := <[span := set_add rule (table !!! span)]> table in
  r1_tree <- getitem (trees !!! span1) (lhs r1) ;;
  r2_tree <- getitem (trees !!! span2) (lhs r2) ;;
  let rule_total_weight :=
    weight rule + node_weight r1_tree + node_weight r2_tree in
  if lighter (trees !!! span) (lhs rule) rule_total_weight then
    ret (table,
         <[span := <[lhs rule := mkRuleNode rule [inr r1_tree; inr r2_tree]
                                   rule_total_weight]>
                     (trees !!! span)]> trees)
  else ret (table, trees).

(** Body of [for r1, r2 in itertools.product(table[span1], table[span2])] *)
Definition span_pair (g : CnfWrapper) (i l p : Z) (r12 : Rule * Rule)
    (st : table_t * trees_t) : result (table_t * trees_t) :=
  let '(r1, r2) := r12 in
  for_each (default [] (nonterminal_rules g !! (lhs r1, lhs r2)))
           (span_rule i l p r1 r2) st.

(** Body of [for p in xrange(i + 1, i + l)].  [itertools.product] reads
    its two arguments once, before the first pair is produced. *)
Definition span_split (g : CnfWrapper) (i l p : Z)
    (st : table_t * trees_t) : result (table_t * trees_t) :=
  let span1 := (i, p - 1) in
  let span2 := (p, i + l - 1) in
  for_each (list_prod (iter_order (st.1 !!! span1))
                      (iter_order (st.1 !!! span2)))
           (span_pair g i l p) st.

(** Body of [for i in xrange(len(s) - l + 1)] *)
Definition span_start (g : CnfWrapper) (l i : Z)
    (st : table_t * trees_t) : result (table_t * trees_t) :=
  for_each (xrange (i + 1) (i + l)) (span_split g i l) st.

(** Body of [for l in xrange(2, len(s) + 1)] *)
Definition span_length (g : CnfWrapper) (n : Z) (l : Z)
    (st : table_t * trees_t) : result (table_t * trees_t) :=
  for_each (xrange 0 (n - l + 1)) (span_start g l) st.

(** [_Parse(s, g)] *)
Definition _Parse (s : list string) (g : CnfWrapper)
    : result (table_t * trees_t) :=
  let n := Z.of_nat (length s) in
  st <- for_each (enumerate s) (base_token g) (∅, ∅) ;;
  for_each (xrange 2 (n + 1)) (span_length g n) st.

End Parse.

(** ** Conversion to Chomsky normal form *)

(** [BuildUnitSkipRule(unit_rule, target_rule)] *)
Definition BuildUnitSkipRule (unit_rule target_rule : Rule) : Rule :=
  let skipped := [] in
  let skipped :=
    if isinstance_UnitSkipRule unit_rule
    then skipped ++ skipped_rules unit_rule else skipped in
  let skipped := skipped ++ [target_rule] in
  let skipped :=
    if isinstance_UnitSkipRule target_rule
    then skipped ++ skipped_rules target_rule else skipped in
  UnitSkipRule (lhs_s unit_rule) (rhs target_rule) skipped
               (weight unit_rule + weight target_rule) (alias unit_rule).

(** [len(rule.rhs) == 1 and isinstance(rule.rhs[0], NT)] *)
Definition is_nt_unit_rule (rule : Rule) : bool :=
  match rhs rule with
  | [x] => isinstance_NT x
  | _ => false
  end.

(** [GetAnyNtUnitRule(g)] *)
Definition GetAnyNtUnitRule (g : Grammar) : option Rule :=
  List.find is_nt_unit_rule (rules g).

(** [l[i]] on a list, for [i >= 0] *)
Definition index {A : Type} (l : list A) (i : nat) : result A :=
  match l !! i with
  | Some a => ret a
  | None => raise IndexError
  end.

(** [[x for x in l if cond(x)]] where the condition may raise *)
Fixpoint filter_result {A : Type} (cond : A -> result bool) (l : list A)
    : result (list A) :=
  match l with
  | [] => ret []
  | x :: l' =>
      b <- cond x ;;
      rest <- filter_result cond l' ;;
      ret (if b : bool then x :: rest else rest)
  end.

(** [[f(x) for x in l]] where [f] may raise *)
Fixpoint map_result {A B : Type} (f : A -> result B) (l : list A)
    : result (list B) :=
  match l with
  | [] => ret []
  | x :: l' =>
      y <- f x ;;
      rest <- map_result f l' ;;
      ret (y :: rest)
  end.

(** [RemoveUnitRule(g, rule)].  [rule.rhs[0]] is evaluated once for each
    rule of [g]. *)
Definition RemoveUnitRule (g : Grammar) (rule : Rule) : result Grammar :=
  let new_rules := List.filter (fun x => Rule_neb x rule) (rules g) in
  refs <- filter_result
            (fun x => rhs0 <- index (rhs rule) 0 ;;
                      ret (Symbol_eqb (lhs x) rhs0))
            (rules g) ;;
  let new_rules := new_rules ++ map (BuildUnitSkipRule rule) refs in
  ret (Grammar_init new_rules).

(** [fmt % i] for the format string [fmt = '__SP_%s' % rule_str + '_%d']
    of [Split].  When [rule_str] has no [%] character this is plain
    substitution of the decimal digits of [i].  A [%] inside [rule_str]
    would be read as a conversion specifier of its own; such names are not
    modelled, and [Split] raises for them (CPython raises for most of
    them: unsupported format character, or not enough arguments). *)
Definition has_percent (s : string) : bool :=
  existsb (fun c => Ascii.eqb c "%"%char) (String.list_ascii_of_string s).

Definition rule_name_format (rule_str : string) (i : Z) : string :=
  "__SP_" +:+ rule_str +:+ "_" +:+ pretty i.

(** [rule.rhs[-2:]] *)
Definition last_two {A : Type} (l : list A) : list A :=
  drop (length l - 2) l.

(** [Split(rule)] *)
Definition Split (rule : Rule) : result (list Rule) :=
  let rule_str :=
    Symbol_str (lhs rule) +:+ "__" +:+
    String.concat "_" (map Symbol_str (rhs rule)) in
  let rule_name := rule_name_format rule_str in
  rhs0 <- index (rhs rule) 0 ;;
  if has_percent rule_str then raise FormatError else
  let new_rules :=
    [mkRule (lhs_s rule) [rhs0; NT (rule_name 1)] (weight rule) (alias rule)]
  in
  middle <- map_result
              (fun i => rhsi <- index (rhs rule) (Z.to_nat i) ;;
                        ret (mkRule (rule_name i)
                                    [rhsi; NT (rule_name (i + 1))] 0 "Split"))
              (xrange 1 (Z.of_nat (length (rhs rule)) - 2)) ;;
  let new_rules := new_rules ++ middle in
  let new_rules :=
    new_rules ++
    [mkRule (rule_name (Z.of_nat (length (rhs rule)) - 2))
            (last_two (rhs rule)) 0 "Split"] in
  ret new_rules.

(** [for x in l: acc.extend(f(x))] where [f] may raise *)
Fixpoint extend_each {A B : Type} (f : A -> result (list B)) (l : list A)
    : result (list B) :=
  match l with
  | [] => ret []
  | x :: l' =>
      ys <- f x ;;
      rest <- extend_each f l' ;;
      ret (ys ++ rest)
  end.

Section Term.
Context `{RT : Runtime}.

(** The set [all_t] of [Term], in the order the dictionary comprehension
    that builds [t_rules] iterates it *)
Definition all_t (g : Grammar) : list Symbol :=
  iter_order
    (remove_dups
       (List.filter isinstance_T (concat (map rhs (rules g))))).

(** The dictionary [t_rules] of [Term] *)
Definition t_rules (g : Grammar) : gmap Symbol Rule :=
  list_to_map
    (map (fun t => (t, mkRule ("__T_" +:+ Symbol_str t) [t] 0 "Term"))
         (all_t g)).

(** [k in rhs] *)
Definition Symbol_in (k : Symbol) (l : list Symbol) : bool :=
  existsb (fun x => Symbol_eqb x k) l.

(** Body of the loop of [Term]: the rules appended for [rule] *)
Definition Term_rule (tr : gmap Symbol Rule) (rule : Rule)
    : result (list Rule) :=
  if bool_decide (1 < length (rhs rule))%nat && existsb isinstance_T (rhs rule)
  then
    new_rhs <- map_result
                 (fun x => if isinstance_T x
                           then r <- getitem tr x ;; ret (lhs r)
                           else ret x)
                 (rhs rule) ;;
    ret (mkRule (lhs_s rule) new_rhs (weight rule) (alias rule) ::
         map snd (List.filter (fun kv => Symbol_in kv.1 (rhs rule))
                              (iter_order (map_to_list tr))))
  else ret [rule].

(** [Term(g)] *)
Definition Term (g : Grammar) : result Grammar :=
  new_rules <- extend_each (Term_rule (t_rules g)) (rules g) ;;
  ret (Grammar_init new_rules).

End Term.

(** [Bin(g)] *)
Definition Bin (g : Grammar) : result Grammar :=
  new_rules <- extend_each
                 (fun rule => if bool_decide (2 < length (rhs rule))%nat
                              then Split rule else ret [rule])
                 (rules g) ;;
  ret (Grammar_init new_rules).

(** [Unit(g)].  The [while] loop runs at most [fuel] times; [None] means
    that the loop was still running then. *)
Fixpoint Unit (fuel : nat) (g : Grammar) {struct fuel}
    : option (result Grammar) :=
  match GetAnyNtUnitRule g with
  | None => Some (ret g)
  | Some nt_unit_rule =>
      match fuel with
      | O => None
      | S fuel' =>
          match RemoveUnitRule g nt_unit_rule with
          | inl e => Some (raise e)
          | inr g' => Unit fuel' g'
          end
      end
  end.

(** [ToCnf(g)], with the fuel of [Unit] *)
Definition ToCnf `{RT : Runtime} (fuel : nat) (g : Grammar)
    : option (result CnfWrapper) :=
  match (g1 <- Term g ;; Bin g1) with
  | inl e => Some (raise e)
  | inr g2 =>
      match Unit fuel g2 with
      | None => None
      | Some (inl e) => Some (raise e)
      | Some (inr g3) => Some (CnfWrapper_init g3)
      end
  end.

(** ** Reverting a CNF parse tree *)

(** [UnrollUnitSkipRule(lhs, orig_rhs, skipped_rules, children, weight,
    alias)] *)
Fixpoint UnrollUnitSkipRule (lhs_name : string) (orig_rhs : list Symbol)
    (skipped : list Rule) (children : list Child) (w : Z) (a : string)
    : RuleNode :=
  match skipped with
  | [] => mkRuleNode (mkRule lhs_name orig_rhs w a) children w
  | sk0 :: rest =>
      let w := w - weight sk0 in
      mkRuleNode
        (mkRule lhs_name [lhs sk0] w a)
        [inr (UnrollUnitSkipRule (lhs_s sk0) orig_rhs rest children
                                 (weight sk0) (alias sk0))]
        w
  end.

(** The loop of [RevertCnf] that splices the children of [__SP_] nodes *)
Fixpoint splice_children (reverted_children : list Child) : list Child :=
  match reverted_children with
  | [] => []
  | child :: l' =>
      match child with
      | inr c =>
          if String.prefix "__SP_" (lhs_s (node_rule c))
          then node_children c ++ splice_children l'
          else child :: splice_children l'
      | inl _ => child :: splice_children l'
      end
  end.

(** [RevertCnf(node)] for a [RuleNode]; [RuleNode(rule, children)] has the
    default weight 0. *)
Fixpoint RevertCnf_node (node : RuleNode) : result Child :=
  match node with
  | mkRuleNode rule children _ =>
      if String.prefix "__T_" (lhs_s rule) then index children 0
      else
        reverted_children <-
          (fix revert_all (l : list Child) : result (list Child) :=
             match l with
             | [] => ret []
             | inl t :: l' =>
                 rest <- revert_all l' ;; ret (inl t :: rest)
             | inr m :: l' =>
                 c <- RevertCnf_node m ;;
                 rest <- revert_all l' ;; ret (c :: rest)
             end) children ;;
        let children := splice_children reverted_children in
        if isinstance_UnitSkipRule rule then
          ret (inr (UnrollUnitSkipRule (lhs_s rule) (rhs rule)
                      (skipped_rules rule) children (weight rule)
                      (alias rule)))
        else ret (inr (mkRuleNode rule children 0))
  end.

(** [RevertCnf(node)] *)
Definition RevertCnf (node : Child) : result Child :=
  match node with
  | inl t => ret (inl t)
  | inr n => RevertCnf_node n
  end.

(** ** The parser facade *)

(** Modelled from the spec: the rule objects and the output tree of the
    library ([lark.common], [lark.lexer], [lark.tree] are not among the
    sources).  A raw rule is
    [{origin, expansion, alias, options: {priority}}], each expansion
    element a terminal (carrying the pattern in [data]) or the name of a
    non-terminal; an output tree has the original non-terminal name, the
    ordered children (trees or tokens) and the original rule; a token has
    a type and a string value. *)
Inductive LarkSymbol : Set :=
| Terminal_Regexp (name : string) (data : string)
| Terminal (data : string)
| NonTerminalName (x : string).

Record RuleOptions : Set := mkRuleOptions { priority : option Z }.

Record LarkRule : Set := mkLarkRule {
  origin : string;
  expansion : list LarkSymbol;
  lark_alias : string;
  options : option RuleOptions
}.

Record Token : Set := mkToken { type_ : LarkSymbol; value : string }.

#[warnings="-register-all"]
Inductive Tree : Set :=
| mkTree (data : string) (children : list (Token + Tree)) (rule : LarkRule).

Record Parser : Type := mkParser {
  orig_rules : gmap string LarkRule;
  parser_grammar : CnfWrapper;
  start : Symbol
}.

Section Parser.
Context `{RT : Runtime}.

(** [Parser._ToRule] *)
Definition _ToRule (lark_rule : LarkRule) : result Rule :=
  new_rhs <- map_result
               (fun x => match x with
                         | Terminal_Regexp _ d | Terminal d => T_init d
                         | NonTerminalName x => ret (NT x)
                         end)
               (expansion lark_rule) ;;
  let w :=
    match options lark_rule with
    | Some o =>
        match priority o with
        | Some p => if p =? 0 then 0 else p
        | None => 0
        end
    | None => 0
    end in
  ret (mkRule (origin lark_rule) new_rhs w (lark_alias lark_rule)).

(** [Parser.__init__], with the fuel of [Unit] *)
Definition Parser_init (fuel : nat) (lark_rules : list LarkRule)
    (start_name : string) : option (result Parser) :=
  let orig :=
    foldl (fun d rule => <[lark_alias rule := rule]> d) ∅ lark_rules in
  match map_result _ToRule lark_rules with
  | inl e => Some (raise e)
  | inr rs =>
      match ToCnf fuel (Grammar_init rs) with
      | None => None
      | Some (inl e) => Some (raise e)
      | Some (inr g) => Some (ret (mkParser orig g (NT start_name)))
      end
  end.

(** [Parser._ToTree] for a [RuleNode].  The [elif] branch of the source
    tests [isinstance(child, Terminal_Regexp)] on a child that is a
    terminal [T] of this module, so the [else] branch is the one that
    runs for every terminal child. *)
Fixpoint _ToTree_node (orig : gmap string LarkRule) (rule_node : RuleNode)
    : result Tree :=
  match rule_node with
  | mkRuleNode rule children _ =>
      orig_rule <- getitem orig (alias rule) ;;
      children <-
        (fix each (i : nat) (l : list Child)
           : result (list (Token + Tree)) :=
           match l with
           | [] => ret []
           | inr child :: l' =>
               t <- _ToTree_node orig child ;;
               rest <- each (S i) l' ;; ret (inr t :: rest)
           | inl child :: l' =>
               e <- index (expansion orig_rule) i ;;
               rest <- each (S i) l' ;;
               ret (inl (mkToken e (Symbol_str child)) :: rest)
           end) 0%nat children ;;
      ret (mkTree (origin orig_rule) children orig_rule)
  end.

(** [Parser._ToTree]: a terminal has no attribute [rule]. *)
Definition _ToTree (orig : gmap string LarkRule) (rule_node : Child)
    : result Tree :=
  match rule_node with
  | inl _ => raise AttributeError
  | inr n => _ToTree_node orig n
  end.

(** The acceptance test of [Parser.parse]:
    [all(r.lhs != self.start for r in table[(0, len(tokenized) - 1)])] *)
Definition no_start_rule (self : Parser) (table : table_t) (n : Z) : bool :=
  forallb (fun r => Symbol_neb (lhs r) (start self))
          (iter_order (table !!! (0, n - 1))).

(** [Parser.parse] *)
Definition parse (self : Parser) (tokenized : list string) : result Tree :=
  tt <- _Parse tokenized (parser_grammar self) ;;
  let '(table, trees) := tt in
  let n := Z.of_nat (length tokenized) in
  if no_start_rule self table n then raise ParseError
  else
    parse <- getitem (trees !!! (0, n - 1))
                     (NT (Symbol_str (start self))) ;;
    reverted <- RevertCnf (inr parse) ;;
    _ToTree (orig_rules self) reverted.

End Parser.

(** ** A concrete runtime: a fragment of [re], insertion order *)

Module PyRe.

(** Patterns of the fragment: literal characters, [.], grouping,
    concatenation, [|], and the quantifiers [*], [+], [?] with their
    lazy forms.  [a+] is [Cat a (Star _ a)], [a?] is [Alt a Eps], and the
    lazy [a??] is [Alt Eps a]. *)
Inductive regex : Set :=
| Eps
| Chr (c : ascii)
| Any
| Cat (a b : regex)
| Alt (a b : regex)
| Star (greedy : bool) (a : regex).

(** Outcome of compiling a pattern: a compiled pattern, [re.error], or a
    pattern that uses syntax outside the fragment (character classes,
    counted repetition, anchors, alphanumeric escapes, [(?...)]). *)
Inductive compiled (A : Type) : Type :=
| Compiled (a : A)
| Error
| Unsupported.
Arguments Compiled {A} a.
Arguments Error {A}.
Arguments Unsupported {A}.

Definition is_repeat (c : ascii) : bool :=
  Ascii.eqb c "*" || Ascii.eqb c "+" || Ascii.eqb c "?".

Definition is_alnum (c : ascii) : bool :=
  let n := nat_of_ascii c in
  ((48 <=? n) && (n <=? 57) || (65 <=? n) && (n <=? 90) ||
   (97 <=? n) && (n <=? 122))%nat.

(** A quantifier after the item [r], if there is one.  A second
    quantifier is the error "multiple repeat". *)
Definition quantifier (r : regex) (rest : list ascii)
    : compiled (regex * list ascii) :=
  match rest with
  | q :: rest1 =>
      if is_repeat q then
        let '(greedy, rest2) :=
          match rest1 with
          | "?"%char :: rest2 => (false, rest2)
          | _ => (true, rest1)
          end in
        let item :=
          if Ascii.eqb q "*" then Star greedy r
          else if Ascii.eqb q "+" then Cat r (Star greedy r)
          else if greedy then Alt r Eps else Alt Eps r in
        match rest2 with
        | c :: _ => if is_repeat c then Error else Compiled (item, rest2)
        | [] => Compiled (item, rest2)
        end
      else Compiled (r, rest)
  | [] => Compiled (r, [])
  end.

Fixpoint parse_alt (fuel : nat) (s : list ascii)
    : compiled (regex * list ascii) :=
  match fuel with
  | O => Unsupported
  | S f =>
      match parse_seq f s with
      | Compiled (r1, "|"%char :: rest) =>
          match parse_alt f rest with
          | Compiled (r2, rest') => Compiled (Alt r1 r2, rest')
          | e => e
          end
      | x => x
      end
  end
with parse_seq (fuel : nat) (s : list ascii)
    : compiled (regex * list ascii) :=
  match fuel with
  | O => Unsupported
  | S f =>
      match s with
      | [] => Compiled (Eps, [])
      | c :: _ =>
          if Ascii.eqb c ")" || Ascii.eqb c "|" then Compiled (Eps, s)
          else
            match parse_item f s with
            | Compiled (r1, rest) =>
                match parse_seq f rest with
                | Compiled (r2, rest') => Compiled (Cat r1 r2, rest')
                | e => e
                end
            | e => e
            end
      end
  end
with parse_item (fuel : nat) (s : list ascii)
    : compiled (regex * list ascii) :=
  match fuel with
  | O => Unsupported
  | S f =>
      match s with
      | [] => Error
      | "("%char :: "?"%char :: _ => Unsupported
      | "("%char :: rest =>
          match parse_alt f rest with
          | Compiled (r, ")"%char :: rest') => quantifier r rest'
          | Compiled _ => Error          (* unbalanced parenthesis *)
          | e => e
          end
      | "\"%char :: c :: rest =>
          if is_alnum c then Unsupported else quantifier (Chr c) rest
      | "\"%char :: [] => Error          (* bogus escape *)
      | "."%char :: rest => quantifier Any rest
      | c :: rest =>
          if is_repeat c then Error      (* nothing to repeat *)
          else if Ascii.eqb c "[" || Ascii.eqb c "{" || Ascii.eqb c "^" ||
                  Ascii.eqb c "$"
          then Unsupported
          else quantifier (Chr c) rest
      end
  end.

(** [re.compile] on the fragment *)
Definition compile (p : string) : compiled regex :=
  let s := String.list_ascii_of_string p in
  match parse_alt (4 * length s + 4) s with
  | Compiled (r, []) => Compiled r
  | Compiled (_, _ :: _) => Error        (* unbalanced parenthesis *)
  | Error => Error
  | Unsupported => Unsupported
  end.

(** A repetition whose body is matched by [body]: at most [n] further
    iterations, each of which has to consume input. *)
Fixpoint star_loop (greedy : bool)
    (body : list ascii -> (list ascii -> option (list ascii)) ->
            option (list ascii))
    (k : list ascii -> option (list ascii)) (n : nat) (s : list ascii)
    {struct n} : option (list ascii) :=
  match n with
  | O => k s
  | S n' =>
      let again :=
        body s (fun s' => if (length s' <? length s)%nat
                          then star_loop greedy body k n' s' else None) in
      if greedy then
        match again with Some x => Some x | None => k s end
      else
        match k s with Some x => Some x | None => again end
  end.

(** The backtracking matcher: [bt r s k] tries the ways [r] can match a
    prefix of [s] in the library's order of preference (left alternative
    first, greedy repetition longest first, lazy shortest first) and
    returns the first for which the continuation [k] accepts the rest.  An
    iteration of a repetition that consumes nothing is not tried. *)
Fixpoint bt (r : regex) (s : list ascii)
    (k : list ascii -> option (list ascii)) {struct r}
    : option (list ascii) :=
  match r with
  | Eps => k s
  | Chr c =>
      match s with
      | c' :: s' => if Ascii.eqb c c' then k s' else None
      | [] => None
      end
  | Any =>
      match s with
      | c' :: s' => if Ascii.eqb c' "010" then None else k s'
      | [] => None
      end
  | Cat a b => bt a s (fun s' => bt b s' k)
  | Alt a b =>
      match bt a s k with
      | Some x => Some x
      | None => bt b s k
      end
  | Star greedy a => star_loop greedy (bt a) k (S (length s)) s
  end.

(** [regexp.match(s)]: the text of group 0 of the first match found at
    position 0 *)
Definition match_ (r : regex) (s : string) : option string :=
  let l := String.list_ascii_of_string s in
  match bt r l (fun rest => Some rest) with
  | Some rest =>
      Some (String.string_of_list_ascii (take (length l - length rest) l))
  | None => None
  end.

(** The strings a pattern denotes: [matches r s] when [r] matches the
    whole of [s]. *)
Inductive matches : regex -> list ascii -> Prop :=
| matches_Eps : matches Eps []
| matches_Chr c : matches (Chr c) [c]
| matches_Any c : c <> "010"%char -> matches Any [c]
| matches_Cat a b s1 s2 :
    matches a s1 -> matches b s2 -> matches (Cat a b) (s1 ++ s2)
| matches_Alt_l a b s : matches a s -> matches (Alt a b) s
| matches_Alt_r a b s : matches b s -> matches (Alt a b) s
| matches_Star_nil g a : matches (Star g a) []
| matches_Star_cons g a s1 s2 :
    matches a s1 -> matches (Star g a) s2 -> matches (Star g a) (s1 ++ s2).

(** The runtime: patterns outside the fragment are not compiled by this
    instance, which is applied to patterns of the fragment only; sets
    and dictionaries are iterated in insertion order. *)
#[export] Instance runtime : Runtime := {|
  Regex := regex;
  re_compile p :=
    match compile p with
    | Compiled r => Some r
    | _ => None
    end;
  re_match := match_;
  iter_order := fun _ l => l;
  iter_order_perm := fun _ l => Permutation_refl l
|}.

End PyRe.

(** * Notions used in the statements *)

(** A rule with every weight and alias erased, in the rule and in the rules
    of its skip chain. *)
Fixpoint erase (r : Rule) : Rule :=
  match r with
  | mkRule l g _ _ => mkRule l g 0 ""
  | UnitSkipRule l g sk _ _ => UnitSkipRule l g (map erase sk) 0 ""
  end.

(** [r] with another weight and alias *)
Definition with_weight_alias (r : Rule) (w : Z) (a : string) : Rule :=
  match r with
  | mkRule l g _ _ => mkRule l g w a
  | UnitSkipRule l g sk _ _ => UnitSkipRule l g sk w a
  end.

(** The CNF shape of a rule: a non-terminal lhs, and an rhs that is a
    single terminal or two non-terminals. *)
Definition cnf_shape (r : Rule) : Prop :=
  isinstance_NT (lhs r) = true /\
  ((exists t, rhs r = [T t]) \/ (exists a b, rhs r = [NT a; NT b])).

(** What [Term] does to one rule, in the words of the specification: the
    non-terminal that stands for a terminal, the unit rule that produces
    the terminal, and the rules that replace [rule]. *)
Definition term_nt (x : Symbol) : Symbol :=
  match x with
  | T t => NT ("__T_" +:+ t)
  | NT _ => x
  end.

Definition term_unit_rule (t : Symbol) : Rule :=
  mkRule ("__T_" +:+ Symbol_str t) [t] 0 "Term".

Definition term_rewrites (rule : Rule) : bool :=
  bool_decide (1 < length (rhs rule))%nat && existsb isinstance_T (rhs rule).

Definition Term_image (rule : Rule) : list Rule :=
  if term_rewrites rule then
    mkRule (lhs_s rule) (map term_nt (rhs rule)) (weight rule) (alias rule) ::
    map term_unit_rule (remove_dups (List.filter isinstance_T (rhs rule)))
  else [rule].

(** Sample inputs.  [plus_rules] is the grammar [S -> PLUS] with the
    terminal pattern [\+]; [collision_rules] and [collision_rules_t] have
    two rules for [S] of different lengths for which [Split] derives the
    same name: [S__A_B_C_D] from [S -> A B C D] and from [S -> A_B C D]. *)
Definition plus_rules : list LarkRule :=
  [mkLarkRule "S" [Terminal_Regexp "PLUS" "\+"] "s" None].

Definition collision_rules : list LarkRule :=
  [mkLarkRule "S" [NonTerminalName "A"; NonTerminalName "B";
                   NonTerminalName "C"; NonTerminalName "D"] "r1" None;
   mkLarkRule "S" [NonTerminalName "A_B"; NonTerminalName "C";
                   NonTerminalName "D"] "r2" None;
   mkLarkRule "A" [Terminal "a"] "a" None;
   mkLarkRule "B" [Terminal "b"] "b" None;
   mkLarkRule "C" [Terminal "c"] "c" None;
   mkLarkRule "D" [Terminal "d"] "d" None;
   mkLarkRule "A_B" [Terminal "x"] "ab" None].

Definition collision_rules_t : list LarkRule :=
  [mkLarkRule "S" [NonTerminalName "A"; NonTerminalName "B";
                   NonTerminalName "C"; Terminal "d"] "r1" None;
   mkLarkRule "S" [NonTerminalName "A_B"; NonTerminalName "C";
                   Terminal "d"] "r2" None;
   mkLarkRule "A" [Terminal "a"] "a" None;
   mkLarkRule "B" [Terminal "b"] "b" None;
   mkLarkRule "C" [Terminal "c"] "c" None;
   mkLarkRule "A_B" [Terminal "x"] "ab" None].

(** The rule lhs of a node carries a marker of the CNF conversion. *)
Definition cnf_artifact (r : Rule) : bool :=
  String.prefix "__T_" (lhs_s r) || String.prefix "__SP_" (lhs_s r) ||
  isinstance_UnitSkipRule r.

(** Derivations in a CNF rule list [rs] over the tokens [s]:
    [derives rs s i j X w] when [X] derives the tokens [i..j] (inclusive) by
    a derivation whose rule weights sum to [w]. *)
Inductive derives `{RT : Runtime} (rs : list Rule) (s : list string)
    : Z -> Z -> Symbol -> Z -> Prop :=
| derives_terminal i w t rule :
    0 <= i -> s !! Z.to_nat i = Some w ->
    rule ∈ rs -> rhs rule = [T t] -> T_match (T t) w = true ->
    derives rs s i i (lhs rule) (weight rule)
| derives_binary i p j a b w1 w2 rule :
    i < p <= j ->
    rule ∈ rs -> rhs rule = [NT a; NT b] ->
    derives rs s i (p - 1) (NT a) w1 ->
    derives rs s p j (NT b) w2 ->
    derives rs s i j (lhs rule) (weight rule + w1 + w2).

(** The cumulative weight of a child: a terminal weighs nothing. *)
Definition child_weight (c : Child) : Z :=
  match c with
  | inl _ => 0
  | inr n => node_weight n
  end.

Definition children_weight (cs : list Child) : Z :=
  foldr (fun c acc => child_weight c + acc) 0 cs.

(** [node_derivation rs s i j n]: the tree [n] is a derivation of the
    tokens [i..j] from the lhs of its rule, and the weight stored in each
    of its nodes is the weight of the node's rule plus the weights stored
    in the node's children. *)
Inductive node_derivation `{RT : Runtime} (rs : list Rule) (s : list string)
    : Z -> Z -> RuleNode -> Prop :=
| node_terminal i w t rule :
    0 <= i -> s !! Z.to_nat i = Some w ->
    rule ∈ rs -> rhs rule = [T t] -> T_match (T t) w = true ->
    node_derivation rs s i i (mkRuleNode rule [inl (T w)] (weight rule))
| node_binary i p j n1 n2 rule :
    i < p <= j ->
    rule ∈ rs -> rhs rule = [lhs (node_rule n1); lhs (node_rule n2)] ->
    node_derivation rs s i (p - 1) n1 ->
    node_derivation rs s p j n2 ->
    node_derivation rs s i j
      (mkRuleNode rule [inr n1; inr n2]
                  (weight rule + node_weight n1 + node_weight n2)).

(** Invariants of the table builder.  [covered trees span X c]: the cell
    [span] has a tree for [X] of weight at most [c]. *)
Definition covered (trees : trees_t) (span : Z * Z) (X : Symbol) (c : Z)
    : Prop :=
  exists node, (trees !!! span) !! X = Some node /\ node_weight node <= c.

(** [st'] is reached from [st] by steps of the builder: cells only gain
    rules, and the weight of the tree of a symbol only decreases. *)
Definition progress (st st' : table_t * trees_t) : Prop :=
  (forall span r, r ∈ st.1 !!! span -> r ∈ st'.1 !!! span) /\
  (forall span X c, covered st.2 span X c -> covered st'.2 span X c).

(** The two tables agree and every stored tree is a derivation. *)
Definition sound `{RT : Runtime} (rs : list Rule) (s : list string)
    (st : table_t * trees_t) : Prop :=
  forall i j,
    (forall r, r ∈ st.1 !!! (i, j) -> is_Some ((st.2 !!! (i, j)) !! lhs r)) /\
    (forall X node, (st.2 !!! (i, j)) !! X = Some node ->
       node_derivation rs s i j node /\ lhs (node_rule node) = X /\
       exists r, r ∈ st.1 !!! (i, j) /\ lhs r = X).

(** Every derivation over the span is matched by a stored tree that is at
    most as heavy. *)
Definition complete `{RT : Runtime} (rs : list Rule) (s : list string)
    (st : table_t * trees_t) (i j : Z) : Prop :=
  forall X c, derives rs s i j X c -> covered st.2 (i, j) X c.

(** The update both loops of [_Parse] make for a rule and its tree: the
    rule is added to the cell of the table, and the tree is stored when the
    cell has no tree for the lhs or a heavier one. *)
Definition store (span : Z * Z) (rule : Rule) (node : RuleNode)
    (st : table_t * trees_t) : table_t * trees_t :=
  let table := <[span := set_add rule (st.1 !!! span)]> st.1 in
  if lighter (st.2 !!! span) (lhs rule) (node_weight node)
  then (table, <[span := <[lhs rule := node]> (st.2 !!! span)]> st.2)
  else (table, st.2).

(** [runs C m Post]: whenever the computation [m] returns, its result
    satisfies [Post], and it does return when [C] holds. *)
Definition runs {S : Type} (C : Prop) (m : result S) (Post : S -> Prop)
    : Prop :=
  (forall st', m = ret st' -> Post st') /\ (C -> exists st', m = ret st').

(** Every token compiles as a pattern (the leaf [T(w)] can be built). *)
Definition tokens_compile `{RT : Runtime} (s : list string) : Prop :=
  forall w, w ∈ s -> is_Some (re_compile w).

(** A CNF grammar with two rules of different weight for [A]. *)
Definition sample_cnf : Grammar :=
  Grammar_init [mkRule "S" [NT "A"; NT "B"] 1 "s";
                mkRule "A" [T "a"] 5 "a5";
                mkRule "A" [T "a|b"] 2 "a2";
                mkRule "B" [T "b"] 0 "b"].

Definition sample_wrapper : CnfWrapper :=
  Eval vm_compute in
    match CnfWrapper_init sample_cnf with
    | inr g => g
    | inl _ => mkCnfWrapper sample_cnf ∅ ∅
    end.

(** The unit rules of a grammar as a graph on symbols.  [unit_step rs a b]:
    some rule of [rs] is the unit rule [a -> b] with [b] a non-terminal;
    the unit rules form no cycle when no symbol reaches itself. *)
Definition unit_step (rs : list Rule) (a b : Symbol) : Prop :=
  exists r, r ∈ rs /\ lhs r = a /\ rhs r = [b] /\ isinstance_NT b = true.

Definition unit_acyclic (rs : list Rule) : Prop :=
  forall a, ~ tc (unit_step rs) a a.

(** The edge of a rule, if it is a non-terminal unit rule, and the edges of
    a rule list, with their multiplicities. *)
Definition unit_edge_of (r : Rule) : option (Symbol * Symbol) :=
  match rhs r with
  | [NT b] => Some (lhs r, NT b)
  | _ => None
  end.

Definition unit_edges (rs : list Rule) : list (Symbol * Symbol) :=
  omap unit_edge_of rs.

Definition edge_rel (E : list (Symbol * Symbol)) : relation Symbol :=
  fun a b => (a, b) ∈ E.

(** No path in the graph has more than [K] edges. *)
Definition paths_bounded (E : list (Symbol * Symbol)) (K : nat) : Prop :=
  forall n x y, nsteps (edge_rel E) n x y -> (n <= K)%nat.

(** [depth E X k]: no path from [X] has more than [k] edges. *)
Definition depth (E : list (Symbol * Symbol)) (X : Symbol) (k : nat) : Prop :=
  forall n y, nsteps (edge_rel E) n X y -> (n <= k)%nat.

(** The number of paths of at most [k] edges that start at [X], the empty
    path included, each edge counted with its multiplicity. *)
Fixpoint path_count (E : list (Symbol * Symbol)) (k : nat) (X : Symbol)
    : nat :=
  match k with
  | O => 1
  | S k' =>
      1 + sum_list_with (fun e => path_count E k' e.2)
                        (filter (fun e => e.1 = X) E)
  end.

(** The termination measure of [Unit]: the number of non-empty paths. *)
Definition unit_measure (E : list (Symbol * Symbol)) (K : nat) : nat :=
  sum_list_with (fun e => path_count E K e.2) E.

(** A grammar with a chain of two unit rules. *)
Definition sample_units : Grammar :=
  Grammar_init [mkRule "A" [NT "B"] 1 "ab"; mkRule "B" [NT "C"] 2 "bc";
                mkRule "C" [T "c"] 3 "c"].

(** The parser for [S -> A B], [A -> a], [B -> b] with start [S]. *)
Definition sample_lark_rules : list LarkRule :=
  [mkLarkRule "S" [NonTerminalName "A"; NonTerminalName "B"] "r1" None;
   mkLarkRule "A" [Terminal "a"] "a" None;
   mkLarkRule "B" [Terminal "b"] "b" None].

Definition sample_parser : Parser :=
  Eval vm_compute in
    match Parser_init (RT := PyRe.runtime) 0 sample_lark_rules "S" with
    | Some (inr P) => P
    | _ => mkParser ∅ (mkCnfWrapper (mkGrammar []) ∅ ∅) (NT "S")
    end.

(** The name [Split] derives the names of its new non-terminals from. *)
Definition Rule_split_str (rule : Rule) : string :=
  Symbol_str (lhs rule) +:+ "__" +:+
  String.concat "_" (map Symbol_str (rhs rule)).

(** A chain of binary rules read back as one right-hand side: the first
    symbol of every rule but the last, then the whole rhs of the last. *)
Fixpoint chain_expand (chain : list Rule) : list Symbol :=
  match chain with
  | [] => []
  | r :: rest =>
      match rest with
      | [] => rhs r
      | _ :: _ => take 1 (rhs r) ++ chain_expand rest
      end
  end.

(** Each rule of the chain ends with the lhs of the next one. *)
Fixpoint chain_linked (chain : list Rule) : Prop :=
  match chain with
  | r :: rest =>
      match rest with
      | [] => True
      | r' :: _ => rhs r !! 1%nat = Some (lhs r') /\ chain_linked rest
      end
  | [] => True
  end.

(** The rules [Split] builds in its loop and after it. *)
Definition Split_middle (rule : Rule) (i : Z) : Rule :=
  mkRule (rule_name_format (Rule_split_str rule) i)
         [rhs rule !!! Z.to_nat i;
          NT (rule_name_format (Rule_split_str rule) (i + 1))] 0 "Split".

Definition Split_last (rule : Rule) : Rule :=
  mkRule (rule_name_format (Rule_split_str rule)
            (Z.of_nat (length (rhs rule)) - 2))
         (last_two (rhs rule)) 0 "Split".

(** What the rules [Split] adds to the first one look like. *)
Definition split_fragment (r : Rule) : Prop :=
  weight r = 0 /\ alias r = "Split" /\
  String.prefix "__SP_" (lhs_s r) = true /\
  length (rhs r) = 2%nat /\ isinstance_UnitSkipRule r = false.

(** The rules [Split] returns for a rule, and what [Bin] puts in the place
    of a rule. *)
Definition Split_rules (rule : Rule) : list Rule :=
  mkRule (lhs_s rule)
         [rhs rule !!! 0%nat; NT (rule_name_format (Rule_split_str rule) 1)]
         (weight rule) (alias rule) ::
  map (Split_middle rule) (seqZ 1 (Z.of_nat (length (rhs rule)) - 3)) ++
  [Split_last rule].

Definition Bin_image (rule : Rule) : list Rule :=
  if bool_decide (2 < length (rhs rule))%nat then Split_rules rule
  else [rule].

(** The shape of the rules between [Bin] and the end of [Unit]: one or two
    symbols, and two symbols are two non-terminals. *)
Definition pre_cnf (r : Rule) : Prop :=
  rhs r <> [] /\ (length (rhs r) <= 2)%nat /\
  ((1 < length (rhs r))%nat ->
   Forall (fun x => isinstance_NT x = true) (rhs r)).

(** A grammar with a long rule that mentions a terminal, and a unit rule. *)
Definition sample_long : Grammar :=
  Grammar_init [mkRule "S" [NT "A"; T "b"; NT "C"] 1 "s";
                mkRule "A" [NT "C"] 2 "ac";
                mkRule "C" [T "c"] 3 "c"].

(** The order [sorted] compares keys with: [a] is not after [b]. *)
Definition str_le (a b : string) : Prop := String.ltb b a = false.

(** A grammar with an epsilon rule. *)
Definition sample_epsilon : Grammar :=
  Grammar_init [mkRule "S" [NT "A"; NT "A"] 0 "s"; mkRule "A" [] 0 "e";
                mkRule "A" [T "a"] 0 "a"].

(** The nodes met from [n] down [k] levels, through the first child. *)
Fixpoint spine (k : nat) (n : RuleNode) : list RuleNode :=
  match k with
  | O => [n]
  | S k' =>
      n :: match node_children n with
           | inr c :: _ => spine k' c
           | _ => []
           end
  end.

(** Each node of the list has the next one as its only child, and a unit
    rule that produces the lhs of the next one. *)
Fixpoint spine_linked (nodes : list RuleNode) : Prop :=
  match nodes with
  | n :: rest =>
      match rest with
      | [] => True
      | m :: _ =>
          rhs (node_rule n) = [lhs (node_rule m)] /\
          node_children n = [inr m] /\ spine_linked rest
      end
  | [] => True
  end.

Definition sum_Z (l : list Z) : Z := foldr Z.add 0 l.

(** The terminals at the leaves of a parse tree, from left to right. *)
Fixpoint fringe_node (n : RuleNode) : list Symbol :=
  match n with
  | mkRuleNode _ children _ =>
      (fix go (l : list Child) : list Symbol :=
         match l with
         | [] => []
         | inl t :: l' => t :: go l'
         | inr m :: l' => fringe_node m ++ go l'
         end) children
  end.

Definition fringe (c : Child) : list Symbol :=
  match c with
  | inl t => [t]
  | inr n => fringe_node n
  end.

Definition fringes (l : list Child) : list Symbol := concat (map fringe l).

(** The tokens [i..j] of the input, as the leaves [T(w)] of a parse tree. *)
Definition span_leaves (s : list string) (i j : Z) : list Symbol :=
  map T (take (Z.to_nat (j - i + 1)) (drop (Z.to_nat i) s)).

(** The values of the tokens at the leaves of an output tree. *)
Fixpoint tree_tokens (t : Tree) : list string :=
  match t with
  | mkTree _ children _ =>
      (fix go (l : list (Token + Tree)) : list string :=
         match l with
         | [] => []
         | inl tok :: l' => value tok :: go l'
         | inr sub :: l' => tree_tokens sub ++ go l'
         end) children
  end.

(** No rule named like the non-terminals of [Term] has more than one
    symbol on its right-hand side. *)
Definition term_names_unit (rs : list Rule) : Prop :=
  forall r, r ∈ rs -> String.prefix "__T_" (lhs_s r) = true ->
            length (rhs r) = 1%nat.

(** The token values at the leaves of a list of output children. *)
Definition forest_tokens (l : list (Token + Tree)) : list string :=
  concat (map (fun c => match c with
                        | inl tok => [value tok]
                        | inr t => tree_tokens t
                        end) l).

(** What [_ToRule] makes of a raw rule when every pattern compiles. *)
Definition lark_symbol (x : LarkSymbol) : Symbol :=
  match x with
  | Terminal_Regexp _ d | Terminal d => T d
  | NonTerminalName x => NT x
  end.

Definition lark_weight (lark_rule : LarkRule) : Z :=
  match options lark_rule with
  | Some o => default 0 (priority o)
  | None => 0
  end.

Definition lark_rule_of (lark_rule : LarkRule) : Rule :=
  mkRule (origin lark_rule) (map lark_symbol (expansion lark_rule))
         (lark_weight lark_rule) (lark_alias lark_rule).

(** Every pattern of the raw rule compiles. *)
Definition patterns_compile `{RT : Runtime} (lark_rule : LarkRule) : Prop :=
  forall x, x ∈ expansion lark_rule -> isinstance_T (lark_symbol x) = true ->
            is_Some (re_compile (Symbol_str (lark_symbol x))).

(** The language of a rule list, whatever the shape of its rules:
    [gderives rs s i k l] when the sequence of symbols [l] derives the
    tokens [i .. k - 1] of [s].  A terminal derives one token that it
    matches; a non-terminal derives what the right-hand side of one of its
    rules derives. *)
Inductive gderives `{RT : Runtime} (rs : list Rule) (s : list string)
    : Z -> Z -> list Symbol -> Prop :=
| gderives_nil i : gderives rs s i i []
| gderives_T i k w t l :
    0 <= i -> s !! Z.to_nat i = Some w -> T_match (T t) w = true ->
    gderives rs s (i + 1) k l ->
    gderives rs s i k (T t :: l)
| gderives_NT i p k rule l :
    rule ∈ rs ->
    gderives rs s i p (rhs rule) ->
    gderives rs s p k l ->
    gderives rs s i k (lhs rule :: l).

(** A substitution of symbols by sequences, applied to a sequence. *)
Definition subst_seq (sigma : Symbol -> list Symbol) (l : list Symbol)
    : list Symbol :=
  concat (map sigma l).

(** The derivations the table builder follows, for a sequence of symbols:
    each symbol derives its part of the tokens [i .. k - 1]. *)
Definition cyk_sym `{RT : Runtime} (rs : list Rule) (s : list string)
    (i p : Z) (x : Symbol) : Prop :=
  match x with
  | T t =>
      p = i + 1 /\ 0 <= i /\
      exists w, s !! Z.to_nat i = Some w /\ T_match (T t) w = true
  | NT a => exists c, derives rs s i (p - 1) (NT a) c
  end.

Fixpoint cyk_seq `{RT : Runtime} (rs : list Rule) (s : list string)
    (i k : Z) (l : list Symbol) : Prop :=
  match l with
  | [] => i = k
  | x :: l' => exists p, cyk_sym rs s i p x /\ cyk_seq rs s p k l'
  end.

(** Names of the shape [Term] generates do not occur in the rules. *)
Definition term_fresh (rs : list Rule) : Prop :=
  forall r, r ∈ rs ->
    String.prefix "__T_" (lhs_s r) = false /\
    forall a, NT a ∈ rhs r -> String.prefix "__T_" a = false.

(** What a symbol of the grammar [Term] returns stands for: the
    non-terminal [__T_t] for the terminal [t], any other symbol for
    itself. *)
Definition strip_T (a : string) : string :=
  match a with
  | String _ (String _ (String _ (String _ t))) => t
  | _ => a
  end.

Definition term_meaning (x : Symbol) : list Symbol :=
  match x with
  | T t => [T t]
  | NT a => if String.prefix "__T_" a then [T (strip_T a)] else [NT a]
  end.

(** The names [Split] generates collide with nothing: [sigma] reads each
    symbol of the rules as itself, and the [k]-th name generated for a long
    rule as the part of its right-hand side from position [k] on. *)
Definition split_names_fresh (rs : list Rule)
    (sigma : Symbol -> list Symbol) : Prop :=
  (forall t, sigma (T t) = [T t]) /\
  forall r, r ∈ rs ->
    sigma (lhs r) = [lhs r] /\
    (forall x, x ∈ rhs r -> sigma x = [x]) /\
    ((2 < length (rhs r))%nat ->
     forall k, 1 <= k <= Z.of_nat (length (rhs r)) - 2 ->
       sigma (NT (rule_name_format (Rule_split_str r) k)) =
       drop (Z.to_nat k) (rhs r)).

(** A grammar with one long rule, and the reading of the name [Split]
    generates for it. *)
Definition sample_split : Grammar :=
  Grammar_init [mkRule "S" [NT "A"; NT "B"; NT "C"] 1 "s";
                mkRule "A" [T "a"] 0 "a";
                mkRule "B" [T "b"] 0 "b";
                mkRule "C" [T "c"] 0 "c"].

Definition sample_split_meaning (x : Symbol) : list Symbol :=
  match x with
  | NT n => if String.eqb n "__SP_S__A_B_C_1" then [NT "B"; NT "C"] else [x]
  | T _ => [x]
  end.

(** * Properties *)

(** ** Equality of symbols and rules *)

Lemma Symbol_eqb_eq (x y : Symbol) : Symbol_eqb x y = true <-> x = y.
Proof.
  destruct x as [s|s], y as [s'|s']; cbn;
    unfold T__eq__, NT__eq__, Symbol__eq__; cbn;
    rewrite ?andb_true_r, ?andb_false_r; try rewrite String.eqb_eq;
    split; intros E; try discriminate; by simplify_eq.
Qed.

Lemma Symbol_eqb_refl (x : Symbol) : Symbol_eqb x x = true.
Proof. by apply Symbol_eqb_eq. Qed.

Lemma Symbol_eqb_neq (x y : Symbol) : Symbol_eqb x y = false <-> x <> y.
Proof.
  rewrite <- Symbol_eqb_eq. destruct (Symbol_eqb x y); intuition congruence.
Qed.

Lemma list_eqb_eq {A : Type} (eqb : A -> A -> bool) (l1 l2 : list A) :
  Forall (fun x => forall y, eqb x y = true <-> x = y) l1 ->
  list_eqb eqb l1 l2 = true <-> l1 = l2.
Proof.
  intros HA. revert l2.
  induction HA as [|x l1 Hx _ IH]; intros [|y l2]; cbn; try done.
  rewrite andb_true_iff, Hx, IH. split; [intros [-> ->]|intros [=]]; done.
Qed.

Lemma rhs_eqb_eq (l1 l2 : list Symbol) :
  list_eqb Symbol_eqb l1 l2 = true <-> l1 = l2.
Proof.
  apply list_eqb_eq, Forall_forall. intros x _ y. apply Symbol_eqb_eq.
Qed.

Lemma Rule__eq__spec (r1 r2 : Rule) :
  Rule__eq__ r1 r2 = true <-> lhs r1 = lhs r2 /\ rhs r1 = rhs r2.
Proof.
  unfold Rule__eq__. by rewrite andb_true_iff, Symbol_eqb_eq, rhs_eqb_eq.
Qed.

(** Induction on rules, with the hypothesis for every skipped rule. *)
Lemma Rule_nested_ind (P : Rule -> Prop) :
  (forall l g w a, P (mkRule l g w a)) ->
  (forall l g sk w a, Forall P sk -> P (UnitSkipRule l g sk w a)) ->
  forall r, P r.
Proof.
  intros Hplain Hskip.
  fix IH 1. intros [l g w a|l g sk w a]; [apply Hplain|].
  apply Hskip. induction sk as [|r sk IHsk]; constructor; [apply IH|apply IHsk].
Qed.

Lemma Rule_eqb_unfold_skip l g sk w a other :
  Rule_eqb (UnitSkipRule l g sk w a) other =
  Rule__eq__ (UnitSkipRule l g sk w a) other &&
  isinstance_UnitSkipRule other &&
  list_eqb Rule_eqb sk (skipped_rules other).
Proof.
  cbn [Rule_eqb]. f_equal.
  generalize (skipped_rules other). induction sk as [|x sk IH]; intros [|y l2]; cbn; try done.
  by rewrite IH.
Qed.

Lemma Rule_eqb_erase (r1 r2 : Rule) :
  Rule_eqb r1 r2 = true <-> erase r1 = erase r2.
Proof.
  revert r2. induction r1 as [l g w a|l g sk w a IH] using Rule_nested_ind;
    intros r2.
  - destruct r2 as [l' g' w' a'|l' g' sk' w' a']; cbn [Rule_eqb erase].
    + rewrite Rule__eq__spec. cbn. split; [intros [[=] ->]|intros [=]]; by subst.
    + cbn. rewrite andb_false_r. split; done.
  - rewrite Rule_eqb_unfold_skip.
    destruct r2 as [l' g' w' a'|l' g' sk' w' a']; cbn [erase].
    + cbn. rewrite andb_false_r. split; done.
    + rewrite !andb_true_iff, Rule__eq__spec. cbn.
      assert (Hsk : list_eqb Rule_eqb sk sk' = true <->
                    map erase sk = map erase sk').
      { clear -IH. revert sk'.
        induction IH as [|x sk Hx _ IHsk]; intros [|y sk']; cbn; try done.
        rewrite andb_true_iff, Hx, IHsk.
        split; [intros [-> ->]|intros [=]]; done. }
      rewrite Hsk. split; [intros [[[[=] ->] _] ->]|intros [=]]; by subst.
Qed.

(** C9, as stated, fails: a plain rule and a unit-skip rule with the same
    lhs and the same rhs are not equal. *)
Lemma Rule_eq_lhs_rhs_counterexample :
  let r1 := mkRule "A" [NT "B"] 0 "a" in
  let r2 := UnitSkipRule "A" [NT "B"] [mkRule "B" [NT "B"] 0 "b"] 0 "a" in
  (Symbol_eqb (lhs r1) (lhs r2) = true /\
   list_eqb Symbol_eqb (rhs r1) (rhs r2) = true) /\
  Rule_eqb r1 r2 = false /\ Rule_eqb r2 r1 = false.
Proof. by vm_compute. Qed.

(** C9 (amended): two rules are equal iff they have equal lhs, elementwise
    equal rhs, are of the same class and, for unit-skip rules, have skip
    chains that are equal elementwise under the same equality; that is, iff
    they coincide once every weight and alias is erased.  The weight and
    the alias of either rule never affect the result, and the relation is
    symmetric. *)
Theorem Rule_eq_spec (r1 r2 : Rule) :
  (Rule_eqb r1 r2 = true <->
     lhs r1 = lhs r2 /\ rhs r1 = rhs r2 /\
     isinstance_UnitSkipRule r1 = isinstance_UnitSkipRule r2 /\
     Forall2 (fun x y => Rule_eqb x y = true)
             (skipped_rules r1) (skipped_rules r2)) /\
  (Rule_eqb r1 r2 = true <-> erase r1 = erase r2) /\
  (forall w a w' a',
     Rule_eqb (with_weight_alias r1 w a) (with_weight_alias r2 w' a') =
     Rule_eqb r1 r2) /\
  Rule_eqb r1 r2 = Rule_eqb r2 r1.
Proof.
  assert (Heq : forall x y, Rule_eqb x y = Rule_eqb y x).
  { intros x y. apply eq_true_iff_eq. by rewrite !Rule_eqb_erase. }
  split; [split|split; [apply Rule_eqb_erase|split; [|apply Heq]]].
  - intros E%Rule_eqb_erase.
    assert (Hsk : map erase (skipped_rules r1) = map erase (skipped_rules r2))
      by (by destruct r1, r2; simplify_eq/=).
    repeat split; try (by destruct r1, r2; simplify_eq/=).
    clear E. revert Hsk. generalize (skipped_rules r2).
    induction (skipped_rules r1) as [|x l IH]; intros [|y l']; cbn;
      intros [=]; constructor; [by apply Rule_eqb_erase|by apply IH].
  - intros (Hl & Hg & Hc & Hsk). apply Rule_eqb_erase.
    assert (Hsk' : map erase (skipped_rules r1) = map erase (skipped_rules r2)).
    { induction Hsk as [|x y l l' Hxy _ IH]; cbn; [done|].
      apply Rule_eqb_erase in Hxy. by rewrite Hxy, IH. }
    unfold lhs in Hl. destruct r1, r2; simplify_eq/=; congruence.
  - intros w a w' a'. apply eq_true_iff_eq. rewrite !Rule_eqb_erase.
    by destruct r1, r2.
Qed.

(** ** Parsing the empty input *)

Lemma iter_order_nil `{RT : Runtime} {A : Type} : iter_order (@nil A) = [].
Proof. apply Permutation_nil. symmetry. apply iter_order_perm. Qed.

Lemma _Parse_nil `{RT : Runtime} (g : CnfWrapper) : _Parse [] g = ret (∅, ∅).
Proof. reflexivity. Qed.

(** C10: on the empty token sequence [parse] raises [ParseError], whatever
    the grammar and the start symbol of the parser: the table is empty, so
    the cell read at key [(0, -1)] holds no rule. *)
Theorem parse_empty_raises_ParseError `{RT : Runtime} (self : Parser) :
  parse self [] = raise ParseError.
Proof.
  unfold parse. rewrite _Parse_nil. cbn [bind ret].
  unfold no_start_rule. rewrite lookup_total_empty.
  change (inhabitant : list Rule) with (@nil Rule).
  by rewrite iter_order_nil.
Qed.

(** ** Validation by [CnfWrapper] *)

Lemma CnfWrapper_step_ok r st :
  cnf_shape r -> exists st', CnfWrapper_step r st = ret st'.
Proof.
  intros [_ [[t Ht]|(a & b & Hab)]]; destruct st as [tr ntr];
    unfold CnfWrapper_step; cbn; rewrite ?Ht, ?Hab; cbn; eauto.
Qed.

Lemma CnfWrapper_step_fail r st :
  ~ cnf_shape r -> CnfWrapper_step r st = raise AssertionError.
Proof.
  intros Hn. destruct st as [tr ntr]. unfold CnfWrapper_step. cbn.
  destruct (rhs r) as [|x [|y [|z l]]] eqn:Hr; cbn; try done.
  - destruct x; cbn; [|done]. destruct Hn. split; eauto.
  - destruct x, y; cbn; try done. destruct Hn. split; eauto.
Qed.

Lemma cnf_shape_dec r : cnf_shape r \/ ~ cnf_shape r.
Proof.
  unfold cnf_shape. destruct (rhs r) as [|[x|x] [|[y|y] [|z l]]];
    try (right; intros [_ [[? [=]]|(? & ? & [=])]]; fail);
    left; split; eauto.
Qed.

Lemma Forall_cnf_shape_dec (l : list Rule) :
  Forall cnf_shape l \/ ~ Forall cnf_shape l.
Proof.
  induction l as [|r l IH]; [by left|].
  destruct IH as [IH|IH];
    [|right; intros HF; inversion HF; contradiction].
  destruct (cnf_shape_dec r); [left; by constructor|].
  right. intros HF; inversion HF; contradiction.
Qed.

Lemma CnfWrapper_loop_ok l st :
  Forall cnf_shape l -> exists st', for_each l CnfWrapper_step st = ret st'.
Proof.
  intros HF. revert st. induction HF as [|r l Hr _ IH]; intros st; cbn.
  - eauto.
  - destruct (CnfWrapper_step_ok r st Hr) as [st' ->]. cbn. apply IH.
Qed.

Lemma CnfWrapper_loop_fail l st :
  ~ Forall cnf_shape l -> for_each l CnfWrapper_step st = raise AssertionError.
Proof.
  revert st. induction l as [|r l IH]; intros st Hn; cbn.
  - destruct Hn. constructor.
  - destruct (cnf_shape_dec r) as [Hr|Hr].
    + destruct (CnfWrapper_step_ok r st Hr) as [st' ->]. cbn.
      apply IH. intros HF. apply Hn. by constructor.
    + by rewrite CnfWrapper_step_fail.
Qed.

(** C7: [CnfWrapper(grammar)] is constructed iff every rule of the grammar
    has the CNF shape, and raises [AssertionError] for every other
    grammar. *)
Theorem CnfWrapper_init_iff_cnf (g : Grammar) :
  ((exists w, CnfWrapper_init g = ret w) <-> Forall cnf_shape (rules g)) /\
  (~ Forall cnf_shape (rules g) -> CnfWrapper_init g = raise AssertionError).
Proof.
  assert (Hfail : ~ Forall cnf_shape (rules g) ->
                  CnfWrapper_init g = raise AssertionError).
  { intros Hn. unfold CnfWrapper_init.
    by rewrite (CnfWrapper_loop_fail _ _ Hn). }
  split; [split|done].
  - intros [w Hw].
    pose proof (Forall_cnf_shape_dec (rules g)) as Hdec.
    destruct Hdec as [HF|HF]; [done|].
    rewrite Hfail in Hw by done. discriminate.
  - intros HF. unfold CnfWrapper_init.
    destruct (CnfWrapper_loop_ok (rules g) (∅, ∅) HF) as [st' ->]. cbn. eauto.
Qed.

(** ** Unit elimination: one step *)

Lemma sorted_insert_Permutation {A : Type} (key : A -> string) x (l : list A) :
  sorted_insert key x l ≡ₚ x :: l.
Proof.
  induction l as [|y l IH]; cbn; [done|].
  destruct (String.ltb (key y) (key x)); [|done].
  rewrite IH. apply perm_swap.
Qed.

Lemma sorted_Permutation {A : Type} (key : A -> string) (l : list A) :
  sorted key l ≡ₚ l.
Proof.
  induction l as [|x l IH]; cbn; [done|].
  by rewrite sorted_insert_Permutation, IH.
Qed.

Lemma elem_of_Grammar_init (r : Rule) (rs : list Rule) :
  r ∈ rules (Grammar_init rs) <-> r ∈ rs.
Proof. cbn. by rewrite sorted_Permutation. Qed.

Lemma is_nt_unit_rule_rhs (r : Rule) :
  is_nt_unit_rule r = true <-> exists b, rhs r = [NT b].
Proof.
  unfold is_nt_unit_rule. destruct (rhs r) as [|[t|b] [|y l]]; cbn;
    split; try done; try (by intros [? [=]]); eauto.
Qed.

Lemma GetAnyNtUnitRule_Some (g : Grammar) (r : Rule) :
  GetAnyNtUnitRule g = Some r -> r ∈ rules g /\ exists b, rhs r = [NT b].
Proof.
  unfold GetAnyNtUnitRule. intros Hf. apply find_some in Hf as [Hin Hu].
  split; [by apply list_elem_of_In|by apply is_nt_unit_rule_rhs].
Qed.

Lemma GetAnyNtUnitRule_None (g : Grammar) :
  GetAnyNtUnitRule g = None <->
  forall r, r ∈ rules g -> is_nt_unit_rule r = false.
Proof.
  unfold GetAnyNtUnitRule. split.
  - intros Hf r Hr. apply (find_none _ _ Hf). by apply list_elem_of_In.
  - intros Hall. destruct (find _ _) as [r|] eqn:Hf; [|done].
    apply find_some in Hf as [Hin Hu]. apply list_elem_of_In in Hin.
    by rewrite (Hall r Hin) in Hu.
Qed.

Lemma filter_result_total {A : Type} (cond : A -> result bool)
    (f : A -> bool) (l : list A) :
  (forall x, cond x = ret (f x)) -> filter_result cond l = ret (List.filter f l).
Proof.
  intros Hc. induction l as [|x l IH]; cbn; [done|].
  rewrite Hc, IH. cbn. by destruct (f x).
Qed.

Lemma RemoveUnitRule_unit (g : Grammar) (rule : Rule) (x0 : Symbol) l0 :
  rhs rule = x0 :: l0 ->
  RemoveUnitRule g rule =
  ret (Grammar_init
         (List.filter (fun x => Rule_neb x rule) (rules g) ++
          map (BuildUnitSkipRule rule)
              (List.filter (fun x => Symbol_eqb (lhs x) x0) (rules g)))).
Proof.
  intros Hr. unfold RemoveUnitRule.
  rewrite (filter_result_total _ (fun x => Symbol_eqb (lhs x) x0)); [done|].
  intros x. by rewrite Hr.
Qed.

Lemma BuildUnitSkipRule_skipped (unit_rule target_rule : Rule) :
  skipped_rules (BuildUnitSkipRule unit_rule target_rule) =
  skipped_rules unit_rule ++ target_rule :: skipped_rules target_rule.
Proof.
  unfold BuildUnitSkipRule. cbn.
  destruct unit_rule, target_rule; cbn; by rewrite <- ?app_assoc.
Qed.

Lemma elem_of_filter_list {A : Type} (f : A -> bool) (l : list A) (x : A) :
  x ∈ List.filter f l <-> x ∈ l /\ f x = true.
Proof. rewrite !list_elem_of_In. apply filter_In. Qed.

(** C6: when [Unit] removes the unit rule [A -> B] it found, each rule
    [B -> γ] of the grammar gets a replacement in the new grammar that is
    a [UnitSkipRule] [A -> γ], whose weight is the sum of the two weights
    and whose skip chain records [B -> γ] followed by the chain of
    [B -> γ] itself (after the chain of the removed rule, which is empty
    for a plain rule); every rule of the new grammar is such a replacement
    or a rule of the old grammar different from the removed one. *)
Theorem RemoveUnitRule_replacements (g : Grammar) (unit_rule : Rule) :
  GetAnyNtUnitRule g = Some unit_rule ->
  exists (b : string) (g' : Grammar),
    rhs unit_rule = [NT b] /\
    RemoveUnitRule g unit_rule = ret g' /\
    (forall target, target ∈ rules g -> lhs target = NT b ->
       let r := BuildUnitSkipRule unit_rule target in
       r ∈ rules g' /\
       isinstance_UnitSkipRule r = true /\
       lhs r = lhs unit_rule /\ rhs r = rhs target /\
       weight r = weight unit_rule + weight target /\
       alias r = alias unit_rule /\
       skipped_rules r =
         skipped_rules unit_rule ++ target :: skipped_rules target /\
       (isinstance_UnitSkipRule unit_rule = false ->
        skipped_rules r = target :: skipped_rules target)) /\
    (forall r, r ∈ rules g' ->
       (r ∈ rules g /\ Rule_eqb r unit_rule = false) \/
       (exists target, target ∈ rules g /\ lhs target = NT b /\
                       r = BuildUnitSkipRule unit_rule target)).
Proof.
  intros Hget. apply GetAnyNtUnitRule_Some in Hget as [Hin [b Hb]].
  exists b. eexists. split; [done|].
  split; [by apply (RemoveUnitRule_unit g unit_rule (NT b) [])|].
  split.
  - intros target Ht Hl r. subst r. split.
    { apply elem_of_Grammar_init, elem_of_app. right.
      apply list_elem_of_fmap. exists target. split; [done|].
      apply elem_of_filter_list. split; [done|]. by apply Symbol_eqb_eq. }
    rewrite BuildUnitSkipRule_skipped. repeat split.
    intros Hp. by destruct unit_rule.
  - intros r Hr. apply elem_of_Grammar_init, elem_of_app in Hr as [Hr|Hr].
    + left. apply elem_of_filter_list in Hr as [Hr Hne]. split; [done|].
      unfold Rule_neb in Hne. by destruct (Rule_eqb r unit_rule).
    + right. apply list_elem_of_fmap in Hr as (target & -> & Ht).
      apply elem_of_filter_list in Ht as [Ht Hl]. exists target.
      split; [done|]. split; [|done]. by apply Symbol_eqb_eq.
Qed.

Lemma RemoveUnitRule_replacements_witness :
  let unit_rule := mkRule "A" [NT "B"] 2 "a" in
  let g := Grammar_init [unit_rule; mkRule "B" [T "b"] 3 "b"] in
  GetAnyNtUnitRule g = Some unit_rule /\
  exists (b : string) (g' : Grammar),
    rhs unit_rule = [NT b] /\
    RemoveUnitRule g unit_rule = ret g' /\
    (forall target, target ∈ rules g -> lhs target = NT b ->
       let r := BuildUnitSkipRule unit_rule target in
       r ∈ rules g' /\
       isinstance_UnitSkipRule r = true /\
       lhs r = lhs unit_rule /\ rhs r = rhs target /\
       weight r = weight unit_rule + weight target /\
       alias r = alias unit_rule /\
       skipped_rules r =
         skipped_rules unit_rule ++ target :: skipped_rules target /\
       (isinstance_UnitSkipRule unit_rule = false ->
        skipped_rules r = target :: skipped_rules target)) /\
    (forall r, r ∈ rules g' ->
       (r ∈ rules g /\ Rule_eqb r unit_rule = false) \/
       (exists target, target ∈ rules g /\ lhs target = NT b /\
                       r = BuildUnitSkipRule unit_rule target)).
Proof.
  split; [reflexivity|].
  apply (RemoveUnitRule_replacements
           (Grammar_init [mkRule "A" [NT "B"] 2 "a"; mkRule "B" [T "b"] 3 "b"])
           (mkRule "A" [NT "B"] 2 "a")).
  reflexivity.
Defined.

(** ** The TERM stage *)

Lemma extend_each_total {A B : Type} (f : A -> result (list B))
    (f' : A -> list B) (l : list A) :
  (forall x, x ∈ l -> f x = ret (f' x)) ->
  extend_each f l = ret (concat (map f' l)).
Proof.
  induction l as [|x l IH]; intros Hf; cbn; [done|].
  rewrite Hf by left. rewrite IH; [done|].
  intros y Hy. apply Hf. by right.
Qed.

Lemma Permutation_concat_map {A B : Type} (f f' : A -> list B) (l : list A) :
  (forall x, x ∈ l -> f x ≡ₚ f' x) -> concat (map f l) ≡ₚ concat (map f' l).
Proof.
  induction l as [|x l IH]; intros Hf; cbn; [done|].
  rewrite Hf by left. rewrite IH; [done|].
  intros y Hy. apply Hf. by right.
Qed.

Lemma Permutation_list_filter {A : Type} (f : A -> bool) (l1 l2 : list A) :
  l1 ≡ₚ l2 -> List.filter f l1 ≡ₚ List.filter f l2.
Proof.
  induction 1 as [|x l1 l2 _ IH|x y l|l1 l2 l3 _ IH1 _ IH2]; cbn.
  - done.
  - destruct (f x); by rewrite IH.
  - destruct (f x), (f y); try done. apply perm_swap.
  - by rewrite IH1.
Qed.

Lemma list_filter_map {A B : Type} (f : B -> bool) (h : A -> B) (l : list A) :
  List.filter f (map h l) = map h (List.filter (fun x => f (h x)) l).
Proof.
  induction l as [|x l IH]; cbn; [done|].
  destruct (f (h x)); cbn; by rewrite IH.
Qed.

Lemma NoDup_list_filter {A : Type} (f : A -> bool) (l : list A) :
  NoDup l -> NoDup (List.filter f l).
Proof.
  induction 1 as [|x l Hx _ IH]; cbn; [constructor|].
  destruct (f x); [|done]. constructor; [|done].
  rewrite elem_of_filter_list. tauto.
Qed.

Lemma Symbol_in_spec (k : Symbol) (l : list Symbol) :
  Symbol_in k l = true <-> k ∈ l.
Proof.
  unfold Symbol_in. rewrite existsb_exists. split.
  - intros (x & Hx & E). apply Symbol_eqb_eq in E as ->.
    by apply list_elem_of_In.
  - intros Hk. exists k. split; [by apply list_elem_of_In|].
    apply Symbol_eqb_refl.
Qed.

Section TermProperties.
Context `{RT : Runtime}.

Lemma elem_of_all_t (g : Grammar) (x : Symbol) :
  x ∈ all_t g <->
  isinstance_T x = true /\ exists rule, rule ∈ rules g /\ x ∈ rhs rule.
Proof.
  unfold all_t. rewrite (iter_order_perm _ _), elem_of_remove_dups.
  rewrite elem_of_filter_list, list_elem_of_In, in_concat.
  split.
  - intros [(l & Hl & Hx) Ht]. split; [done|].
    apply in_map_iff in Hl as (rule & <- & Hr).
    exists rule. by rewrite !list_elem_of_In.
  - intros [Ht (rule & Hr & Hx)]. split; [|done].
    exists (rhs rule). rewrite <- !list_elem_of_In. split; [|done].
    apply list_elem_of_fmap. eauto.
Qed.

Lemma NoDup_all_t (g : Grammar) : NoDup (all_t g).
Proof.
  unfold all_t. rewrite (iter_order_perm _ _). apply NoDup_remove_dups.
Qed.

Lemma t_rules_lookup (g : Grammar) (x : Symbol) :
  x ∈ all_t g -> t_rules g !! x = Some (term_unit_rule x).
Proof.
  unfold t_rules. induction (all_t g) as [|y l IH]; cbn.
  - by intros ?%elem_of_nil.
  - destruct (decide (y = x)) as [->|Hne].
    + by rewrite lookup_insert_eq.
    + rewrite lookup_insert_ne by done. intros [?|?]%elem_of_cons; [by subst|auto].
Qed.

Lemma t_rules_items (g : Grammar) :
  map_to_list (t_rules g) ≡ₚ map (fun t => (t, term_unit_rule t)) (all_t g).
Proof.
  unfold t_rules. apply map_to_list_to_map.
  assert (Hfst : forall l : list Symbol,
             (map (fun t => (t, term_unit_rule t)) l).*1 = l).
  { induction l as [|y l IH]; cbn; [done|]. by rewrite IH. }
  rewrite Hfst. apply NoDup_all_t.
Qed.

Lemma Term_rule_new_rhs (g : Grammar) (rule : Rule) :
  rule ∈ rules g ->
  map_result
    (fun x => if isinstance_T x
              then r <- getitem (t_rules g) x ;; ret (lhs r)
              else ret x) (rhs rule) = ret (map term_nt (rhs rule)).
Proof.
  intros Hr.
  assert (Hall : Forall (fun x => isinstance_T x = true -> x ∈ all_t g)
                        (rhs rule)).
  { apply Forall_forall. intros x Hx Ht. apply elem_of_all_t. eauto. }
  induction Hall as [|x l Hx _ IH]; cbn; [done|].
  destruct x as [t|b]; cbn.
  - rewrite IH. unfold getitem. by rewrite t_rules_lookup by auto.
  - by rewrite IH.
Qed.

Lemma Term_rule_image (g : Grammar) (rule : Rule) :
  rule ∈ rules g ->
  exists out, Term_rule (t_rules g) rule = ret out /\ out ≡ₚ Term_image rule.
Proof.
  intros Hr. unfold Term_rule, Term_image, term_rewrites.
  destruct (_ && _); [|eauto].
  rewrite Term_rule_new_rhs by done. cbn. eexists. split; [done|].
  constructor.
  rewrite (Permutation_list_filter _ _ _ (iter_order_perm _ _)).
  rewrite (Permutation_list_filter _ _ _ (t_rules_items g)).
  rewrite list_filter_map. cbn. rewrite map_map. cbn.
  apply Permutation_map, NoDup_Permutation.
  - apply NoDup_list_filter, NoDup_all_t.
  - apply NoDup_remove_dups.
  - intros x. rewrite elem_of_filter_list, Symbol_in_spec, elem_of_all_t.
    rewrite elem_of_remove_dups, elem_of_filter_list. split.
    + intros [[Ht _] Hx]. done.
    + intros [Hx Ht]. eauto.
Qed.

Lemma Term_total (g : Grammar) :
  exists g', Term g = ret g' /\ rules g' ≡ₚ concat (map Term_image (rules g)).
Proof.
  unfold Term.
  set (f' rule := match Term_rule (t_rules g) rule with
                  | inr out => out | inl _ => [] end).
  rewrite (extend_each_total _ f').
  - cbn [bind ret]. eexists. split; [done|].
    unfold Grammar_init. cbn [rules]. rewrite sorted_Permutation.
    apply Permutation_concat_map. intros rule Hr. unfold f'.
    by destruct (Term_rule_image g rule Hr) as (out & -> & Hp).
  - intros rule Hr. unfold f'.
    by destruct (Term_rule_image g rule Hr) as (out & -> & Hp).
Qed.

End TermProperties.

(** C5, as stated, fails: with two rewritten rules that contain the
    terminal [a], the unit rule [__T_a -> a] is in the result twice. *)
Lemma Term_unit_rule_twice_counterexample :
  exists g',
    Term (RT := PyRe.runtime)
         (Grammar_init [mkRule "S" [T "a"; NT "A"] 0 "s";
                        mkRule "R" [T "a"; NT "B"] 0 "r"]) = ret g' /\
    rules g' = [mkRule "R" [NT "__T_a"; NT "B"] 0 "r";
                mkRule "S" [NT "__T_a"; NT "A"] 0 "s";
                mkRule "__T_a" [T "a"] 0 "Term";
                mkRule "__T_a" [T "a"] 0 "Term"] /\
    length (List.filter (Rule_eqb (mkRule "__T_a" [T "a"] 0 "Term"))
                        (rules g')) = 2%nat.
Proof. eexists. split; [by vm_compute|]. split; by vm_compute. Qed.

(** C5 (amended): [Term(g)] returns a grammar whose rules are, up to their
    order, the rules [Term_image rule] for the rules of [g]: a rule whose
    rhs is longer than 1 and contains a terminal is replaced by the rule
    with each terminal occurrence replaced by the non-terminal
    [__T_<terminal>], followed by the unit rule [__T_<terminal> ->
    <terminal>] (weight 0, alias "Term") once for each distinct terminal
    of that rule, so the unit rule of a terminal is added once for each
    rewritten rule that contains the terminal; every other rule, in
    particular every rule whose rhs has length 1, is kept unchanged. *)
Theorem Term_spec `{RT : Runtime} (g : Grammar) :
  exists g',
    Term g = ret g' /\
    rules g' ≡ₚ concat (map Term_image (rules g)) /\
    (forall rule, rule ∈ rules g -> term_rewrites rule = true ->
       Term_image rule =
         mkRule (lhs_s rule) (map term_nt (rhs rule)) (weight rule)
                (alias rule) ::
         map term_unit_rule
             (remove_dups (List.filter isinstance_T (rhs rule))) /\
       mkRule (lhs_s rule) (map term_nt (rhs rule)) (weight rule)
              (alias rule) ∈ rules g' /\
       forall t, T t ∈ rhs rule ->
                 mkRule ("__T_" +:+ t) [T t] 0 "Term" ∈ rules g') /\
    (forall rule, rule ∈ rules g -> length (rhs rule) = 1%nat ->
       Term_image rule = [rule] /\ rule ∈ rules g').
Proof.
  destruct (Term_total g) as (g' & Hg' & Hperm).
  exists g'. split; [done|]. split; [done|].
  assert (Hin : forall rule r, rule ∈ rules g -> r ∈ Term_image rule ->
                               r ∈ rules g').
  { intros rule r Hrule Hr. rewrite Hperm.
    apply list_elem_of_In, in_concat. exists (Term_image rule).
    rewrite <- !list_elem_of_In. split; [|done].
    apply list_elem_of_fmap. eauto. }
  split.
  - intros rule Hrule Hrw.
    assert (Himg : Term_image rule =
              mkRule (lhs_s rule) (map term_nt (rhs rule)) (weight rule)
                     (alias rule) ::
              map term_unit_rule
                  (remove_dups (List.filter isinstance_T (rhs rule))))
      by (unfold Term_image; by rewrite Hrw).
    split; [done|]. split.
    + apply (Hin rule); [done|]. rewrite Himg. left.
    + intros t Ht. apply (Hin rule); [done|]. rewrite Himg. right.
      apply list_elem_of_fmap. exists (T t). split; [done|].
      apply elem_of_remove_dups, elem_of_filter_list. done.
  - intros rule Hrule Hlen.
    assert (Himg : Term_image rule = [rule]).
    { unfold Term_image, term_rewrites. rewrite Hlen.
      by rewrite bool_decide_eq_false_2 by lia. }
    split; [done|]. apply (Hin rule); [done|]. rewrite Himg. left.
Qed.

(** ** Terminal matching *)

Module PyReFacts.
Import PyRe.

Lemma star_loop_sound (g : bool) (a : regex) body k :
  (forall s k x,
     body s k = Some x ->
     exists s1 s2, s = s1 ++ s2 /\ matches a s1 /\ k s2 = Some x) ->
  forall n s x,
    star_loop g body k n s = Some x ->
    exists s1 s2, s = s1 ++ s2 /\ matches (Star g a) s1 /\ k s2 = Some x.
Proof.
  intros Hbody. induction n as [|n IHn]; intros s x; cbn [star_loop].
  - intros Hk. exists [], s. repeat split; [constructor|done].
  - assert (Hagain :
      body s (fun s' => if (length s' <? length s)%nat
                        then star_loop g body k n s' else None) = Some x ->
      exists s1 s2, s = s1 ++ s2 /\ matches (Star g a) s1 /\ k s2 = Some x).
    { intros H. apply Hbody in H as (s1 & s2 & -> & Ha & H).
      destruct (_ <? _)%nat; [|done].
      apply IHn in H as (s3 & s4 & -> & Hs & H).
      exists (s1 ++ s3), s4. rewrite app_assoc.
      repeat split; [by constructor|done]. }
    cbn zeta. destruct g.
    + destruct (body s _) as [y|] eqn:Ea.
      * intros [= ->]. by apply Hagain.
      * intros Hk. exists [], s. repeat split; [constructor|done].
    + destruct (k s) as [y|] eqn:Ek.
      * intros [= ->]. exists [], s. repeat split; [constructor|done].
      * apply Hagain.
Qed.

Lemma bt_sound (r : regex) :
  forall s k x,
    bt r s k = Some x ->
    exists s1 s2, s = s1 ++ s2 /\ matches r s1 /\ k s2 = Some x.
Proof.
  induction r as [|c| |a IHa b IHb|a IHa b IHb|g a IHa]; intros s k x;
    cbn [bt].
  - intros Hk. exists [], s. repeat split; [constructor|done].
  - destruct s as [|c' s']; [done|].
    destruct (Ascii.eqb_spec c c') as [->|]; [|done].
    intros Hk. exists [c'], s'. repeat split; [constructor|done].
  - destruct s as [|c' s']; [done|].
    destruct (Ascii.eqb_spec c' "010") as [->|Hne]; [done|].
    intros Hk. exists [c'], s'. repeat split; [by constructor|done].
  - intros H. apply IHa in H as (s1 & s2 & -> & Ha & H).
    apply IHb in H as (s3 & s4 & -> & Hb & H).
    exists (s1 ++ s3), s4. rewrite app_assoc. repeat split; [by constructor|done].
  - destruct (bt a s k) as [y|] eqn:Ea.
    + intros [= ->]. apply IHa in Ea as (s1 & s2 & -> & Ha & H).
      exists s1, s2. repeat split; [by constructor|done].
    + intros H. apply IHb in H as (s1 & s2 & -> & Hb & H).
      exists s1, s2. repeat split; [by apply matches_Alt_r|done].
  - apply star_loop_sound, IHa.
Qed.

Lemma length_string_of_list_ascii (l : list ascii) :
  String.length (string_of_list_ascii l) = length l.
Proof. induction l as [|c l IH]; cbn; by rewrite ?IH. Qed.

Lemma length_list_ascii_of_string (s : string) :
  length (list_ascii_of_string s) = String.length s.
Proof. induction s as [|c s IH]; cbn; by rewrite ?IH. Qed.

Lemma match_whole_sound (r : regex) (s group0 : string) :
  match_ r s = Some group0 ->
  String.length group0 = String.length s ->
  matches r (list_ascii_of_string s).
Proof.
  unfold match_. destruct (bt r _ _) as [rest|] eqn:E; [|done].
  intros [= <-]. rewrite length_string_of_list_ascii, length_take.
  rewrite <- length_list_ascii_of_string.
  apply bt_sound in E as (s1 & s2 & Hs & Hm & [= ->]).
  rewrite Hs in *. rewrite length_app. intros Hlen.
  assert (rest = []) as -> by (apply length_zero_iff_nil; lia).
  by rewrite app_nil_r.
Qed.

End PyReFacts.

(** C4 does not hold of the code.  [T.match] accepts only strings that the
    pattern matches in their entirety (first part), but it rejects some of
    them: the pattern [a|ab] matches the whole of [ab], while
    [regexp.match] returns the match of the first alternative, [a], whose
    length differs from that of [ab], so [T.match] returns false. *)
Theorem T_match_not_full_match :
  (forall p r s,
     PyRe.compile p = PyRe.Compiled r ->
     T_match (RT := PyRe.runtime) (T p) s = true ->
     PyRe.matches r (list_ascii_of_string s)) /\
  (exists r,
     PyRe.compile "a|ab" = PyRe.Compiled r /\
     PyRe.matches r (list_ascii_of_string "ab") /\
     re_match (Runtime := PyRe.runtime) r "ab" = Some "a" /\
     T_match (RT := PyRe.runtime) (T "a|ab") "ab" = false).
Proof.
  split.
  - intros p r s Hp. unfold T_match. cbn [re_compile PyRe.runtime Symbol_str].
    rewrite Hp. cbn [re_match PyRe.runtime].
    destruct (PyRe.match_ r s) as [group0|] eqn:E; [|done].
    intros Hlen%Nat.eqb_eq. by apply (PyReFacts.match_whole_sound r s group0).
  - eexists. split; [by vm_compute|]. split; [|by vm_compute].
    apply PyRe.matches_Alt_r.
    apply (PyRe.matches_Cat _ _ ["a"%char] ["b"%char]); [constructor|].
    apply (PyRe.matches_Cat _ _ ["b"%char] []); constructor.
Qed.

(** ** Which errors [parse] can raise *)

Lemma bind_not_raise {A B : Type} (m : result A) (k : A -> result B) (e : exn) :
  m <> raise e -> (forall a, k a <> raise e) -> bind m k <> raise e.
Proof.
  intros Hm Hk. destruct m as [e'|a]; cbn; [|apply Hk].
  intros [= ->]. by apply Hm.
Qed.

Lemma for_each_not_raise {A S : Type} (body : A -> S -> result S)
    (l : list A) (e : exn) :
  (forall x st, body x st <> raise e) ->
  forall st, for_each l body st <> raise e.
Proof.
  intros Hbody. induction l as [|x l IH]; intros st; cbn; [done|].
  by apply bind_not_raise.
Qed.

Lemma getitem_not_ParseError `{Countable K} {A : Type} (d : gmap K A) (k : K) :
  getitem d k <> raise ParseError.
Proof. unfold getitem. by destruct (d !! k). Qed.

Lemma index_not_ParseError {A : Type} (l : list A) (i : nat) :
  index l i <> raise ParseError.
Proof. unfold index. by destruct (l !! i). Qed.

Lemma _Parse_not_ParseError `{RT : Runtime} (s : list string) (g : CnfWrapper) :
  _Parse s g <> raise ParseError.
Proof.
  unfold _Parse. apply bind_not_raise.
  - apply for_each_not_raise. intros [i w] st. unfold base_token.
    apply for_each_not_raise. intros [terminal rs] st1. unfold base_terminal.
    destruct (T_match terminal w); [|done].
    apply for_each_not_raise. intros rule [table trees]. unfold base_rule.
    destruct (lighter _ _ _); [|done].
    unfold T_init. by destruct (re_compile w).
  - intros st. apply for_each_not_raise. intros l st1. unfold span_length.
    apply for_each_not_raise. intros i st2. unfold span_start.
    apply for_each_not_raise. intros p st3. unfold span_split.
    apply for_each_not_raise. intros [r1 r2] st4. unfold span_pair.
    apply for_each_not_raise. intros rule [table trees]. unfold span_rule.
    apply bind_not_raise; [apply getitem_not_ParseError|]. intros n1.
    apply bind_not_raise; [apply getitem_not_ParseError|]. intros n2.
    by destruct (lighter _ _ _).
Qed.

(** Induction on parse trees, with the hypothesis for every child node. *)
Lemma RuleNode_nested_ind (P : RuleNode -> Prop) :
  (forall rule children w,
     Forall (fun c => match c with inl _ => True | inr n => P n end) children ->
     P (mkRuleNode rule children w)) ->
  forall n, P n.
Proof.
  intros Hnode. fix IH 1. intros [rule children w]. apply Hnode.
  induction children as [|[t|n] children IHc]; constructor;
    [done|apply IHc|apply IH|apply IHc].
Qed.

Lemma RevertCnf_node_not_ParseError (node : RuleNode) :
  RevertCnf_node node <> raise ParseError.
Proof.
  induction node as [rule children w IH] using RuleNode_nested_ind.
  cbn [RevertCnf_node].
  destruct (String.prefix "__T_" (lhs_s rule)); [apply index_not_ParseError|].
  apply bind_not_raise.
  - induction IH as [|[t|n] children Hc _ IHc].
    + done.
    + apply bind_not_raise; [apply IHc|done].
    + apply bind_not_raise; [apply Hc|]. intros c.
      apply bind_not_raise; [apply IHc|done].
  - intros reverted. by destruct (isinstance_UnitSkipRule rule).
Qed.

Lemma _ToTree_node_not_ParseError (orig : gmap string LarkRule)
    (node : RuleNode) :
  _ToTree_node orig node <> raise ParseError.
Proof.
  induction node as [rule children w IH] using RuleNode_nested_ind.
  cbn [_ToTree_node].
  apply bind_not_raise; [apply getitem_not_ParseError|]. intros orig_rule.
  apply bind_not_raise; [|done].
  generalize 0%nat.
  induction IH as [|[t|n] children Hc _ IHc]; intros i.
  - done.
  - apply bind_not_raise; [apply index_not_ParseError|]. intros e.
    apply bind_not_raise; [apply IHc|done].
  - apply bind_not_raise; [apply Hc|]. intros t.
    apply bind_not_raise; [apply IHc|done].
Qed.

(** [parse] raises [ParseError] exactly when [_Parse] returns and no rule
    of the full-span cell has the start symbol as its lhs. *)
Lemma parse_ParseError_iff `{RT : Runtime} (self : Parser)
    (tokenized : list string) :
  parse self tokenized = raise ParseError <->
  exists table trees,
    _Parse tokenized (parser_grammar self) = ret (table, trees) /\
    forall r, r ∈ table !!! (0, Z.of_nat (length tokenized) - 1) ->
              lhs r <> start self.
Proof.
  unfold parse.
  assert (Hno : forall table : table_t,
    no_start_rule self table (Z.of_nat (length tokenized)) = true <->
    forall r, r ∈ table !!! (0, Z.of_nat (length tokenized) - 1) ->
              lhs r <> start self).
  { intros table. unfold no_start_rule. rewrite forallb_forall. split.
    - intros Hall r Hr. apply Symbol_eqb_neq.
      specialize (Hall r). unfold Symbol_neb in Hall.
      apply negb_true_iff, Hall, list_elem_of_In.
      by rewrite (iter_order_perm _ _).
    - intros Hall r Hr. apply list_elem_of_In in Hr.
      rewrite (iter_order_perm _ _) in Hr. unfold Symbol_neb.
      apply negb_true_iff, Symbol_eqb_neq. by apply Hall. }
  destruct (_Parse tokenized (parser_grammar self)) as [e|[table trees]] eqn:E.
  - cbn. split.
    + intros [= ->]. by destruct (_Parse_not_ParseError tokenized
                                    (parser_grammar self)).
    + by intros (? & ? & [=] & _).
  - cbn [bind].
    destruct (no_start_rule self table _) eqn:Ens.
    + split; [|done]. intros _. exists table, trees. split; [done|].
      by apply Hno.
    + split.
      * intros Hraise. exfalso. revert Hraise.
        apply bind_not_raise; [apply getitem_not_ParseError|]. intros node.
        apply bind_not_raise; [apply RevertCnf_node_not_ParseError|].
        intros [t|n]; cbn; [done|apply _ToTree_node_not_ParseError].
      * intros (table' & trees' & [= <- <-] & Hall).
        apply Hno in Hall. congruence.
Qed.

(** ** Acceptance and reversal on sample inputs *)

Lemma parse_plus_run :
  match Parser_init (RT := PyRe.runtime) 0 plus_rules "S" with
  | Some (inr P) =>
      _Parse (RT := PyRe.runtime) ["+"] (parser_grammar P) = raise ReError /\
      parse (RT := PyRe.runtime) P ["+"] = raise ReError
  | _ => False
  end.
Proof. vm_compute. split; reflexivity. Qed.

Lemma parse_collision_t_run :
  match Parser_init (RT := PyRe.runtime) 0 collision_rules_t "S" with
  | Some (inr P) =>
      match _Parse (RT := PyRe.runtime) ["x"; "b"; "c"; "d"]
                   (parser_grammar P) with
      | inr (table, trees) =>
          table !!! (0, 3) =
            [mkRule "S" [NT "A_B"; NT "__SP_S__A_B_C___T_d_1"] 0 "r2"] /\
          start P = NT "S" /\
          parse (RT := PyRe.runtime) P ["x"; "b"; "c"; "d"] = raise IndexError
      | _ => False
      end
  | _ => False
  end.
Proof. vm_compute. repeat split; reflexivity. Qed.

Lemma parse_collision_run :
  match Parser_init (RT := PyRe.runtime) 0 collision_rules "S" with
  | Some (inr P) =>
      match _Parse (RT := PyRe.runtime) ["a"; "c"; "d"] (parser_grammar P) with
      | inr (table, trees) =>
          no_start_rule (RT := PyRe.runtime) P table 3 = false /\
          match (trees !!! (0, 2)) !! NT "S" with
          | Some node =>
              match RevertCnf (inr node) with
              | inr (inr reverted) =>
                  cnf_artifact (node_rule reverted) = false /\
                  alias (node_rule reverted) = "r1" /\
                  length (node_children reverted) = 3%nat /\
                  match parse (RT := PyRe.runtime) P ["a"; "c"; "d"] with
                  | inr _ => True
                  | inl _ => False
                  end
              | _ => False
              end
          | None => False
          end
      | _ => False
      end
  | _ => False
  end.
Proof. vm_compute. repeat split. Qed.

(** C1 does not hold of the code.  [parse] raises [ParseError] exactly
    when [_Parse] returns and the full-span cell has no rule for the start
    symbol, but in the other cases it need not return a tree.  A parser for
    [S -> PLUS], with the pattern [\+], is constructed; on the token [+]
    the terminal matches, and [_Parse] builds the leaf [T(w)], whose
    constructor compiles the token text as a pattern: [parse] neither
    returns a tree nor raises [ParseError].  In the second input the
    full-span cell contains a rule for the start symbol, and [parse]
    raises [IndexError] in [_ToTree]. *)
Theorem parse_neither_tree_nor_ParseError :
  (forall (RT : Runtime) (self : Parser) (tokenized : list string),
     parse self tokenized = raise ParseError <->
     exists table trees,
       _Parse tokenized (parser_grammar self) = ret (table, trees) /\
       forall r, r ∈ table !!! (0, Z.of_nat (length tokenized) - 1) ->
                 lhs r <> start self) /\
  (exists P,
     Parser_init (RT := PyRe.runtime) 0 plus_rules "S" = Some (ret P) /\
     T_match (RT := PyRe.runtime) (T "\+") "+" = true /\
     _Parse (RT := PyRe.runtime) ["+"] (parser_grammar P) = raise ReError /\
     parse (RT := PyRe.runtime) P ["+"] = raise ReError) /\
  (exists P table trees,
     Parser_init (RT := PyRe.runtime) 0 collision_rules_t "S" = Some (ret P) /\
     _Parse (RT := PyRe.runtime) ["x"; "b"; "c"; "d"] (parser_grammar P) =
       ret (table, trees) /\
     (exists r, r ∈ table !!! (0, 3) /\ lhs r = start P) /\
     no_start_rule (RT := PyRe.runtime) P table 4 = false /\
     parse (RT := PyRe.runtime) P ["x"; "b"; "c"; "d"] = raise IndexError).
Proof.
  split; [intros RT self tokenized; apply parse_ParseError_iff|].
  split.
  - pose proof parse_plus_run as Hrun.
    destruct (Parser_init _ _ _) as [[e|P]|]; try done.
    destruct Hrun as [H1 H2]. exists P. repeat split; try done.
  - pose proof parse_collision_t_run as Hrun.
    destruct (Parser_init _ _ _) as [[e|P]|]; try done.
    destruct (_Parse _ _) as [e|[table trees]] eqn:Eparse; try done.
    destruct Hrun as (Hcell & Hstart & Hparse).
    exists P, table, trees. repeat split; try done.
    + eexists. rewrite Hcell, Hstart. split; [left|done].
    + unfold no_start_rule. cbn [iter_order PyRe.runtime].
      change (4 - 1) with 3. by rewrite Hcell, Hstart.
Qed.

(** C3 does not hold of the code.  For [collision_rules] the parse of
    [a c d] is accepted, and the tree returned by [RevertCnf] has a root
    with the alias [r1] of the rule [S -> A B C D] and three children:
    the chain of [S -> A B C D] ends in the fragment
    [__SP_S__A_B_C_D_1 -> C D] that [Split] made for [S -> A_B C D]. *)
Theorem RevertCnf_arity_mismatch :
  exists P table trees node reverted,
    Parser_init (RT := PyRe.runtime) 0 collision_rules "S" = Some (ret P) /\
    _Parse (RT := PyRe.runtime) ["a"; "c"; "d"] (parser_grammar P) =
      ret (table, trees) /\
    no_start_rule (RT := PyRe.runtime) P table 3 = false /\
    (trees !!! (0, 2)) !! NT "S" = Some node /\
    RevertCnf (inr node) = ret (inr reverted) /\
    cnf_artifact (node_rule reverted) = false /\
    alias (node_rule reverted) = "r1" /\
    length (node_children reverted) = 3%nat /\
    (forall r, r ∈ collision_rules -> lark_alias r = "r1" ->
               length (expansion r) = 4%nat) /\
    (exists t, parse (RT := PyRe.runtime) P ["a"; "c"; "d"] = ret t).
Proof.
  pose proof parse_collision_run as Hrun.
  destruct (Parser_init _ _ _) as [[e|P]|]; try done.
  destruct (_Parse _ _) as [e|[table trees]] eqn:Eparse; try done.
  destruct Hrun as [Hacc Hrun].
  destruct ((trees !!! (0, 2)) !! NT "S") as [node|] eqn:Enode; try done.
  destruct (RevertCnf (inr node)) as [e|[t|reverted]] eqn:Erev; try done.
  destruct Hrun as (Hart & Halias & Hlen & Hparse).
  exists P, table, trees, node, reverted. repeat split; try done.
  - intros r Hr Ha. unfold collision_rules in Hr.
    repeat (apply elem_of_cons in Hr as [->|Hr]; [by (done || discriminate)|]).
    by apply elem_of_nil in Hr.
  - destruct (parse P _) as [e|t]; [done|]. by exists t.
Qed.

(** ** The table builder: loops and indexes *)

(** A loop that maintains an invariant of the elements processed so far
    runs to its end. *)
Lemma for_each_prefix {A S : Type} (body : A -> S -> result S)
    (I : list A -> S -> Prop) (l : list A) (st : S) :
  I [] st ->
  (forall pre x post st,
     l = pre ++ x :: post -> I pre st ->
     exists st', body x st = ret st' /\ I (pre ++ [x]) st') ->
  exists st', for_each l body st = ret st' /\ I l st'.
Proof.
  intros H0 Hstep.
  assert (Hgen : forall post pre st,
             l = pre ++ post -> I pre st ->
             exists st', for_each post body st = ret st' /\ I l st').
  { induction post as [|x post IH]; intros pre st0 El Hpre; cbn.
    - rewrite app_nil_r in El. subst. eauto.
    - destruct (Hstep pre x post st0 El Hpre) as (st1 & -> & H1). cbn.
      apply (IH (pre ++ [x])); [|done]. by rewrite <- app_assoc. }
  by apply (Hgen l []).
Qed.

(** The same for a loop that is known to have run to its end. *)
Lemma for_each_prefix_ret {A S : Type} (body : A -> S -> result S)
    (I : list A -> S -> Prop) (l : list A) (st st_end : S) :
  for_each l body st = ret st_end ->
  I [] st ->
  (forall pre x post st st',
     l = pre ++ x :: post -> I pre st -> body x st = ret st' ->
     I (pre ++ [x]) st') ->
  I l st_end.
Proof.
  intros Hrun H0 Hstep.
  assert (Hgen : forall post pre st,
             l = pre ++ post -> I pre st ->
             for_each post body st = ret st_end -> I l st_end).
  { induction post as [|x post IH]; intros pre st0 El Hpre; cbn.
    - rewrite app_nil_r in El. intros [= <-]. by subst.
    - destruct (body x st0) as [e|st1] eqn:Eb; [done|]. cbn.
      apply (IH (pre ++ [x])); [by rewrite <- app_assoc|].
      by apply (Hstep pre x post st0 st1). }
  by apply (Hgen l [] st).
Qed.

Lemma lookup_total_default `{Countable K} {A : Type} `{Inhabited A}
    (m : gmap K A) (k : K) :
  m !!! k = default inhabitant (m !! k).
Proof. apply lookup_total_alt. Qed.

(** The indexes of a wrapper hold the rules of the grammar by rhs. *)
Lemma CnfWrapper_init_indexes (gr : Grammar) (g : CnfWrapper) :
  CnfWrapper_init gr = ret g ->
  grammar g = gr /\
  (forall x r, r ∈ terminal_rules g !!! x <->
               r ∈ rules gr /\ rhs r = [x] /\ isinstance_T x = true) /\
  (forall x y r, r ∈ nonterminal_rules g !!! (x, y) <->
                 r ∈ rules gr /\ rhs r = [x; y] /\
                 isinstance_NT x = true /\ isinstance_NT y = true).
Proof.
  unfold CnfWrapper_init.
  destruct (for_each _ _ _) as [e|[tr ntr]] eqn:Eloop; [done|].
  cbn. intros [= <-]. cbn. split; [done|].
  apply (for_each_prefix_ret _
    (fun pre st =>
       (forall x r, r ∈ st.1 !!! x <->
                    r ∈ pre /\ rhs r = [x] /\ isinstance_T x = true) /\
       (forall x y r, r ∈ st.2 !!! (x, y) <->
                      r ∈ pre /\ rhs r = [x; y] /\
                      isinstance_NT x = true /\ isinstance_NT y = true)))
    in Eloop; [done| |].
  - cbn. split; intros; rewrite lookup_total_empty;
      split; [by intros ?%elem_of_nil|by intros [?%elem_of_nil _]
             |by intros ?%elem_of_nil|by intros [?%elem_of_nil _]].
  - clear. intros pre r post [tr ntr] st' _ [Ht Hn] Hstep.
    unfold CnfWrapper_step in Hstep. cbn in Hstep.
    destruct (rhs r) as [|x [|y [|z l]]] eqn:Er; cbn in Hstep; try done.
    + destruct x as [t|b]; cbn in Hstep; [|done]. injection Hstep as <-.
      cbn [fst snd]. split.
      * intros x r'. rewrite lookup_total_insert.
        destruct (decide (T t = x)) as [<-|Hne].
        -- rewrite !elem_of_app, Ht, list_elem_of_singleton.
           split; [intros [?| ->]|intros [[?| ->] ?]]; intuition (subst; eauto; congruence).
        -- rewrite Ht, elem_of_app, list_elem_of_singleton.
           split; [intuition (subst; eauto; congruence)|]. intros [[?| ->] (? & ?)]; [done|].
           congruence.
      * intros x y r'. rewrite Hn, elem_of_app, list_elem_of_singleton.
        split; [intuition (subst; eauto; congruence)|]. intros [[?| ->] (? & ?)]; [done|].
        congruence.
    + destruct x as [t|a], y as [t'|b]; cbn in Hstep; try done.
      injection Hstep as <-. cbn [fst snd]. split.
      * intros x r'. rewrite Ht, elem_of_app, list_elem_of_singleton.
        split; [intuition (subst; eauto; congruence)|]. intros [[?| ->] (? & ?)]; [done|].
        congruence.
      * intros x y r'. rewrite lookup_total_insert.
        destruct (decide ((NT a, NT b) = (x, y))) as [[= <- <-]|Hne].
        -- rewrite !elem_of_app, Hn, list_elem_of_singleton.
           split; [intros [?| ->]|intros [[?| ->] ?]]; intuition (subst; eauto; congruence).
        -- rewrite Hn, elem_of_app, list_elem_of_singleton.
           split; [intuition (subst; eauto; congruence)|]. intros [[?| ->] (? & ?)]; [done|].
           destruct Hne. congruence.
Qed.

(** ** The table builder: one update *)

Lemma Rule_eqb_lhs (x r : Rule) : Rule_eqb x r = true -> lhs x = lhs r.
Proof.
  intros E%Rule_eqb_erase. unfold lhs. by destruct x, r; simplify_eq/=.
Qed.

Lemma elem_of_set_add_mono (r r' : Rule) (l : list Rule) :
  r' ∈ l -> r' ∈ set_add r l.
Proof.
  unfold set_add. destruct (existsb _ _); [done|].
  intros ?. apply elem_of_app. by left.
Qed.

Lemma elem_of_set_add_inv (r r' : Rule) (l : list Rule) :
  r' ∈ set_add r l -> r' ∈ l \/ r' = r.
Proof.
  unfold set_add. destruct (existsb _ _); [by left|].
  rewrite elem_of_app, list_elem_of_singleton. tauto.
Qed.

Lemma set_add_lhs (r : Rule) (l : list Rule) :
  exists x, x ∈ set_add r l /\ lhs x = lhs r.
Proof.
  unfold set_add. destruct (existsb _ _) eqn:E.
  - apply existsb_exists in E as (x & Hx & E).
    exists x. split; [by apply list_elem_of_In|by apply Rule_eqb_lhs].
  - exists r. split; [|done]. apply elem_of_app. right. left.
Qed.

Lemma progress_refl (st : table_t * trees_t) : progress st st.
Proof. by split. Qed.

Lemma progress_trans (st1 st2 st3 : table_t * trees_t) :
  progress st1 st2 -> progress st2 st3 -> progress st1 st3.
Proof. intros [H1 H2] [H3 H4]. split; eauto. Qed.

Lemma covered_le (trees : trees_t) span X c c' :
  covered trees span X c -> c <= c' -> covered trees span X c'.
Proof. intros (node & Hn & Hw) Hc. exists node. split; [done|lia]. Qed.

Section Store.
Context `{RT : Runtime} (rs : list Rule) (s : list string).

Lemma store_spec (i j : Z) (rule : Rule) (node : RuleNode)
    (st : table_t * trees_t) :
  sound rs s st ->
  node_derivation rs s i j node ->
  node_rule node = rule ->
  sound rs s (store (i, j) rule node st) /\
  progress st (store (i, j) rule node st) /\
  covered (store (i, j) rule node st).2 (i, j) (lhs rule) (node_weight node).
Proof.
  intros Hsound Hnode Hrule. destruct st as [table trees].
  unfold store, lighter. cbn [fst snd].
  destruct (Hsound i j) as [Htab Htree]. cbn [fst snd] in Htab, Htree.
  destruct ((trees !!! (i, j)) !! lhs rule) as [old|] eqn:Eold.
  - destruct (Z.ltb_spec (node_weight node) (node_weight old)) as [Hlt|Hge].
    + (* the new tree replaces a heavier one *)
      split; [|split].
      * intros i' j'. cbn [fst snd].
        destruct (decide ((i, j) = (i', j'))) as [[= <- <-]|Hne].
        -- rewrite !lookup_total_insert_eq. split.
           ++ intros r Hr. destruct (decide (lhs rule = lhs r)) as [E|E].
              ** rewrite <- E, lookup_insert_eq. eauto.
              ** rewrite lookup_insert_ne by done.
                 apply elem_of_set_add_inv in Hr as [Hr| ->]; [auto|done].
           ++ intros X node'. destruct (decide (lhs rule = X)) as [<-|E].
              ** rewrite lookup_insert_eq. intros [= <-].
                 split; [done|]. split; [by rewrite Hrule|].
                 apply set_add_lhs.
              ** rewrite lookup_insert_ne by done. intros Hn.
                 destruct (Htree X node' Hn) as (? & ? & r & Hr & ?).
                 repeat split; try done. exists r.
                 split; [by apply elem_of_set_add_mono|done].
        -- rewrite !lookup_total_insert_ne by done. apply Hsound.
      * split; cbn [fst snd].
        -- intros span r Hr. destruct (decide ((i, j) = span)) as [<-|Hne].
           ++ rewrite lookup_total_insert_eq. by apply elem_of_set_add_mono.
           ++ by rewrite lookup_total_insert_ne.
        -- intros span X c (n & Hn & Hc). unfold covered.
           destruct (decide ((i, j) = span)) as [<-|Hne].
           ++ rewrite lookup_total_insert_eq.
              destruct (decide (lhs rule = X)) as [<-|E].
              ** rewrite lookup_insert_eq. exists node. split; [done|].
                 rewrite Eold in Hn. injection Hn as <-. lia.
              ** rewrite lookup_insert_ne by done. eauto.
           ++ rewrite lookup_total_insert_ne by done. eauto.
      * exists node. cbn [snd].
        rewrite lookup_total_insert_eq, lookup_insert_eq. split; [done|lia].
    + (* the stored tree is kept *)
      split; [|split].
      * intros i' j'. cbn [fst snd].
        destruct (decide ((i, j) = (i', j'))) as [[= <- <-]|Hne].
        -- rewrite lookup_total_insert_eq. split.
           ++ intros r Hr.
              apply elem_of_set_add_inv in Hr as [Hr| ->]; [auto|].
              rewrite Eold. eauto.
           ++ intros X node' Hn.
              destruct (Htree X node' Hn) as (? & ? & r & Hr & ?).
              repeat split; try done. exists r.
              split; [by apply elem_of_set_add_mono|done].
        -- rewrite lookup_total_insert_ne by done. apply Hsound.
      * split; cbn [fst snd]; [|done].
        intros span r Hr. destruct (decide ((i, j) = span)) as [<-|Hne].
        -- rewrite lookup_total_insert_eq. by apply elem_of_set_add_mono.
        -- by rewrite lookup_total_insert_ne.
      * exists old. cbn [snd]. split; [done|lia].
  - (* the cell had no tree for the lhs *)
    split; [|split].
    + intros i' j'. cbn [fst snd].
      destruct (decide ((i, j) = (i', j'))) as [[= <- <-]|Hne].
      * rewrite !lookup_total_insert_eq. split.
        -- intros r Hr. destruct (decide (lhs rule = lhs r)) as [E|E].
           ++ rewrite <- E, lookup_insert_eq. eauto.
           ++ rewrite lookup_insert_ne by done.
              apply elem_of_set_add_inv in Hr as [Hr| ->]; [auto|done].
        -- intros X node'. destruct (decide (lhs rule = X)) as [<-|E].
           ++ rewrite lookup_insert_eq. intros [= <-].
              split; [done|]. split; [by rewrite Hrule|].
              apply set_add_lhs.
           ++ rewrite lookup_insert_ne by done. intros Hn.
              destruct (Htree X node' Hn) as (? & ? & r & Hr & ?).
              repeat split; try done. exists r.
              split; [by apply elem_of_set_add_mono|done].
      * rewrite !lookup_total_insert_ne by done. apply Hsound.
    + split; cbn [fst snd].
      * intros span r Hr. destruct (decide ((i, j) = span)) as [<-|Hne].
        -- rewrite lookup_total_insert_eq. by apply elem_of_set_add_mono.
        -- by rewrite lookup_total_insert_ne.
      * intros span X c (n & Hn & Hc). unfold covered.
        destruct (decide ((i, j) = span)) as [<-|Hne].
        -- rewrite lookup_total_insert_eq.
           destruct (decide (lhs rule = X)) as [<-|E].
           ++ rewrite Eold in Hn. done.
           ++ rewrite lookup_insert_ne by done. eauto.
        -- rewrite lookup_total_insert_ne by done. eauto.
    + exists node. cbn [snd].
      rewrite lookup_total_insert_eq, lookup_insert_eq. split; [done|lia].
Qed.

End Store.

(** ** The table builder: the loops *)

Lemma runs_ret {S : Type} (C : Prop) (st : S) (Post : S -> Prop) :
  Post st -> runs C (ret st) Post.
Proof. intros HP. split; [by intros st' [= <-]|eauto]. Qed.

Lemma runs_weaken {S : Type} (C : Prop) (m : result S) (P Q : S -> Prop) :
  runs C m P -> (forall st, P st -> Q st) -> runs C m Q.
Proof. intros [H1 H2] HPQ. split; [|done]. intros st' E. auto. Qed.

Lemma runs_for_each {A S : Type} (C : Prop) (body : A -> S -> result S)
    (I : list A -> S -> Prop) (l : list A) (st : S) :
  I [] st ->
  (forall pre x post st,
     l = pre ++ x :: post -> I pre st -> runs C (body x st) (I (pre ++ [x]))) ->
  runs C (for_each l body st) (I l).
Proof.
  intros H0 Hstep. split.
  - intros st' Hrun.
    apply (for_each_prefix_ret body I l st st' Hrun H0).
    intros pre x post st1 st2 El Hpre Hb.
    by apply (Hstep pre x post st1 El Hpre).
  - intros HC.
    destruct (for_each_prefix body I l st H0) as (st' & Hrun & _); [|eauto].
    intros pre x post st1 El Hpre.
    destruct (Hstep pre x post st1 El Hpre) as [Hpost Hex].
    destruct (Hex HC) as [st2 Hst2]. eauto.
Qed.

Lemma elem_of_xrange (a b x : Z) : x ∈ xrange a b <-> a <= x < b.
Proof. unfold xrange. rewrite elem_of_seqZ. lia. Qed.

Lemma elem_of_enumerate {A : Type} (s : list A) (i : Z) (w : A) :
  (i, w) ∈ enumerate s <-> 0 <= i /\ s !! Z.to_nat i = Some w.
Proof.
  unfold enumerate. rewrite list_elem_of_lookup. split.
  - intros (k & Hk). apply lookup_zip_with_Some in Hk as (i' & w' & [= <- <-] & Hi & Hw).
    apply lookup_seqZ in Hi as [-> Hlt]. split; [lia|].
    by replace (Z.to_nat (0 + Z.of_nat k)) with k by lia.
  - intros [Hi Hw]. exists (Z.to_nat i).
    apply lookup_zip_with_Some. exists i, w. split; [done|]. split; [|done].
    apply lookup_seqZ. apply lookup_lt_Some in Hw. lia.
Qed.

Lemma seqZ_split (m len : Z) (pre post : list Z) (x : Z) :
  seqZ m len = pre ++ x :: post ->
  x = m + Z.of_nat (length pre) /\ forall y, m <= y < x -> y ∈ pre.
Proof.
  intros E.
  assert (Hx : seqZ m len !! length pre = Some x)
    by (rewrite E; by apply list_lookup_middle).
  apply lookup_seqZ in Hx as [-> Hlen]. split; [done|].
  intros y Hy.
  assert (Hy' : seqZ m len !! Z.to_nat (y - m) = Some y).
  { apply lookup_seqZ. lia. }
  rewrite E, lookup_app_l in Hy' by lia.
  by apply list_elem_of_lookup_2 in Hy'.
Qed.

Section Build.
Context `{RT : Runtime} (gr : Grammar) (g : CnfWrapper) (s : list string).
Hypothesis Hg : CnfWrapper_init gr = ret g.

Local Abbreviation rs := (rules gr).
Local Abbreviation C := (tokens_compile s).

Lemma derives_range i j X c :
  derives rs s i j X c -> 0 <= i <= j /\ j < Z.of_nat (length s).
Proof.
  induction 1 as [i w t rule Hi Hw _ _ _|i p j a b w1 w2 rule Hp _ _ _ IH1 _ IH2].
  - apply lookup_lt_Some in Hw. lia.
  - lia.
Qed.

Lemma node_derivation_derives i j n :
  node_derivation rs s i j n -> derives rs s i j (lhs (node_rule n)) (node_weight n).
Proof.
  induction 1 as [i w t rule|i p j n1 n2 rule Hp Hr Hrhs _ IH1 _ IH2]; cbn.
  - by apply (derives_terminal rs s i w t).
  - unfold lhs in Hrhs.
    by apply (derives_binary rs s i p j (lhs_s (node_rule n1))
                             (lhs_s (node_rule n2))).
Qed.

Lemma node_derivation_weight i j n :
  node_derivation rs s i j n ->
  node_weight n = weight (node_rule n) + children_weight (node_children n).
Proof. destruct 1; cbn; lia. Qed.

Lemma complete_progress st st' i j :
  progress st st' -> complete rs s st i j -> complete rs s st' i j.
Proof. intros [_ Hc] Hcomp X c Hd. apply Hc, Hcomp, Hd. Qed.

(** A loop whose iterations each establish a fact that later steps keep. *)
Lemma runs_loop {A : Type} (Q : A -> table_t * trees_t -> Prop)
    (body : A -> table_t * trees_t -> result (table_t * trees_t))
    (l : list A) (st0 : table_t * trees_t) :
  (forall x st st', progress st st' -> Q x st -> Q x st') ->
  (forall x st, x ∈ l -> sound rs s st -> progress st0 st ->
     runs C (body x st)
          (fun st' => sound rs s st' /\ progress st st' /\ Q x st')) ->
  sound rs s st0 ->
  runs C (for_each l body st0)
       (fun st' => sound rs s st' /\ progress st0 st' /\
                   forall x, x ∈ l -> Q x st').
Proof.
  intros Hstable Hbody Hs0.
  apply (runs_for_each C body
           (fun pre st' => sound rs s st' /\ progress st0 st' /\
                           forall x, x ∈ pre -> Q x st') l st0).
  - split; [done|]. split; [apply progress_refl|]. by intros x ?%elem_of_nil.
  - intros pre x post st El (Hs & Hp & HQ).
    assert (Hx : x ∈ l) by (rewrite El, elem_of_app; right; left).
    eapply runs_weaken; [apply (Hbody x st Hx Hs Hp)|].
    intros st' (Hs' & Hp' & HQ'). split; [done|].
    split; [by eapply progress_trans|].
    intros y [Hy| ->%list_elem_of_singleton]%elem_of_app; [|done].
    eapply Hstable; [done|]. by apply HQ.
Qed.

Lemma base_rule_runs i w t rule st :
  sound rs s st ->
  0 <= i -> s !! Z.to_nat i = Some w ->
  rule ∈ rs -> rhs rule = [T t] -> T_match (T t) w = true ->
  runs C (base_rule i w rule st)
       (fun st' => sound rs s st' /\ progress st st' /\
                   covered st'.2 (i, i) (lhs rule) (weight rule)).
Proof.
  intros Hs Hi Hw Hr Hrhs Hm.
  set (node := mkRuleNode rule [inl (T w)] (weight rule)).
  assert (Hnode : node_derivation rs s i i node)
    by (by apply (node_terminal rs s i w t)).
  destruct (store_spec rs s i i rule node st Hs Hnode eq_refl)
    as (Hs' & Hp' & Hc').
  unfold base_rule. unfold store in *. destruct st as [table trees].
  cbn [fst snd node_weight node] in *.
  destruct (lighter _ _ _).
  - unfold T_init. destruct (re_compile w) eqn:Ew; cbn.
    + by apply runs_ret.
    + split; [done|]. intros HC.
      destruct (HC w) as [? ?]; [by eapply list_elem_of_lookup_2|congruence].
  - by apply runs_ret.
Qed.

Lemma base_terminal_runs i w item st :
  item ∈ map_to_list (terminal_rules g) ->
  sound rs s st ->
  0 <= i -> s !! Z.to_nat i = Some w ->
  runs C (base_terminal i w item st)
       (fun st' => sound rs s st' /\ progress st st' /\
                   (T_match item.1 w = true ->
                    forall rule, rule ∈ item.2 ->
                                 covered st'.2 (i, i) (lhs rule) (weight rule))).
Proof.
  destruct item as [terminal rules_t]. intros Hitem Hs Hi Hw.
  apply elem_of_map_to_list in Hitem.
  destruct (CnfWrapper_init_indexes gr g Hg) as (_ & Hterm & _).
  assert (Hrules : forall rule, rule ∈ rules_t ->
            rule ∈ rs /\ rhs rule = [terminal] /\ isinstance_T terminal = true).
  { intros rule Hr. apply Hterm. by rewrite lookup_total_default, Hitem. }
  unfold base_terminal. cbn [fst snd].
  destruct (T_match terminal w) eqn:Em.
  - eapply runs_weaken.
    + apply (runs_loop (fun rule st' =>
               covered st'.2 (i, i) (lhs rule) (weight rule))); [| |done].
      * intros x st1 st2 [_ Hc]. apply Hc.
      * intros rule st1 Hr Hs1 _.
        destruct (Hrules rule Hr) as (Hin & Hrhs & Ht).
        destruct terminal as [t|b]; [|done].
        by apply (base_rule_runs i w t).
    + cbn. intros st' (? & ? & ?). eauto.
  - apply runs_ret. split; [done|]. split; [apply progress_refl|done].
Qed.

Lemma base_token_runs i w st :
  sound rs s st ->
  0 <= i -> s !! Z.to_nat i = Some w ->
  runs C (base_token g (i, w) st)
       (fun st' => sound rs s st' /\ progress st st' /\
                   complete rs s st' i i).
Proof.
  intros Hs Hi Hw. unfold base_token.
  eapply runs_weaken.
  - apply (runs_loop (fun item st' =>
             T_match item.1 w = true ->
             forall rule, rule ∈ item.2 ->
                          covered st'.2 (i, i) (lhs rule) (weight rule)));
      [| |done].
    + intros x st1 st2 [_ Hc] HQ Hm rule Hr. by apply Hc, HQ.
    + intros item st1 Hitem Hs1 _.
      rewrite (iter_order_perm _ _) in Hitem.
      by apply base_terminal_runs.
  - cbn. intros st' (Hs' & Hp' & HQ). split; [done|]. split; [done|].
    intros X c Hd.
    inversion Hd as [i' w' t rule _ Hw' Hr Hrhs Hm|i' p j' a b w1 w2 rule Hp];
      subst; [|lia].
    rewrite Hw in Hw'. injection Hw' as <-.
    destruct (CnfWrapper_init_indexes gr g Hg) as (_ & Hterm & _).
    assert (Hin : rule ∈ terminal_rules g !!! T t) by (by apply Hterm).
    rewrite lookup_total_default in Hin.
    destruct (terminal_rules g !! T t) as [rules_t|] eqn:El;
      [|by apply elem_of_nil in Hin].
    apply (HQ (T t, rules_t)); [|done|done].
    rewrite (iter_order_perm _ _). by apply elem_of_map_to_list.
Qed.

Lemma sound_empty : sound rs s (∅, ∅).
Proof.
  intros i j. cbn [fst snd]. rewrite !lookup_total_empty. split.
  - by intros r ?%elem_of_nil.
  - intros X node. change (inhabitant !! X) with ((∅ : gmap Symbol RuleNode) !! X).
    by rewrite lookup_empty.
Qed.

Lemma base_phase_runs :
  runs C (for_each (enumerate s) (base_token g) (∅, ∅))
       (fun st' => sound rs s st' /\ forall i, complete rs s st' i i).
Proof.
  eapply runs_weaken.
  - apply (runs_loop (fun iw st' => complete rs s st' iw.1 iw.1));
      [| |apply sound_empty].
    + intros x st1 st2 Hp. by apply complete_progress.
    + intros [i w] st1 [Hi Hw]%elem_of_enumerate Hs1 _.
      by apply base_token_runs.
  - cbn. intros st' (Hs' & _ & HQ). split; [done|].
    intros i X c Hd. pose proof Hd as Hd'.
    apply derives_range in Hd' as [Hi Hlt].
    destruct (lookup_lt_is_Some_2 s (Z.to_nat i)) as [w Hw]; [lia|].
    apply (HQ (i, w)); [|done]. apply elem_of_enumerate. split; [lia|done].
Qed.

Lemma span_rule_runs i l p r1 r2 rule st :
  sound rs s st ->
  r1 ∈ st.1 !!! (i, p - 1) -> r2 ∈ st.1 !!! (p, i + l - 1) ->
  rule ∈ rs -> rhs rule = [lhs r1; lhs r2] ->
  i < p <= i + l - 1 ->
  complete rs s st i (p - 1) -> complete rs s st p (i + l - 1) ->
  runs C (span_rule i l p r1 r2 rule st)
       (fun st' => sound rs s st' /\ progress st st' /\
                   forall c1 c2,
                     derives rs s i (p - 1) (lhs r1) c1 ->
                     derives rs s p (i + l - 1) (lhs r2) c2 ->
                     covered st'.2 (i, i + l - 1) (lhs rule)
                             (weight rule + c1 + c2)).
Proof.
  intros Hs Hr1 Hr2 Hr Hrhs Hp Hc1 Hc2.
  destruct (Hs i (p - 1)) as [Htab1 Htree1].
  destruct (Hs p (i + l - 1)) as [Htab2 Htree2].
  destruct (Htab1 r1 Hr1) as [n1 Hn1]. destruct (Htab2 r2 Hr2) as [n2 Hn2].
  destruct (Htree1 _ _ Hn1) as (Hd1 & Hl1 & _).
  destruct (Htree2 _ _ Hn2) as (Hd2 & Hl2 & _).
  set (node := mkRuleNode rule [inr n1; inr n2]
                          (weight rule + node_weight n1 + node_weight n2)).
  assert (Hnode : node_derivation rs s i (i + l - 1) node).
  { apply (node_binary rs s i p); try done. by rewrite Hl1, Hl2. }
  destruct (store_spec rs s i (i + l - 1) rule node st Hs Hnode eq_refl)
    as (Hs' & Hp' & Hc').
  assert (Hrun : span_rule i l p r1 r2 rule st =
                 ret (store (i, i + l - 1) rule node st)).
  { unfold span_rule, store, getitem. destruct st as [table trees].
    cbn [fst snd] in *. rewrite Hn1, Hn2. cbn [bind ret node_weight node].
    by destruct (lighter _ _ _). }
  rewrite Hrun. apply runs_ret. split; [done|]. split; [done|].
  intros c1 c2 Hder1 Hder2. eapply covered_le; [apply Hc'|].
  destruct (Hc1 _ _ Hder1) as (n1' & Hn1' & Hw1).
  destruct (Hc2 _ _ Hder2) as (n2' & Hn2' & Hw2).
  rewrite Hn1 in Hn1'. rewrite Hn2 in Hn2'.
  injection Hn1' as <-. injection Hn2' as <-. cbn. lia.
Qed.

Lemma span_pair_runs i l p r1 r2 st :
  sound rs s st ->
  r1 ∈ st.1 !!! (i, p - 1) -> r2 ∈ st.1 !!! (p, i + l - 1) ->
  i < p <= i + l - 1 ->
  complete rs s st i (p - 1) -> complete rs s st p (i + l - 1) ->
  runs C (span_pair g i l p (r1, r2) st)
       (fun st' => sound rs s st' /\ progress st st' /\
                   forall rule c1 c2,
                     rule ∈ rs -> rhs rule = [lhs r1; lhs r2] ->
                     derives rs s i (p - 1) (lhs r1) c1 ->
                     derives rs s p (i + l - 1) (lhs r2) c2 ->
                     covered st'.2 (i, i + l - 1) (lhs rule)
                             (weight rule + c1 + c2)).
Proof.
  intros Hs Hr1 Hr2 Hp Hc1 Hc2. unfold span_pair.
  destruct (CnfWrapper_init_indexes gr g Hg) as (_ & _ & Hnt).
  change (default [] (nonterminal_rules g !! (lhs r1, lhs r2)))
    with (default inhabitant (nonterminal_rules g !! (lhs r1, lhs r2))).
  rewrite <- lookup_total_default.
  eapply runs_weaken.
  - apply (runs_loop (fun rule st' =>
             forall c1 c2,
               derives rs s i (p - 1) (lhs r1) c1 ->
               derives rs s p (i + l - 1) (lhs r2) c2 ->
               covered st'.2 (i, i + l - 1) (lhs rule)
                       (weight rule + c1 + c2))); [| |done].
    + intros x st1 st2 [_ Hc] HQ c1 c2 ? ?. by apply Hc, HQ.
    + intros rule st1 Hrule Hs1 Hp1.
      apply Hnt in Hrule as (Hin & Hrhs & _).
      apply span_rule_runs; try done.
      * by apply Hp1.
      * by apply Hp1.
      * by eapply complete_progress.
      * by eapply complete_progress.
  - cbn. intros st' (Hs' & Hp' & HQ). split; [done|]. split; [done|].
    intros rule c1 c2 Hin Hrhs. apply HQ. apply Hnt. by repeat split.
Qed.

Lemma span_split_runs i l p st :
  sound rs s st ->
  i < p <= i + l - 1 ->
  complete rs s st i (p - 1) -> complete rs s st p (i + l - 1) ->
  runs C (span_split g i l p st)
       (fun st' => sound rs s st' /\ progress st st' /\
                   forall rule a b c1 c2,
                     rule ∈ rs -> rhs rule = [NT a; NT b] ->
                     derives rs s i (p - 1) (NT a) c1 ->
                     derives rs s p (i + l - 1) (NT b) c2 ->
                     covered st'.2 (i, i + l - 1) (lhs rule)
                             (weight rule + c1 + c2)).
Proof.
  intros Hs Hp Hc1 Hc2. unfold span_split.
  eapply runs_weaken.
  - apply (runs_loop (fun r12 st' =>
             forall rule c1 c2,
               rule ∈ rs -> rhs rule = [lhs r12.1; lhs r12.2] ->
               derives rs s i (p - 1) (lhs r12.1) c1 ->
               derives rs s p (i + l - 1) (lhs r12.2) c2 ->
               covered st'.2 (i, i + l - 1) (lhs rule)
                       (weight rule + c1 + c2))); [| |done].
    + intros x st1 st2 [_ Hc] HQ rule c1 c2 ? ? ? ?. by apply Hc, HQ.
    + intros [r1 r2] st1 Hin Hs1 Hp1.
      apply list_elem_of_In, in_prod_iff in Hin as [Hr1 Hr2].
      apply list_elem_of_In in Hr1, Hr2.
      rewrite (iter_order_perm _ _) in Hr1. rewrite (iter_order_perm _ _) in Hr2.
      apply span_pair_runs; try done.
      * by apply Hp1.
      * by apply Hp1.
      * by eapply complete_progress.
      * by eapply complete_progress.
  - cbn. intros st' (Hs' & Hp' & HQ). split; [done|]. split; [done|].
    intros rule a b c1 c2 Hin Hrhs Hd1 Hd2.
    destruct (Hc1 _ _ Hd1) as (n1 & Hn1 & _).
    destruct (Hc2 _ _ Hd2) as (n2 & Hn2 & _).
    destruct (Hs i (p - 1)) as [_ Htree1].
    destruct (Hs p (i + l - 1)) as [_ Htree2].
    destruct (Htree1 _ _ Hn1) as (_ & _ & r1 & Hr1 & Hl1).
    destruct (Htree2 _ _ Hn2) as (_ & _ & r2 & Hr2 & Hl2).
    apply (HQ (r1, r2)); cbn [fst snd]; try (by rewrite ?Hl1, ?Hl2).
    apply list_elem_of_In, in_prod_iff.
    rewrite <- !list_elem_of_In, !(iter_order_perm _ _). done.
Qed.

Lemma span_start_runs l i st :
  sound rs s st ->
  2 <= l ->
  (forall i' j', j' - i' + 1 < l -> complete rs s st i' j') ->
  runs C (span_start g l i st)
       (fun st' => sound rs s st' /\ progress st st' /\
                   complete rs s st' i (i + l - 1)).
Proof.
  intros Hs Hl Hshort. unfold span_start.
  eapply runs_weaken.
  - apply (runs_loop (fun p st' =>
             forall rule a b c1 c2,
               rule ∈ rs -> rhs rule = [NT a; NT b] ->
               derives rs s i (p - 1) (NT a) c1 ->
               derives rs s p (i + l - 1) (NT b) c2 ->
               covered st'.2 (i, i + l - 1) (lhs rule)
                       (weight rule + c1 + c2))); [| |done].
    + intros x st1 st2 [_ Hc] HQ rule a b c1 c2 ? ? ? ?.
      by eapply Hc, HQ.
    + intros p st1 Hp%elem_of_xrange Hs1 Hp1.
      apply span_split_runs; [done|lia| |].
      * eapply complete_progress; [done|]. apply Hshort. lia.
      * eapply complete_progress; [done|]. apply Hshort. lia.
  - cbn. intros st' (Hs' & Hp' & HQ). split; [done|]. split; [done|].
    intros X c Hd.
    inversion Hd as [i' w' t rule|i' p j' a b w1 w2 rule Hp Hin Hrhs Hd1 Hd2];
      subst; [lia|].
    apply (HQ p) with (a := a) (b := b); try done. apply elem_of_xrange. lia.
Qed.

Lemma span_length_runs l st :
  sound rs s st ->
  2 <= l ->
  (forall i' j', j' - i' + 1 < l -> complete rs s st i' j') ->
  runs C (span_length g (Z.of_nat (length s)) l st)
       (fun st' => sound rs s st' /\ progress st st' /\
                   forall i, complete rs s st' i (i + l - 1)).
Proof.
  intros Hs Hl Hshort. unfold span_length.
  eapply runs_weaken.
  - apply (runs_loop (fun i st' => complete rs s st' i (i + l - 1)));
      [| |done].
    + intros x st1 st2 Hp. by apply complete_progress.
    + intros i st1 _ Hs1 Hp1. apply span_start_runs; [done|done|].
      intros i' j' Hlen. eapply complete_progress; [done|]. by apply Hshort.
  - cbn. intros st' (Hs' & Hp' & HQ). split; [done|]. split; [done|].
    intros i X c Hd. pose proof Hd as Hd'.
    apply derives_range in Hd' as [Hi Hlt].
    apply HQ; [|done]. apply elem_of_xrange. lia.
Qed.

Lemma _Parse_runs :
  runs C (_Parse s g)
       (fun st' => sound rs s st' /\ forall i j, complete rs s st' i j).
Proof.
  unfold _Parse. destruct base_phase_runs as [Hbase_post Hbase_ex].
  set (n := Z.of_nat (length s)).
  assert (Hspans : forall st,
            sound rs s st -> (forall i, complete rs s st i i) ->
            runs C (for_each (xrange 2 (n + 1)) (span_length g n) st)
                 (fun st' => sound rs s st' /\
                             forall i j, complete rs s st' i j)).
  { intros st Hs H1.
    eapply runs_weaken.
    - apply (runs_for_each C (span_length g n)
               (fun pre st' =>
                  sound rs s st' /\
                  forall i l, l = 1 \/ l ∈ pre ->
                              complete rs s st' i (i + l - 1))).
      + split; [done|]. intros i l [->|Hl%elem_of_nil]; [|done].
        replace (i + 1 - 1) with i by lia. apply H1.
      + intros pre l post st1 El (Hs1 & Hpre).
        apply seqZ_split in El as [Hl Hin].
        eapply runs_weaken.
        * apply (span_length_runs l st1 Hs1); [lia|].
          intros i' j' Hlen X c Hd. pose proof Hd as Hd'.
          apply derives_range in Hd' as [Hi _].
          replace j' with (i' + (j' - i' + 1) - 1) in Hd |- * by lia.
          eapply Hpre; [|done].
          destruct (decide (j' - i' + 1 = 1)) as [->|Hne]; [by left|].
          right. apply Hin. lia.
        * cbn. intros st2 (Hs2 & Hp2 & Hnew). split; [done|].
          intros i l' [->|[Hl'| ->%list_elem_of_singleton]%elem_of_app].
          -- eapply complete_progress; [done|]. apply Hpre. by left.
          -- eapply complete_progress; [done|]. apply Hpre. by right.
          -- apply Hnew.
    - cbn. intros st' [Hs' Hall]. split; [done|].
      intros i j X c Hd. pose proof Hd as Hd'.
      apply derives_range in Hd' as [Hi Hlt].
      replace j with (i + (j - i + 1) - 1) in Hd |- * by lia.
      eapply Hall; [|done].
      destruct (decide (j - i + 1 = 1)) as [->|Hne]; [by left|].
      right. apply elem_of_xrange. lia. }
  split.
  - intros st'. destruct (for_each (enumerate s) _ _) as [e|st1] eqn:E1;
      [done|]. cbn [bind]. intros Hrun.
    destruct (Hbase_post st1 eq_refl) as [Hs1 H1].
    by apply (Hspans st1 Hs1 H1).
  - intros HC. destruct (Hbase_ex HC) as [st1 E1]. rewrite E1. cbn [bind].
    destruct (Hbase_post st1 E1) as [Hs1 H1].
    by apply (Hspans st1 Hs1 H1).
Qed.

End Build.

(** C2: for a CNF grammar (a constructed [CnfWrapper]) and any tokens,
    [_Parse] returns whenever every token compiles as a pattern, and in the
    tables it returns every non-terminal that derives a span has a tree in
    the cell of the span; the tree stored for a non-terminal [X] at a span
    is a derivation of [X] over the span, its weight is at most the
    cumulative weight of every derivation of [X] over the span, and the
    weight it stores is its rule's weight plus the weights stored in its
    children. *)
Theorem _Parse_lightest_tree `{RT : Runtime} (gr : Grammar) (g : CnfWrapper)
    (s : list string) :
  CnfWrapper_init gr = ret g ->
  (tokens_compile s -> exists table trees, _Parse s g = ret (table, trees)) /\
  (forall table trees,
     _Parse s g = ret (table, trees) ->
     (forall i j X c,
        derives (rules gr) s i j X c ->
        exists node, (trees !!! (i, j)) !! X = Some node) /\
     (forall i j X node,
        (trees !!! (i, j)) !! X = Some node ->
        lhs (node_rule node) = X /\
        node_derivation (rules gr) s i j node /\
        derives (rules gr) s i j X (node_weight node) /\
        (forall c, derives (rules gr) s i j X c -> node_weight node <= c) /\
        node_weight node =
          weight (node_rule node) + children_weight (node_children node))).
Proof.
  intros Hg. destruct (_Parse_runs gr g s Hg) as [Hpost Hex]. split.
  - intros HC. destruct (Hex HC) as [[table trees] E]. eauto.
  - intros table trees Hrun.
    destruct (Hpost _ Hrun) as [Hsound Hcomplete]. split.
    + intros i j X c Hd.
      destruct (Hcomplete i j X c Hd) as (node & Hn & _). eauto.
    + intros i j X node Hn.
      destruct (Hsound i j) as [_ Htree].
      destruct (Htree X node Hn) as (Hnode & Hl & _).
      split; [done|]. split; [done|]. split; [|split].
      * rewrite <- Hl. by apply node_derivation_derives.
      * intros c Hd. destruct (Hcomplete i j X c Hd) as (node' & Hn' & Hw).
        cbn [snd] in Hn'. rewrite Hn in Hn'. by injection Hn' as <-.
      * by eapply node_derivation_weight.
Qed.

Lemma _Parse_lightest_tree_witness :
  CnfWrapper_init sample_cnf = ret sample_wrapper /\
  (tokens_compile (RT := PyRe.runtime) ["a"; "b"] ->
   exists table trees,
     _Parse (RT := PyRe.runtime) ["a"; "b"] sample_wrapper =
       ret (table, trees)) /\
  (forall table trees,
     _Parse (RT := PyRe.runtime) ["a"; "b"] sample_wrapper =
       ret (table, trees) ->
     (forall i j X c,
        derives (RT := PyRe.runtime) (rules sample_cnf) ["a"; "b"] i j X c ->
        exists node, (trees !!! (i, j)) !! X = Some node) /\
     (forall i j X node,
        (trees !!! (i, j)) !! X = Some node ->
        lhs (node_rule node) = X /\
        node_derivation (RT := PyRe.runtime) (rules sample_cnf) ["a"; "b"]
                        i j node /\
        derives (RT := PyRe.runtime) (rules sample_cnf) ["a"; "b"] i j X
                (node_weight node) /\
        (forall c,
           derives (RT := PyRe.runtime) (rules sample_cnf) ["a"; "b"] i j X c ->
           node_weight node <= c) /\
        node_weight node =
          weight (node_rule node) + children_weight (node_children node))).
Proof.
  split; [vm_compute; reflexivity|].
  apply (_Parse_lightest_tree (RT := PyRe.runtime) sample_cnf sample_wrapper
                              ["a"; "b"]).
  vm_compute; reflexivity.
Defined.

(** ** Unit elimination: termination *)

Section UnitGraph.
Local Open Scope nat_scope.
Implicit Types E : list (Symbol * Symbol).

Lemma path_sources E n x y :
  (forall a, ~ tc (edge_rel E) a a) ->
  nsteps (edge_rel E) n x y ->
  exists l : list Symbol,
    length l = n /\ NoDup l /\
    forall v, v ∈ l ->
              v ∈ E.*1 /\ rtc (edge_rel E) x v /\ tc (edge_rel E) v y.
Proof.
  intros Hacyc. induction 1 as [x|n x y z Hxy Hyz IH].
  - exists []. split; [done|]. split; [constructor|]. by intros v ?%elem_of_nil.
  - destruct IH as (l & Hlen & Hnd & Hl).
    assert (Hxz : tc (edge_rel E) x z).
    { eapply tc_rtc_r; [by apply tc_once|]. by eapply rtc_nsteps_2. }
    exists (x :: l). split; [by rewrite <- Hlen|]. split.
    + constructor; [|done]. intros Hx. destruct (Hl x Hx) as (_ & Hyx & _).
      apply (Hacyc x). eapply tc_rtc_r; [by apply tc_once|done].
    + intros v [->|Hv]%elem_of_cons.
      * split; [|done]. apply list_elem_of_fmap. by exists (x, y).
      * destruct (Hl v Hv) as (Hin & Hyv & Hvz).
        split; [done|]. split; [|done]. by eapply rtc_l.
Qed.

Lemma acyclic_paths_bounded E :
  (forall a, ~ tc (edge_rel E) a a) -> paths_bounded E (length E).
Proof.
  intros Hacyc n x y Hn.
  destruct (path_sources E n x y Hacyc Hn) as (l & <- & Hnd & Hl).
  rewrite <- (length_fmap fst E). apply submseteq_length.
  apply NoDup_submseteq; [done|]. intros v Hv. by apply Hl.
Qed.

Lemma paths_bounded_subpaths E E' K :
  (forall a b, edge_rel E' a b ->
               edge_rel E a b \/ exists m, edge_rel E a m /\ edge_rel E m b) ->
  paths_bounded E K -> paths_bounded E' K.
Proof.
  intros Hsub Hb n x y Hn.
  assert (Hmap : exists m, n <= m /\ nsteps (edge_rel E) m x y).
  { induction Hn as [x|n x y z Hxy _ (m & Hm & IH)].
    - exists 0. split; [done|constructor].
    - destruct (Hsub x y Hxy) as [Hxy'|(v & Hxv & Hvy)].
      + exists (S m). split; [lia|]. by eapply nsteps_l.
      + exists (S (S m)). split; [lia|].
        eapply nsteps_l; [done|]. by eapply nsteps_l. }
  destruct Hmap as (m & Hm & Hpath). apply Hb in Hpath. lia.
Qed.

Lemma sum_list_with_le {A : Type} (f f' : A -> nat) (l : list A) :
  (forall x, x ∈ l -> f x <= f' x) ->
  sum_list_with f l <= sum_list_with f' l.
Proof.
  induction l as [|x l IH]; intros Hf; cbn; [done|].
  assert (f x <= f' x) by (apply Hf; left).
  assert (sum_list_with f l <= sum_list_with f' l)
    by (apply IH; intros y Hy; apply Hf; by right).
  lia.
Qed.

Lemma sum_list_with_eq {A : Type} (f f' : A -> nat) (l : list A) :
  (forall x, x ∈ l -> f x = f' x) ->
  sum_list_with f l = sum_list_with f' l.
Proof.
  intros Hf. apply Nat.le_antisymm; apply sum_list_with_le;
    intros x Hx; by rewrite Hf.
Qed.

Lemma depth_edge E a b k :
  depth E a (S k) -> (a, b) ∈ E -> depth E b k.
Proof.
  intros Hd Hab n y Hn.
  assert (S n <= S k) by (apply (Hd (S n) y); by eapply nsteps_l). lia.
Qed.

Lemma depth_0_no_edge E a :
  depth E a 0 -> filter (fun e => e.1 = a) E = [].
Proof.
  intros Hd. destruct (filter _ E) as [|[a' b] l] eqn:Ef; [done|].
  assert (Hin : (a', b) ∈ filter (fun e => e.1 = a) E) by (rewrite Ef; left).
  apply list_elem_of_filter in Hin as [Ha Hin]. cbn in Ha. subst a'.
  assert (1 <= 0); [|lia].
  apply (Hd 1 b). by apply nsteps_once.
Qed.

Lemma path_count_saturated E k X :
  depth E X k -> forall k', k <= k' -> path_count E k' X = path_count E k X.
Proof.
  revert X. induction k as [|k IH]; intros X Hd k' Hk.
  - destruct k' as [|k']; [done|]. cbn.
    by rewrite (depth_0_no_edge E X Hd).
  - destruct k' as [|k']; [lia|]. cbn. f_equal.
    apply sum_list_with_eq. intros [a b] [Ha Hin]%list_elem_of_filter.
    cbn in *. subst a. apply IH; [|lia]. by eapply depth_edge.
Qed.

Lemma path_count_pos E k X : 1 <= path_count E k X.
Proof. destruct k; cbn; lia. Qed.

(** Under a bound on the paths, [path_count E K] is the total number of
    paths and satisfies its defining equation at the same [K]. *)
Lemma path_count_unfold E K X :
  paths_bounded E K ->
  path_count E K X =
  1 + sum_list_with (fun e => path_count E K e.2)
                    (filter (fun e => e.1 = X) E).
Proof.
  intros Hb. destruct K as [|K].
  - cbn. rewrite (depth_0_no_edge E X); [done|]. intros n y. apply Hb.
  - change (path_count E (S K) X)
      with (1 + sum_list_with (fun e => path_count E K e.2)
                              (filter (fun e => e.1 = X) E)).
    f_equal. apply sum_list_with_eq.
    intros [a b] [Ha Hin]%list_elem_of_filter. cbn [fst snd] in *. subst a.
    symmetry. apply path_count_saturated; [|lia].
    apply (depth_edge E X); [|done]. intros n y. apply Hb.
Qed.

Lemma depth_mono E X k k' : depth E X k -> k <= k' -> depth E X k'.
Proof. intros Hd Hk n y Hn. apply Hd in Hn. lia. Qed.

Lemma depth_path E a b j k :
  depth E a k -> nsteps (edge_rel E) j a b -> j <= k /\ depth E b (k - j).
Proof.
  intros Hd Hj. split; [by eapply Hd|].
  intros n y Hn.
  assert (j + n <= k) by (apply (Hd (j + n) y); by eapply nsteps_trans). lia.
Qed.

Lemma sum_list_with_replicate {A : Type} (f : A -> nat) (m : nat) (x : A) :
  sum_list_with f (replicate m x) = m * f x.
Proof. induction m as [|m IH]; cbn; lia. Qed.

Lemma sum_list_with_fmap {A B : Type} (f : B -> nat) (h : A -> B) (l : list A) :
  sum_list_with f (h <$> l) = sum_list_with (fun x => f (h x)) l.
Proof. induction l as [|x l IH]; cbn; [done|]. by rewrite IH. Qed.

Lemma filter_source_replicate (X A B : Symbol) (m : nat) :
  filter (fun e : Symbol * Symbol => e.1 = X) (replicate m (A, B)) =
  if decide (A = X) then replicate m (A, B) else [].
Proof.
  induction m as [|m IH]; [by destruct (decide _)|].
  rewrite replicate_S, filter_cons, IH. cbn [fst].
  by destruct (decide (A = X)).
Qed.

Lemma filter_source_redirect (X A : Symbol) (l : list (Symbol * Symbol)) :
  filter (fun e : Symbol * Symbol => e.1 = X) ((fun e => (A, e.2)) <$> l) =
  if decide (A = X) then (fun e => (A, e.2)) <$> l else [].
Proof.
  induction l as [|e l IH]; [by destruct (decide _)|].
  rewrite fmap_cons, filter_cons, IH. cbn [fst].
  by destruct (decide (A = X)).
Qed.

Section Step.
Context (E E' Ekept : list (Symbol * Symbol)) (m : nat) (A B : Symbol)
        (K : nat).
Hypothesis Hm : 1 <= m.
Hypothesis HE : E ≡ₚ replicate m (A, B) ++ Ekept.
Hypothesis HE' :
  E' ≡ₚ Ekept ++ ((fun e => (A, e.2)) <$> filter (fun e => e.1 = B) E).
Hypothesis Hbound : paths_bounded E K.

Lemma step_edge_AB : (A, B) ∈ E.
Proof.
  rewrite HE, elem_of_app. left. apply elem_of_replicate. split; [done|lia].
Qed.

Lemma step_edges a b :
  (a, b) ∈ E' ->
  (a, b) ∈ E \/ (a = A /\ (A, B) ∈ E /\ (B, b) ∈ E).
Proof.
  rewrite HE'. intros [Hk|Hn]%elem_of_app.
  - left. rewrite HE, elem_of_app. by right.
  - right. apply list_elem_of_fmap in Hn as ([b' c] & [= -> ->] & Hin).
    apply list_elem_of_filter in Hin as [Hb Hin]. cbn in Hb. subst b'.
    split; [done|]. split; [apply step_edge_AB|done].
Qed.

Lemma step_paths_bounded : paths_bounded E' K.
Proof.
  apply (paths_bounded_subpaths E); [|done].
  intros a b Hab. destruct (step_edges a b Hab) as [?|(-> & ? & ?)];
    [by left|right; by exists B].
Qed.

Lemma step_sum_from_B :
  sum_list_with (fun e => path_count E K e.2) (filter (fun e => e.1 = B) E) =
  path_count E K B - 1.
Proof. rewrite (path_count_unfold E K B Hbound). lia. Qed.

Lemma step_path_count_le k X :
  depth E X k -> path_count E' K X <= path_count E K X.
Proof.
  revert X. induction k as [k IH] using lt_wf_ind. intros X Hd.
  rewrite (path_count_unfold E' K X step_paths_bounded).
  rewrite (path_count_unfold E K X Hbound).
  apply le_n_S.
  transitivity (sum_list_with (fun e => path_count E K e.2)
                              (filter (fun e => e.1 = X) E')).
  { apply sum_list_with_le. intros [a b] [Ha Hin]%list_elem_of_filter.
    cbn [fst snd] in *. subst a.
    destruct (step_edges X b Hin) as [Hxb|(-> & HAB & HBb)].
    - destruct (depth_path E X b 1 k Hd) as [Hk Hdb];
        [by apply nsteps_once|].
      apply (IH (k - 1)); [lia|done].
    - destruct (depth_path E A b 2 k Hd) as [Hk Hdb].
      { eapply nsteps_l; [exact HAB|]. by apply nsteps_once. }
      apply (IH (k - 2)); [lia|done]. }
  pose proof step_sum_from_B as HB. pose proof HE' as HE2.
  set (FB := filter (fun e => e.1 = B) E) in HB, HE2. clearbody FB.
  set (W := path_count E K) in *. clearbody W.
  rewrite HE2, HE, !filter_app, !sum_list_with_app.
  rewrite filter_source_replicate, filter_source_redirect.
  destruct (decide (A = X)) as [->|Hne].
  - rewrite sum_list_with_replicate, sum_list_with_fmap. cbn [snd].
    rewrite HB. nia.
  - cbn. lia.
Qed.

Lemma step_measure_decreases : unit_measure E' K < unit_measure E K.
Proof.
  unfold unit_measure.
  apply Nat.le_lt_trans
    with (sum_list_with (fun e => path_count E K e.2) E').
  { apply sum_list_with_le. intros [a b] _. cbn [snd].
    apply (step_path_count_le K). intros n y. apply Hbound. }
  pose proof step_sum_from_B as HB. pose proof HE' as HE2.
  pose proof (path_count_pos E K B) as Hpos.
  set (FB := filter (fun e => e.1 = B) E) in HB, HE2. clearbody FB.
  set (W := path_count E K) in *. clearbody W.
  rewrite HE2, HE, !sum_list_with_app.
  rewrite sum_list_with_replicate, sum_list_with_fmap. cbn [snd].
  rewrite HB. nia.
Qed.

End Step.

End UnitGraph.

Lemma unit_edge_of_Some (r : Rule) (e : Symbol * Symbol) :
  unit_edge_of r = Some e <->
  e.1 = lhs r /\ rhs r = [e.2] /\ isinstance_NT e.2 = true.
Proof.
  unfold unit_edge_of. destruct e as [a b]. cbn.
  destruct (rhs r) as [|[t|c] [|y l]]; split; try done;
    try (by intros (? & [=] & ?)); try (by intros (? & [= <-] & ?)).
  - by intros [= <- <-].
  - by intros (-> & [= <-] & _).
Qed.

Lemma unit_step_edge_rel (rs : list Rule) (a b : Symbol) :
  unit_step rs a b <-> edge_rel (unit_edges rs) a b.
Proof.
  unfold unit_step, edge_rel, unit_edges. rewrite list_elem_of_omap.
  split.
  - intros (r & Hr & Hl & Hrhs & Hb). exists r. split; [done|].
    by apply unit_edge_of_Some.
  - intros (r & Hr & (Hl & Hrhs & Hb)%unit_edge_of_Some).
    exists r. by repeat split.
Qed.

Lemma unit_acyclic_edges (rs : list Rule) :
  unit_acyclic rs -> forall a, ~ tc (edge_rel (unit_edges rs)) a a.
Proof.
  intros Hacyc a Ha. apply (Hacyc a). revert Ha. generalize a at 2 4.
  intros a' Ha. induction Ha as [x y Hxy|x y z Hxy _ IH].
  - apply tc_once. by apply unit_step_edge_rel.
  - eapply tc_l; [|done]. by apply unit_step_edge_rel.
Qed.

Lemma list_filter_partition {A : Type} (p : A -> bool) (l : list A) :
  l ≡ₚ List.filter p l ++ List.filter (fun x => negb (p x)) l.
Proof.
  induction l as [|x l IH]; cbn; [done|].
  destruct (p x); cbn; [by rewrite <- IH|].
  by rewrite <- Permutation_middle, <- IH.
Qed.

Lemma unit_edges_equal_rules (rs : list Rule) (rule : Rule) (b : string) :
  rhs rule = [NT b] ->
  unit_edges (List.filter (fun x => Rule_eqb x rule) rs) =
  replicate (length (List.filter (fun x => Rule_eqb x rule) rs))
            (lhs rule, NT b).
Proof.
  intros Hrhs. induction rs as [|x rs IH]; cbn; [done|].
  destruct (Rule_eqb x rule) eqn:E; [|done]. cbn.
  apply Rule_eqb_erase in E.
  assert (Hx : unit_edge_of x = Some (lhs rule, NT b)).
  { apply unit_edge_of_Some. cbn. unfold lhs.
    destruct x, rule; simplify_eq/=; done. }
  unfold unit_edges in *. cbn. by rewrite Hx, IH.
Qed.

Lemma unit_edges_refs (rs : list Rule) (x0 : Symbol) :
  unit_edges (List.filter (fun x => Symbol_eqb (lhs x) x0) rs) =
  filter (fun e => e.1 = x0) (unit_edges rs).
Proof.
  unfold unit_edges. induction rs as [|x rs IH]; [done|].
  cbn [List.filter].
  destruct (Symbol_eqb (lhs x) x0) eqn:E; cbn [omap list_omap];
    fold (@omap list _ _ _ unit_edge_of);
    destruct (unit_edge_of x) as [[a c]|] eqn:Ex; rewrite ?filter_cons;
    cbn [fst]; rewrite ?IH; try done.
  - apply unit_edge_of_Some in Ex as [Ha _]. cbn in Ha. subst a.
    apply Symbol_eqb_eq in E. by rewrite decide_True by done.
  - apply unit_edge_of_Some in Ex as [Ha _]. cbn in Ha. subst a.
    apply Symbol_eqb_neq in E. by rewrite decide_False by done.
Qed.

Lemma unit_edges_built (rule : Rule) (refs : list Rule) :
  unit_edges (map (BuildUnitSkipRule rule) refs) =
  (fun e => (lhs rule, e.2)) <$> unit_edges refs.
Proof.
  unfold unit_edges. induction refs as [|x refs IH]; cbn; [done|].
  rewrite IH. unfold unit_edge_of. cbn.
  by destruct (rhs x) as [|[t|c] [|y l]].
Qed.

(** The edges after one iteration of the loop of [Unit]. *)
Lemma RemoveUnitRule_edges (g g' : Grammar) (rule : Rule) :
  GetAnyNtUnitRule g = Some rule ->
  RemoveUnitRule g rule = ret g' ->
  exists (m : nat) (b : Symbol) (Ekept : list (Symbol * Symbol)),
    (1 <= m)%nat /\
    unit_edges (rules g) ≡ₚ replicate m (lhs rule, b) ++ Ekept /\
    unit_edges (rules g') ≡ₚ
      Ekept ++ ((fun e => (lhs rule, e.2)) <$>
                filter (fun e => e.1 = b) (unit_edges (rules g))).
Proof.
  intros [Hin [b Hb]]%GetAnyNtUnitRule_Some.
  rewrite (RemoveUnitRule_unit g rule (NT b) []) by done. intros [= <-].
  exists (length (List.filter (fun x => Rule_eqb x rule) (rules g))), (NT b),
         (unit_edges (List.filter (fun x => Rule_neb x rule) (rules g))).
  split; [|split].
  - assert (Hr : rule ∈ List.filter (fun x => Rule_eqb x rule) (rules g)).
    { apply elem_of_filter_list. split; [done|]. by apply Rule_eqb_erase. }
    destruct (List.filter _ _); [by apply elem_of_nil in Hr|cbn; lia].
  - rewrite <- (unit_edges_equal_rules _ _ b Hb).
    unfold unit_edges. rewrite <- omap_app.
    apply omap_Permutation, list_filter_partition.
  - unfold Grammar_init. cbn [rules]. unfold unit_edges at 1.
    rewrite sorted_Permutation, omap_app. fold (unit_edges).
    apply Permutation_app; [done|].
    change (omap unit_edge_of ?l) with (unit_edges l).
    rewrite unit_edges_built, <- (unit_edges_refs (rules g) (NT b)). done.
Qed.

Lemma Unit_fuel_mono (fuel fuel' : nat) (g : Grammar) (r : result Grammar) :
  Unit fuel g = Some r -> (fuel <= fuel')%nat -> Unit fuel' g = Some r.
Proof.
  revert fuel' g. induction fuel as [|fuel IH]; intros fuel' g.
  - cbn. destruct (GetAnyNtUnitRule g) eqn:Eg; [done|].
    intros [= <-] _. destruct fuel'; cbn; by rewrite Eg.
  - intros Hrun Hle. destruct fuel' as [|fuel']; [lia|].
    cbn in *. destruct (GetAnyNtUnitRule g) as [rule|]; [|done].
    destruct (RemoveUnitRule g rule) as [e|g1]; [done|].
    apply IH; [done|lia].
Qed.

Lemma Unit_terminates_measure (K n : nat) :
  forall g,
    (unit_measure (unit_edges (rules g)) K < n)%nat ->
    paths_bounded (unit_edges (rules g)) K ->
    exists fuel g', Unit fuel g = Some (ret g') /\ GetAnyNtUnitRule g' = None.
Proof.
  induction n as [|n IH]; intros g Hn Hb; [lia|].
  destruct (GetAnyNtUnitRule g) as [rule|] eqn:Eg.
  - pose proof Eg as [Hin [b Hb']]%GetAnyNtUnitRule_Some.
    destruct (RemoveUnitRule g rule) as [e|g1] eqn:E1.
    { by rewrite (RemoveUnitRule_unit g rule (NT b) []) in E1. }
    destruct (RemoveUnitRule_edges g g1 rule Eg E1)
      as (m & b0 & Ekept & Hm & HE & HE').
    destruct (IH g1) as (fuel & g' & Hrun & Hnone).
    + pose proof (step_measure_decreases _ _ _ _ _ _ K Hm HE HE' Hb). lia.
    + by apply (step_paths_bounded _ _ _ _ _ _ K Hm HE HE' Hb).
    + exists (S fuel), g'. split; [|done]. cbn. by rewrite Eg, E1.
  - exists 0%nat, g. split; [|done]. cbn. by rewrite Eg.
Qed.

(** C8: for a grammar whose unit rules form no cycle, the loop of [Unit]
    stops: with enough fuel (and with any larger amount) [Unit] returns a
    grammar, and that grammar has no rule whose rhs is a single
    non-terminal. *)
Theorem Unit_terminates (g : Grammar) :
  unit_acyclic (rules g) ->
  exists fuel g',
    (forall fuel', (fuel <= fuel')%nat -> Unit fuel' g = Some (ret g')) /\
    GetAnyNtUnitRule g' = None /\
    (forall r b, r ∈ rules g' -> rhs r <> [NT b]).
Proof.
  intros Hacyc.
  pose proof (acyclic_paths_bounded _ (unit_acyclic_edges _ Hacyc)) as Hb.
  destruct (Unit_terminates_measure _ _ g (Nat.lt_succ_diag_r _) Hb)
    as (fuel & g' & Hrun & Hnone).
  exists fuel, g'. split; [|split; [done|]].
  - intros fuel' Hle. by apply (Unit_fuel_mono fuel).
  - intros r b Hr Hrhs.
    pose proof (proj1 (GetAnyNtUnitRule_None g') Hnone r Hr) as Hu.
    assert (is_nt_unit_rule r = true)
      by (apply is_nt_unit_rule_rhs; eauto).
    congruence.
Qed.

Lemma ranked_unit_acyclic (rs : list Rule) (rank : Symbol -> nat) :
  (forall r b, r ∈ rs -> rhs r = [NT b] -> (rank (NT b) < rank (lhs r))%nat) ->
  unit_acyclic rs.
Proof.
  intros Hrank.
  assert (Htc : forall a b, tc (unit_step rs) a b -> (rank b < rank a)%nat).
  { induction 1 as [a b (r & Hr & <- & Hrhs & Hb)
                   |a b c (r & Hr & <- & Hrhs & Hb) _ IH].
    - destruct b as [t|b]; [done|]. by apply Hrank.
    - destruct b as [t|b]; [done|]. specialize (Hrank r b Hr Hrhs). lia. }
  intros a Ha. apply Htc in Ha. lia.
Qed.

Lemma Unit_terminates_witness :
  unit_acyclic (rules sample_units) /\
  exists fuel g',
    (forall fuel', (fuel <= fuel')%nat ->
                   Unit fuel' sample_units = Some (ret g')) /\
    GetAnyNtUnitRule g' = None /\
    (forall r b, r ∈ rules g' -> rhs r <> [NT b]).
Proof.
  assert (Hacyc : unit_acyclic (rules sample_units)).
  { apply (ranked_unit_acyclic _
             (fun x => match x with
                       | NT "A" => 2%nat | NT "B" => 1%nat | _ => 0%nat
                       end)).
    intros r b Hr Hrhs. vm_compute in Hr.
    repeat (apply elem_of_cons in Hr as [->|Hr];
            [try discriminate Hrhs; injection Hrhs as <-; cbn; lia|]).
    by apply elem_of_nil in Hr. }
  split; [exact Hacyc|]. exact (Unit_terminates sample_units Hacyc).
Defined.

(** * Further properties of the module *)

(** ** Recognition by the table builder *)

Lemma _Parse_cells `{RT : Runtime} (gr : Grammar) (g : CnfWrapper)
    (s : list string) (table : table_t) (trees : trees_t) :
  CnfWrapper_init gr = ret g ->
  _Parse s g = ret (table, trees) ->
  forall i j X,
    ((exists r, r ∈ table !!! (i, j) /\ lhs r = X) <->
     exists c, derives (rules gr) s i j X c) /\
    (is_Some ((trees !!! (i, j)) !! X) <->
     exists c, derives (rules gr) s i j X c) /\
    (forall node, (trees !!! (i, j)) !! X = Some node ->
       lhs (node_rule node) = X /\
       forall c, derives (rules gr) s i j X c -> node_weight node <= c).
Proof.
  intros Hg Hrun i j X.
  destruct (_Parse_runs gr g s Hg) as [Hpost _].
  destruct (Hpost _ Hrun) as [Hsound Hcomplete].
  destruct (Hsound i j) as [Htab Htree]. cbn [fst snd] in *.
  assert (Htd : is_Some ((trees !!! (i, j)) !! X) ->
                exists c, derives (rules gr) s i j X c).
  { intros [node Hn]. destruct (Htree X node Hn) as (Hnode & <- & _).
    eexists. by apply node_derivation_derives. }
  assert (Hdt : (exists c, derives (rules gr) s i j X c) ->
                is_Some ((trees !!! (i, j)) !! X)).
  { intros [c Hd]. destruct (Hcomplete i j X c Hd) as (node & Hn & _). eauto. }
  split; [|split].
  - split.
    + intros (r & Hr & <-). apply Htd. by apply Htab.
    + intros Hd. destruct (Hdt Hd) as [node Hn].
      by destruct (Htree X node Hn) as (_ & _ & Hr).
  - by split.
  - intros node Hn. destruct (Htree X node Hn) as (_ & Hl & _).
    split; [done|]. intros c Hd.
    destruct (Hcomplete i j X c Hd) as (node' & Hn' & Hw).
    cbn [snd] in Hn'. rewrite Hn in Hn'. by injection Hn' as <-.
Qed.

(** X1: the tables [_Parse] returns for a CNF grammar recognise exactly
    the derivable symbols: a cell of [table] holds a rule with lhs [X] iff
    the matching cell of [trees] has a tree for [X] iff [X] derives the
    tokens of the span; and entries only exist for spans [0 <= i <= j < n]. *)
Theorem _Parse_recognizes `{RT : Runtime} (gr : Grammar) (g : CnfWrapper)
    (s : list string) :
  CnfWrapper_init gr = ret g ->
  forall table trees,
    _Parse s g = ret (table, trees) ->
    forall i j X,
      ((exists r, r ∈ table !!! (i, j) /\ lhs r = X) <->
       exists c, derives (rules gr) s i j X c) /\
      (is_Some ((trees !!! (i, j)) !! X) <->
       exists c, derives (rules gr) s i j X c) /\
      (is_Some ((trees !!! (i, j)) !! X) ->
       0 <= i <= j /\ j < Z.of_nat (length s)).
Proof.
  intros Hg table trees Hrun i j X.
  destruct (_Parse_cells gr g s table trees Hg Hrun i j X)
    as (Htab & Htree & _).
  split; [done|]. split; [done|].
  intros [c Hd]%Htree. by apply (derives_range gr s i j X c).
Qed.

Lemma _Parse_recognizes_witness :
  CnfWrapper_init sample_cnf = ret sample_wrapper /\
  forall table trees,
    _Parse (RT := PyRe.runtime) ["a"; "b"] sample_wrapper = ret (table, trees) ->
    forall i j X,
      ((exists r, r ∈ table !!! (i, j) /\ lhs r = X) <->
       exists c, derives (RT := PyRe.runtime) (rules sample_cnf) ["a"; "b"]
                         i j X c) /\
      (is_Some ((trees !!! (i, j)) !! X) <->
       exists c, derives (RT := PyRe.runtime) (rules sample_cnf) ["a"; "b"]
                         i j X c) /\
      (is_Some ((trees !!! (i, j)) !! X) ->
       0 <= i <= j /\ j < Z.of_nat (length ["a"; "b"])).
Proof.
  split; [vm_compute; reflexivity|].
  apply (_Parse_recognizes (RT := PyRe.runtime) sample_cnf sample_wrapper).
  vm_compute; reflexivity.
Defined.

(** ** Acceptance by [parse] *)

(** X2: for a parser whose grammar is a constructed [CnfWrapper] and tokens
    that compile as patterns, [parse] raises [ParseError] iff the start
    symbol does not derive the whole input; when it does, the lookup of the
    lightest tree succeeds and [parse] returns what [_ToTree] gives for the
    reverted tree. *)
Theorem parse_rejects_iff_underivable `{RT : Runtime} (gr : Grammar)
    (self : Parser) (tokenized : list string) :
  CnfWrapper_init gr = ret (parser_grammar self) ->
  tokens_compile tokenized ->
  let n := Z.of_nat (length tokenized) in
  (parse self tokenized = raise ParseError <->
   ~ exists c, derives (rules gr) tokenized 0 (n - 1) (start self) c) /\
  ((exists c, derives (rules gr) tokenized 0 (n - 1) (start self) c) ->
   exists table trees node,
     _Parse tokenized (parser_grammar self) = ret (table, trees) /\
     (trees !!! (0, n - 1)) !! start self = Some node /\
     (forall c, derives (rules gr) tokenized 0 (n - 1) (start self) c ->
                node_weight node <= c) /\
     parse self tokenized =
       (reverted <- RevertCnf (inr node) ;;
        _ToTree (orig_rules self) reverted)).
Proof.
  intros Hg HC n.
  destruct (_Parse_runs gr (parser_grammar self) tokenized Hg) as [_ Hex].
  destruct (Hex HC) as ([table trees] & Hrun).
  pose proof (_Parse_cells gr (parser_grammar self) tokenized table trees
                Hg Hrun 0 (n - 1) (start self)) as (Htab & Htree & Hbest).
  split.
  - rewrite parse_ParseError_iff. fold n. rewrite <- Htab. split.
    + intros (table' & trees' & Hrun' & Hall) (r & Hr & Hl).
      rewrite Hrun in Hrun'. injection Hrun' as <- <-. by apply (Hall r).
    + intros Hno. exists table, trees. split; [done|].
      intros r Hr Hl. apply Hno. eauto.
  - intros Hd. pose proof Hd as [node Hn]%Htree.
    exists table, trees, node. split; [done|]. split; [done|].
    destruct (Hbest node Hn) as (Hl & Hmin).
    split; [done|].
    unfold parse. rewrite Hrun. cbn [bind ret]. fold n.
    assert (Hacc : no_start_rule self table n = false).
    { apply Htab in Hd as (r & Hr & Hlr).
      apply not_true_is_false. unfold no_start_rule.
      rewrite forallb_forall. intros Hall.
      specialize (Hall r). unfold Symbol_neb in Hall.
      rewrite <- Hlr, Symbol_eqb_refl in Hall.
      assert (false = true); [|done]. apply Hall, list_elem_of_In.
      by rewrite (iter_order_perm _ _). }
    rewrite Hacc. unfold getitem.
    assert (Hs : NT (Symbol_str (start self)) = start self)
      by (by rewrite <- Hl).
    by rewrite Hs, Hn.
Qed.

Lemma sample_tokens_compile :
  tokens_compile (RT := PyRe.runtime) ["a"; "b"].
Proof.
  intros w Hw.
  repeat (apply elem_of_cons in Hw as [->|Hw];
          [eexists; vm_compute; reflexivity|]).
  by apply elem_of_nil in Hw.
Qed.

Lemma parse_rejects_iff_underivable_witness :
  let gr := grammar (parser_grammar sample_parser) in
  let n := Z.of_nat (length ["a"; "b"]) in
  Parser_init (RT := PyRe.runtime) 0 sample_lark_rules "S" =
    Some (ret sample_parser) /\
  CnfWrapper_init gr = ret (parser_grammar sample_parser) /\
  tokens_compile (RT := PyRe.runtime) ["a"; "b"] /\
  (parse (RT := PyRe.runtime) sample_parser ["a"; "b"] = raise ParseError <->
   ~ exists c, derives (RT := PyRe.runtime) (rules gr) ["a"; "b"] 0 (n - 1)
                       (start sample_parser) c) /\
  ((exists c, derives (RT := PyRe.runtime) (rules gr) ["a"; "b"] 0 (n - 1)
                      (start sample_parser) c) ->
   exists table trees node,
     _Parse (RT := PyRe.runtime) ["a"; "b"] (parser_grammar sample_parser) =
       ret (table, trees) /\
     (trees !!! (0, n - 1)) !! start sample_parser = Some node /\
     (forall c, derives (RT := PyRe.runtime) (rules gr) ["a"; "b"] 0 (n - 1)
                        (start sample_parser) c ->
                node_weight node <= c) /\
     parse (RT := PyRe.runtime) sample_parser ["a"; "b"] =
       (reverted <- RevertCnf (inr node) ;;
        _ToTree (orig_rules sample_parser) reverted)).
Proof.
  split; [vm_compute; reflexivity|].
  split; [vm_compute; reflexivity|].
  split; [exact sample_tokens_compile|].
  apply (parse_rejects_iff_underivable (RT := PyRe.runtime)
           (grammar (parser_grammar sample_parser)) sample_parser ["a"; "b"]).
  - vm_compute; reflexivity.
  - exact sample_tokens_compile.
Defined.

(** ** Splitting long rules *)

Lemma map_result_total {A B : Type} (f : A -> result B) (f' : A -> B)
    (l : list A) :
  (forall x, x ∈ l -> f x = ret (f' x)) -> map_result f l = ret (map f' l).
Proof.
  induction l as [|x l IH]; intros Hf; [done|].
  cbn [map_result map]. rewrite Hf by left. cbn [bind ret].
  rewrite IH by (intros; apply Hf; by right). done.
Qed.

Lemma index_lookup_total `{Inhabited A} (l : list A) (i : nat) :
  (i < length l)%nat -> index l i = ret (l !!! i).
Proof.
  intros Hi. unfold index.
  destruct (lookup_lt_is_Some_2 l i Hi) as [a Ha].
  rewrite Ha. by rewrite (list_lookup_total_correct _ _ _ Ha).
Qed.

Lemma rule_name_format_prefix (s : string) (i : Z) :
  String.prefix "__SP_" (rule_name_format s i) = true.
Proof.
  unfold rule_name_format.
  change (String.prefix "" (s +:+ "_" +:+ pretty i) = true).
  by destruct (s +:+ "_" +:+ pretty i).
Qed.

Lemma Split_closed_form (rule : Rule) :
  (2 <= length (rhs rule))%nat ->
  has_percent (Rule_split_str rule) = false ->
  Split rule =
    ret (mkRule (lhs_s rule)
           [rhs rule !!! 0%nat; NT (rule_name_format (Rule_split_str rule) 1)]
           (weight rule) (alias rule) ::
         map (Split_middle rule)
             (seqZ 1 (Z.of_nat (length (rhs rule)) - 3)) ++
         [Split_last rule]).
Proof.
  intros Hlen Hp. unfold Split. fold (Rule_split_str rule).
  rewrite index_lookup_total by lia. cbn [bind ret]. rewrite Hp.
  rewrite (map_result_total _ (Split_middle rule)).
  - cbn [bind ret]. unfold xrange.
    by replace (Z.of_nat (length (rhs rule)) - 2 - 1)
      with (Z.of_nat (length (rhs rule)) - 3) by lia.
  - intros i [Hi1 Hi2]%elem_of_xrange.
    rewrite index_lookup_total by lia. done.
Qed.

Lemma Split_tail (rule : Rule) (d : nat) (k : Z) :
  1 <= k -> k + Z.of_nat d = Z.of_nat (length (rhs rule)) - 2 ->
  let tl := map (Split_middle rule) (seqZ k (Z.of_nat d))
            ++ [Split_last rule] in
  chain_expand tl = drop (Z.to_nat k) (rhs rule) /\
  chain_linked tl /\
  (exists r rest, tl = r :: rest /\
     lhs_s r = rule_name_format (Rule_split_str rule) k) /\
  Forall split_fragment tl /\
  length tl = S d.
Proof.
  revert k. induction d as [|d IH]; intros k Hk Hd tl; subst tl.
  - rewrite seqZ_nil by lia. cbn [map app chain_expand chain_linked].
    assert (Hk' : Z.to_nat k = (length (rhs rule) - 2)%nat) by lia.
    split_and!.
    + unfold Split_last, last_two. cbn [rhs]. by rewrite Hk'.
    + done.
    + eexists _, _. split; [done|]. cbn [Split_last lhs_s].
      f_equal. lia.
    + constructor; [|constructor].
      unfold split_fragment, Split_last, last_two.
      cbn [weight alias lhs_s rhs isinstance_UnitSkipRule].
      split_and!; try done.
      * apply rule_name_format_prefix.
      * rewrite length_drop. lia.
    + done.
  - rewrite seqZ_cons by lia.
    replace (Z.pred (Z.of_nat (S d))) with (Z.of_nat d) by lia.
    cbn [map app].
    destruct (IH (Z.succ k)) as (He & Hl & (r & rest & Htl & Hr) & HF & Hn);
      [lia|lia|].
    cbn zeta in He, Hl, Htl, HF, Hn.
    set (tl := map (Split_middle rule) (seqZ (Z.succ k) (Z.of_nat d))
               ++ [Split_last rule]) in *.
    clearbody tl. subst tl.
    assert (Hlk : (Z.to_nat k < length (rhs rule))%nat) by lia.
    destruct (lookup_lt_is_Some_2 _ _ Hlk) as [x Hx].
    split_and!.
    + change (chain_expand (Split_middle rule k :: r :: rest))
        with (take 1 (rhs (Split_middle rule k)) ++ chain_expand (r :: rest)).
      rewrite He. unfold Split_middle. cbn [rhs take app].
      rewrite (list_lookup_total_correct _ _ _ Hx).
      rewrite (drop_S _ _ _ Hx). f_equal. f_equal. lia.
    + change (rhs (Split_middle rule k) !! 1%nat = Some (lhs r) /\
              chain_linked (r :: rest)).
      split; [|done].
      unfold Split_middle. cbn [rhs]. unfold lhs. rewrite Hr.
      by replace (k + 1) with (Z.succ k) by lia.
    + eexists _, _. split; [done|]. done.
    + constructor; [|done].
      unfold split_fragment, Split_middle.
      cbn [weight alias lhs_s rhs isinstance_UnitSkipRule].
      split_and!; try done. apply rule_name_format_prefix.
    + cbn [length]. cbn [length] in Hn. lia.
Qed.

(** X3 ([Split]): for a rule with at least three symbols on its right-hand
    side and no [%] in its name, [Split] returns a chain of
    [len(rhs) - 1] binary rules.  The first rule keeps the lhs, the weight
    and the alias of the rule; every other rule has weight 0, the alias
    [Split] and a fresh [__SP_] lhs; each rule ends with the lhs of the next
    one; and reading the chain back gives the right-hand side of the rule. *)
Theorem Split_chain (rule : Rule) :
  (3 <= length (rhs rule))%nat ->
  has_percent (Rule_split_str rule) = false ->
  exists first rest,
    Split rule = ret (first :: rest) /\
    length rest = (length (rhs rule) - 2)%nat /\
    lhs first = lhs rule /\ weight first = weight rule /\
    alias first = alias rule /\ length (rhs first) = 2%nat /\
    Forall split_fragment rest /\
    chain_linked (first :: rest) /\
    chain_expand (first :: rest) = rhs rule.
Proof.
  intros Hlen Hp.
  destruct (Split_tail rule (length (rhs rule) - 3) 1)
    as (He & Hl & (r & rest & Htl & Hr) & HF & Hn); [lia|lia|].
  cbn zeta in He, Hl, Htl, HF, Hn.
  rewrite Split_closed_form by (done || lia).
  replace (Z.of_nat (length (rhs rule) - 3))
    with (Z.of_nat (length (rhs rule)) - 3) in * by lia.
  set (tl := map (Split_middle rule)
               (seqZ 1 (Z.of_nat (length (rhs rule)) - 3))
             ++ [Split_last rule]) in *.
  clearbody tl. subst tl.
  assert (Hl0 : (0 < length (rhs rule))%nat) by lia.
  destruct (lookup_lt_is_Some_2 _ _ Hl0) as [x Hx].
  eexists _, _. split; [done|]. split_and!; try done.
  - rewrite Hn. lia.
  - split; [|done]. cbn [rhs]. unfold lhs. by rewrite Hr.
  - match goal with
    | |- chain_expand (?f :: _) = _ =>
        change (take 1 (rhs f) ++ chain_expand (r :: rest) = rhs rule)
    end.
    cbn [rhs take app]. rewrite He.
    rewrite (list_lookup_total_correct _ _ _ Hx).
    change (Z.to_nat 1) with 1%nat.
    by rewrite <- (drop_S _ _ _ Hx), drop_0.
Qed.

Lemma Split_chain_witness :
  exists first rest,
    Split (mkRule "S" [NT "A"; NT "B"; NT "C"; NT "D"] 7 "r")
      = ret (first :: rest) /\
    length rest = 2%nat /\ weight first = 7 /\
    chain_expand (first :: rest) = [NT "A"; NT "B"; NT "C"; NT "D"].
Proof.
  destruct (Split_chain (mkRule "S" [NT "A"; NT "B"; NT "C"; NT "D"] 7 "r"))
    as (first & rest & HS & Hn & _ & Hw & _ & _ & _ & _ & He);
    [cbn; lia|reflexivity|].
  exists first, rest. split_and!; done.
Defined.

(** ** Binarization *)

Lemma elem_of_concat_map {A B : Type} (f : A -> list B) (l : list A) (y : B) :
  y ∈ concat (map f l) <-> exists x, x ∈ l /\ y ∈ f x.
Proof.
  induction l as [|a l IH]; cbn [map concat].
  - split; [by intros ?%elem_of_nil|by intros (? & ?%elem_of_nil & _)].
  - rewrite elem_of_app, IH. split.
    + intros [Hy|(x & Hx & Hy)]; [exists a|exists x]; split; try done;
        [left|by right].
    + intros (x & [->|Hx]%elem_of_cons & Hy); [by left|right; eauto].
Qed.

Lemma length_concat_map {A B : Type} (f : A -> list B) (l : list A) :
  length (concat (map f l)) = sum_list_with (fun x => length (f x)) l.
Proof.
  induction l as [|a l IH]; [done|].
  cbn [map concat sum_list_with]. by rewrite length_app, IH.
Qed.

Lemma Split_rules_length (rule : Rule) :
  (3 <= length (rhs rule))%nat ->
  length (Split_rules rule) = (length (rhs rule) - 1)%nat.
Proof.
  intros Hlen. unfold Split_rules.
  cbn [length]. rewrite length_app, length_map, length_seqZ. cbn [length]. lia.
Qed.

Lemma Split_rules_elem (rule r' : Rule) :
  (3 <= length (rhs rule))%nat -> r' ∈ Split_rules rule ->
  length (rhs r') = 2%nat /\ isinstance_UnitSkipRule r' = false /\
  (forall x, x ∈ rhs r' -> x ∈ rhs rule \/ isinstance_NT x = true).
Proof.
  intros Hlen. unfold Split_rules.
  rewrite elem_of_cons, elem_of_app, list_elem_of_fmap, list_elem_of_singleton.
  intros [->|[(i & -> & Hi)| -> ]].
  - split_and!; [done..|]. cbn [rhs].
    intros x [->|[->|[]%elem_of_nil]%elem_of_cons]%elem_of_cons;
      [left|by right].
    apply list_elem_of_lookup_total_2. lia.
  - apply elem_of_seqZ in Hi. split_and!; [done..|].
    unfold Split_middle. cbn [rhs].
    intros x [->|[->|[]%elem_of_nil]%elem_of_cons]%elem_of_cons;
      [left|by right].
    apply list_elem_of_lookup_total_2. lia.
  - unfold Split_last, last_two. cbn [rhs isinstance_UnitSkipRule].
    split_and!; [rewrite length_drop; lia|done|].
    intros x Hx. left. revert Hx. apply subseteq_drop.
Qed.

Lemma Bin_closed_form (g : Grammar) :
  (forall r, r ∈ rules g -> (2 < length (rhs r))%nat ->
             has_percent (Rule_split_str r) = false) ->
  Bin g = ret (Grammar_init (concat (map Bin_image (rules g)))).
Proof.
  intros Hp. unfold Bin.
  rewrite (extend_each_total _ Bin_image); [done|].
  intros r Hr. unfold Bin_image. case_bool_decide as Hlen; [|done].
  apply Split_closed_form; [lia|by apply Hp].
Qed.

(** X4 ([Bin]): when no rule with more than two right-hand-side symbols has
    a [%] in its name, [Bin] returns a grammar whose rules are the rules of
    [g] with at most two symbols, unchanged, and the rules [Split] returns
    for the longer ones; no rule of the result has more than two symbols,
    and a rule with [n >= 3] symbols accounts for [n - 1] rules. *)
Theorem Bin_binarizes (g : Grammar) :
  (forall r, r ∈ rules g -> (2 < length (rhs r))%nat ->
             has_percent (Rule_split_str r) = false) ->
  exists g',
    Bin g = ret g' /\
    (forall r', r' ∈ rules g' <->
       exists r, r ∈ rules g /\
         if bool_decide (2 < length (rhs r))%nat
         then exists out, Split r = ret out /\ r' ∈ out
         else r' = r) /\
    Forall (fun r' => (length (rhs r') <= 2)%nat) (rules g') /\
    length (rules g') =
      sum_list_with (fun r => Nat.max 1 (length (rhs r) - 1)) (rules g).
Proof.
  intros Hp. eexists. split; [by apply Bin_closed_form|].
  assert (Hel : forall r',
    r' ∈ rules (Grammar_init (concat (map Bin_image (rules g)))) <->
    exists r, r ∈ rules g /\ r' ∈ Bin_image r).
  { intros r'. by rewrite elem_of_Grammar_init, elem_of_concat_map. }
  split_and!.
  - intros r'. rewrite Hel. split; intros (r & Hr & Hr'); exists r;
      (split; [done|]); revert Hr'; unfold Bin_image;
      case_bool_decide as Hlen; try (by rewrite list_elem_of_singleton).
    + intros Hr'. exists (Split_rules r). split; [|done].
      apply Split_closed_form; [lia|by apply Hp].
    + intros (out & Hout & Hr').
      rewrite Split_closed_form in Hout by (lia || by apply Hp).
      injection Hout as <-. done.
  - apply Forall_forall. intros r' (r & Hr & Hr')%Hel. revert Hr'.
    unfold Bin_image. case_bool_decide as Hlen.
    + intros (-> & _)%Split_rules_elem; lia.
    + intros ->%list_elem_of_singleton. lia.
  - unfold Grammar_init. cbn [rules].
    rewrite (Permutation_length (sorted_Permutation _ _)), length_concat_map.
    apply sum_list_with_eq. intros r Hr. unfold Bin_image.
    case_bool_decide as Hlen; [rewrite Split_rules_length|cbn [length]]; lia.
Qed.

Lemma Bin_binarizes_witness :
  exists g',
    Bin (mkGrammar [mkRule "S" [NT "A"; NT "B"; NT "C"; NT "D"] 7 "r";
                    mkRule "A" [T "a"] 0 "a"]) = ret g' /\
    length (rules g') = 4%nat.
Proof.
  destruct (Bin_binarizes
              (mkGrammar [mkRule "S" [NT "A"; NT "B"; NT "C"; NT "D"] 7 "r";
                          mkRule "A" [T "a"] 0 "a"]))
    as (g' & HB & _ & _ & Hn).
  - intros r Hr _. cbn [rules] in Hr.
    apply elem_of_cons in Hr as [->|Hr]; [reflexivity|].
    apply list_elem_of_singleton in Hr as ->. reflexivity.
  - exists g'. split; [done|]. by rewrite Hn.
Defined.

(** ** The whole conversion *)

Lemma has_percent_app (a b : string) :
  has_percent (a +:+ b) = has_percent a || has_percent b.
Proof.
  unfold has_percent. induction a as [|c a IH]; [done|].
  change (String c a +:+ b) with (String c (a +:+ b)).
  cbn [String.list_ascii_of_string existsb].
  by rewrite IH, orb_assoc.
Qed.

Lemma has_percent_concat (sep : string) (l : list string) :
  has_percent sep = false ->
  Forall (fun x => has_percent x = false) l ->
  has_percent (String.concat sep l) = false.
Proof.
  intros Hs. induction 1 as [|x l Hx Hl IH]; [done|].
  destruct l as [|y l]; [done|].
  change (String.concat sep (x :: y :: l))
    with (x +:+ sep +:+ String.concat sep (y :: l)).
  by rewrite !has_percent_app, Hx, Hs, IH.
Qed.

Lemma Rule_split_str_no_percent (r : Rule) :
  has_percent (lhs_s r) = false ->
  (forall x, x ∈ rhs r -> has_percent (Symbol_str x) = false) ->
  has_percent (Rule_split_str r) = false.
Proof.
  intros Hl Hr. unfold Rule_split_str. rewrite !has_percent_app.
  cbn [lhs Symbol_str]. rewrite Hl.
  rewrite has_percent_concat; [done..|].
  apply Forall_forall. intros s (x & -> & Hx)%list_elem_of_fmap.
  by apply Hr.
Qed.

Lemma rhs_erase (r : Rule) : rhs (erase r) = rhs r.
Proof. by destruct r. Qed.

Lemma Rule_eqb_rhs (x r : Rule) : Rule_eqb x r = true -> rhs x = rhs r.
Proof.
  intros H%Rule_eqb_erase. by rewrite <- (rhs_erase x), H, rhs_erase.
Qed.

Lemma RemoveUnitRule_elem (g g' : Grammar) (rule : Rule) (b : string) :
  rhs rule = [NT b] -> RemoveUnitRule g rule = ret g' ->
  forall r', r' ∈ rules g' <->
    (r' ∈ rules g /\ Rule_neb r' rule = true) \/
    (exists t, t ∈ rules g /\ lhs t = NT b /\
               r' = BuildUnitSkipRule rule t).
Proof.
  intros Hrhs HR r'. rewrite (RemoveUnitRule_unit _ _ _ _ Hrhs) in HR.
  injection HR as <-.
  rewrite elem_of_Grammar_init, elem_of_app, elem_of_filter_list,
    list_elem_of_fmap.
  split; (intros [H|H]; [by left|right]).
  - destruct H as (t & -> & [Ht He]%elem_of_filter_list).
    exists t. split_and!; try done. by apply Symbol_eqb_eq.
  - destruct H as (t & Ht & Hl & ->). exists t. split; [done|].
    apply elem_of_filter_list. split; [done|].
    by apply (Symbol_eqb_eq (lhs t) (NT b)).
Qed.

Lemma Unit_never_raises (fuel : nat) :
  forall g res, Unit fuel g = Some res -> exists g', res = ret g'.
Proof.
  induction fuel as [|fuel IH]; intros g res; cbn [Unit];
    destruct (GetAnyNtUnitRule g) as [rule|] eqn:HG;
    try (intros [= <-]; eauto; fail); try done.
  destruct (GetAnyNtUnitRule_Some _ _ HG) as [_ [b Hb]].
  rewrite (RemoveUnitRule_unit _ _ _ _ Hb). apply IH.
Qed.

Lemma Unit_rules (fuel : nat) :
  forall g g', Unit fuel g = Some (ret g') ->
    GetAnyNtUnitRule g' = None /\
    (forall r', r' ∈ rules g' -> exists r, r ∈ rules g /\ rhs r' = rhs r) /\
    (forall r', r' ∈ rules g' -> exists r, r ∈ rules g /\ lhs r' = lhs r) /\
    (forall r, r ∈ rules g -> is_nt_unit_rule r = false -> r ∈ rules g').
Proof.
  induction fuel as [|fuel IH]; intros g g'; cbn [Unit];
    destruct (GetAnyNtUnitRule g) as [rule|] eqn:HG;
    try (intros [= <-]; split_and!; eauto; fail); try done.
  destruct (GetAnyNtUnitRule_Some _ _ HG) as [Hrule [b Hb]].
  destruct (RemoveUnitRule g rule) as [e|g1] eqn:HR; [done|].
  intros HU. destruct (IH _ _ HU) as (HN & Hrhs & Hlhs & Hkept).
  pose proof (RemoveUnitRule_elem _ _ _ _ Hb HR) as Hel.
  split_and!; [done|..].
  - intros r' (r1 & Hr1 & ->)%Hrhs.
    apply Hel in Hr1 as [[Hr1 _]|(t & Ht & _ & ->)]; eauto.
  - intros r' (r1 & Hr1 & ->)%Hlhs.
    apply Hel in Hr1 as [[Hr1 _]|(t & Ht & _ & ->)]; eauto.
  - intros r Hr Hnu. apply Hkept; [|done]. apply Hel. left.
    split; [done|]. unfold Rule_neb.
    destruct (Rule_eqb r rule) eqn:He; [|done].
    apply Rule_eqb_rhs in He.
    assert (is_nt_unit_rule r = true) by (apply is_nt_unit_rule_rhs; eauto
                                          using eq_trans).
    congruence.
Qed.

Lemma existsb_false_Forall {A : Type} (f : A -> bool) (l : list A) :
  existsb f l = false -> Forall (fun x => f x = false) l.
Proof.
  induction l as [|x l IH]; cbn [existsb]; [done|].
  intros [Hx Hl]%orb_false_elim. constructor; auto.
Qed.

Lemma term_nt_NT (x : Symbol) : isinstance_NT (term_nt x) = true.
Proof. by destruct x. Qed.

Lemma Term_image_cases (rule r1 : Rule) :
  r1 ∈ Term_image rule ->
  r1 = rule /\ term_rewrites rule = false \/
  term_rewrites rule = true /\
  (r1 = mkRule (lhs_s rule) (map term_nt (rhs rule)) (weight rule)
               (alias rule) \/
   exists t, r1 = term_unit_rule (T t)).
Proof.
  unfold Term_image. destruct (term_rewrites rule);
    [|intros ->%list_elem_of_singleton; by left].
  intros [->|H]%elem_of_cons; right; (split; [done|]); [by left|right].
  apply list_elem_of_fmap in H as (x & -> & Hx).
  apply elem_of_remove_dups, elem_of_filter_list in Hx as [_ HT].
  destruct x; [eauto|done].
Qed.

Lemma Term_phase `{RT : Runtime} (g : Grammar) :
  (forall r, r ∈ rules g -> rhs r <> []) ->
  (forall r, r ∈ rules g -> (2 < length (rhs r))%nat ->
     has_percent (lhs_s r) = false /\
     forall x, x ∈ rhs r -> has_percent (Symbol_str x) = false) ->
  exists g1, Term g = ret g1 /\
    forall r1, r1 ∈ rules g1 ->
      rhs r1 <> [] /\
      ((1 < length (rhs r1))%nat ->
       Forall (fun x => isinstance_NT x = true) (rhs r1)) /\
      ((2 < length (rhs r1))%nat ->
       has_percent (Rule_split_str r1) = false) /\
      (is_nt_unit_rule r1 = true -> r1 ∈ rules g).
Proof.
  intros H1 H2. destruct (Term_total g) as (g1 & HT & Hperm).
  exists g1. split; [done|]. intros r1 Hr1.
  rewrite Hperm in Hr1. apply elem_of_concat_map in Hr1 as (rule & Hrule & Hr1).
  apply Term_image_cases in Hr1 as [[-> Hn]|[Hy [->|[t ->]]]].
  - split_and!; [by apply H1| | |done].
    + intros Hlen. unfold term_rewrites in Hn.
      rewrite bool_decide_eq_true_2 in Hn by done.
      apply existsb_false_Forall in Hn.
      eapply Forall_impl; [exact Hn|]. by intros [].
    + intros Hlen. destruct (H2 _ Hrule Hlen).
      by apply Rule_split_str_no_percent.
  - unfold term_rewrites in Hy. apply andb_prop in Hy as [Hy _].
    apply bool_decide_eq_true_1 in Hy. cbn [rhs].
    split_and!.
    + intros Hm. apply (f_equal length) in Hm.
      rewrite length_map in Hm. cbn in Hm. lia.
    + intros _. apply Forall_forall.
      intros x' (x & -> & _)%list_elem_of_fmap. apply term_nt_NT.
    + rewrite length_map. intros Hlen. destruct (H2 _ Hrule Hlen) as [Hl Hr].
      apply Rule_split_str_no_percent; [done|]. cbn [rhs].
      intros x' (x & -> & Hx)%list_elem_of_fmap.
      specialize (Hr _ Hx). destruct x as [t|n]; [|done].
      cbn [term_nt Symbol_str] in *. by rewrite has_percent_app, Hr.
    + intros (b & Hb)%is_nt_unit_rule_rhs. cbn [rhs] in Hb.
      apply (f_equal length) in Hb. rewrite length_map in Hb. cbn in Hb. lia.
  - cbn. split_and!; [done|lia|lia|done].
Qed.

Lemma Bin_phase (g1 : Grammar) :
  (forall r1, r1 ∈ rules g1 ->
     rhs r1 <> [] /\
     ((1 < length (rhs r1))%nat ->
      Forall (fun x => isinstance_NT x = true) (rhs r1)) /\
     ((2 < length (rhs r1))%nat ->
      has_percent (Rule_split_str r1) = false)) ->
  exists g2, Bin g1 = ret g2 /\
    forall r2, r2 ∈ rules g2 ->
      pre_cnf r2 /\ (is_nt_unit_rule r2 = true -> r2 ∈ rules g1).
Proof.
  intros H1. eexists. split.
  { apply Bin_closed_form. intros r Hr. by apply H1. }
  intros r2. rewrite elem_of_Grammar_init, elem_of_concat_map.
  intros (r1 & Hr1 & Hr2). destruct (H1 _ Hr1) as (Hne & HNT & _).
  revert Hr2. unfold Bin_image. case_bool_decide as Hlen.
  - intros (Hl & _ & Hx)%Split_rules_elem; [|lia].
    split.
    + split_and!; [by intros Hm; rewrite Hm in Hl|lia|].
      intros _. apply Forall_forall. intros x [Hx'|Hx']%Hx; [|done].
      assert (HF := HNT ltac:(lia)). by rewrite Forall_forall in HF; apply HF.
    + intros (b & Hb)%is_nt_unit_rule_rhs. by rewrite Hb in Hl.
  - intros ->%list_elem_of_singleton. split; [|done].
    split_and!; [done|lia|done].
Qed.

Lemma pre_cnf_cnf_shape (r : Rule) :
  pre_cnf r -> is_nt_unit_rule r = false -> cnf_shape r.
Proof.
  intros (Hne & Hlen & HNT). unfold is_nt_unit_rule, cnf_shape.
  destruct (rhs r) as [|x [|y [|z l]]] eqn:Hr; [done| | |cbn in Hlen; lia].
  - destruct x as [t|n]; [|done]. intros _. split; [done|]. left. eauto.
  - intros _. split; [done|]. right.
    assert (HF := HNT ltac:(cbn; lia)).
    apply Forall_cons in HF as [Hx [Hy _]%Forall_cons].
    destruct x, y; try done. eauto.
Qed.

Lemma pre_cnf_rhs (r r' : Rule) : rhs r' = rhs r -> pre_cnf r -> pre_cnf r'.
Proof. unfold pre_cnf. by intros ->. Qed.

(** X5 ([ToCnf]): a grammar that has no rule with an empty right-hand
    side, no [%] in the names of its rules with more than two symbols, and
    no cycle of unit rules is converted: [Term] and [Bin] return, the loop
    of [Unit] ends, and the result passes the checks of [CnfWrapper], so
    every rule of the wrapper has a single terminal or two non-terminals as
    its right-hand side. *)
Theorem ToCnf_succeeds `{RT : Runtime} (g : Grammar) :
  (forall r, r ∈ rules g -> rhs r <> []) ->
  (forall r, r ∈ rules g -> (2 < length (rhs r))%nat ->
     has_percent (lhs_s r) = false /\
     forall x, x ∈ rhs r -> has_percent (Symbol_str x) = false) ->
  unit_acyclic (rules g) ->
  exists fuel w,
    (forall fuel', (fuel <= fuel')%nat -> ToCnf fuel' g = Some (ret w)) /\
    Forall cnf_shape (cnf_rules w).
Proof.
  intros H1 H2 Hac.
  destruct (Term_phase g H1 H2) as (g1 & HT & Hg1).
  destruct (Bin_phase g1) as (g2 & HB & Hg2).
  { intros r1 Hr1. destruct (Hg1 _ Hr1) as (? & ? & ? & _). done. }
  assert (Hac2 : unit_acyclic (rules g2)).
  { intros a Ha. apply (Hac a).
    apply (tc_congruence id (unit_step (rules g))) in Ha; [done|].
    intros x y (r & Hr & Hl & Hrhs & Hy). exists r. split_and!; try done.
    destruct (Hg2 _ Hr) as [_ Hu]. destruct y as [|b]; [done|].
    assert (Hnu : is_nt_unit_rule r = true)
      by (apply is_nt_unit_rule_rhs; eauto).
    destruct (Hg1 _ (Hu Hnu)) as (_ & _ & _ & Hin). by apply Hin. }
  destruct (Unit_terminates_measure (length (unit_edges (rules g2)))
              (S (unit_measure (unit_edges (rules g2))
                               (length (unit_edges (rules g2))))) g2)
    as (fuel & g3 & HU & HN); [lia| |].
  { by apply acyclic_paths_bounded, unit_acyclic_edges. }
  destruct (Unit_rules _ _ _ HU) as (_ & Hrhs & _ & _).
  assert (Hcnf : Forall cnf_shape (rules g3)).
  { apply Forall_forall. intros r3 Hr3.
    destruct (Hrhs _ Hr3) as (r2 & Hr2 & He).
    apply pre_cnf_cnf_shape.
    - apply (pre_cnf_rhs r2); [done|]. by apply Hg2.
    - by eapply GetAnyNtUnitRule_None in HN. }
  destruct (CnfWrapper_loop_ok _ (∅, ∅) Hcnf) as [st Hst].
  exists fuel, (mkCnfWrapper g3 st.1 st.2). split; [|done].
  intros fuel' Hf. unfold ToCnf. rewrite HT. cbn [bind ret]. rewrite HB.
  unfold ret at 1. rewrite (Unit_fuel_mono _ _ _ _ HU Hf).
  unfold ret at 1. unfold CnfWrapper_init. by rewrite Hst.
Qed.

Lemma ToCnf_succeeds_witness :
  exists fuel w,
    ToCnf (RT := PyRe.runtime) fuel sample_long = Some (ret w) /\
    Forall cnf_shape (cnf_rules w).
Proof.
  destruct (ToCnf_succeeds (RT := PyRe.runtime) sample_long)
    as (fuel & w & Hw & Hs).
  - intros r [->|[->|[->|[]%elem_of_nil]%elem_of_cons]%elem_of_cons]%elem_of_Grammar_init%elem_of_cons; done.
  - intros r [->|[->|[->|[]%elem_of_nil]%elem_of_cons]%elem_of_cons]%elem_of_Grammar_init%elem_of_cons;
      cbn [rhs length]; try lia.
    intros _. split; [reflexivity|].
    intros x [->|[->|[->|[]%elem_of_nil]%elem_of_cons]%elem_of_cons]%elem_of_cons; reflexivity.
  - apply (ranked_unit_acyclic _
             (fun x => match x with NT "A" => 1%nat | _ => 0%nat end)).
    intros r b [->|[->|[->|[]%elem_of_nil]%elem_of_cons]%elem_of_cons]%elem_of_Grammar_init%elem_of_cons;
      cbn [rhs]; intros [= <-]; cbn; lia.
  - exists fuel, w. split; [by apply Hw|done].
Defined.

Lemma extend_each_raise {A B : Type} (f : A -> result (list B)) (l : list A)
    (e : exn) :
  extend_each f l = raise e -> exists x, x ∈ l /\ f x = raise e.
Proof.
  induction l as [|x l IH]; cbn [extend_each]; [done|].
  destruct (f x) as [e'|ys] eqn:Hx; cbn [bind].
  - intros [= ->]. exists x. split; [left|done].
  - destruct (extend_each f l) as [e'|rest]; cbn [bind]; [|done].
    intros [= ->]. destruct IH as (y & Hy & Hfy); [done|].
    exists y. split; [by right|done].
Qed.

Lemma extend_each_ret_elem {A B : Type} (f : A -> result (list B))
    (l : list A) (out : list B) (x : A) :
  extend_each f l = ret out -> x ∈ l ->
  exists ys, f x = ret ys /\ forall y, y ∈ ys -> y ∈ out.
Proof.
  revert out. induction l as [|a l IH]; intros out; cbn [extend_each];
    [by intros _ ?%elem_of_nil|].
  destruct (f a) as [e'|ys] eqn:Ha; cbn [bind]; [done|].
  destruct (extend_each f l) as [e'|rest]; cbn [bind]; [done|].
  intros [= <-] [->|Hx]%elem_of_cons.
  - exists ys. split; [done|]. intros y Hy. apply elem_of_app. by left.
  - destruct (IH rest eq_refl Hx) as (zs & Hzs & Hin).
    exists zs. split; [done|]. intros y Hy. apply elem_of_app. right. auto.
Qed.

Lemma Split_raise (rule : Rule) (e : exn) :
  (2 < length (rhs rule))%nat -> Split rule = raise e -> e = FormatError.
Proof.
  intros Hlen. destruct (has_percent (Rule_split_str rule)) eqn:Hp.
  - unfold Split. fold (Rule_split_str rule).
    rewrite index_lookup_total by lia. cbn [bind ret]. rewrite Hp.
    by intros [= <-].
  - rewrite Split_closed_form by (done || lia). done.
Qed.

Lemma Bin_raise (g : Grammar) (e : exn) : Bin g = raise e -> e = FormatError.
Proof.
  unfold Bin.
  destruct (extend_each _ (rules g)) as [e'|out] eqn:HE; cbn [bind]; [|done].
  intros [= ->]. apply extend_each_raise in HE as (r & _ & Hr).
  case_bool_decide; [by eapply Split_raise|done].
Qed.

(** X6 ([ToCnf], [CnfWrapper.__init__]): epsilon rules are not removed by
    the conversion.  A grammar with a rule whose right-hand side is empty
    is never turned into a wrapper: when [ToCnf] ends, it ends with the
    [AssertionError] of [CnfWrapper.__init__], or with the error of the
    name formatting in [Split]. *)
Theorem ToCnf_epsilon_rule `{RT : Runtime} (g : Grammar) (r : Rule) :
  r ∈ rules g -> rhs r = [] ->
  forall fuel res, ToCnf fuel g = Some res ->
    res = raise AssertionError \/ res = raise FormatError.
Proof.
  intros Hr He fuel res. unfold ToCnf.
  destruct (Term_total g) as (g1 & HT & Hperm). rewrite HT. cbn [bind ret].
  assert (Hr1 : r ∈ rules g1).
  { rewrite Hperm. apply elem_of_concat_map. exists r. split; [done|].
    unfold Term_image, term_rewrites. rewrite He. cbn. left. }
  destruct (Bin g1) as [e|g2] eqn:HB.
  { apply Bin_raise in HB as ->. intros [= <-]. by right. }
  assert (Hr2 : r ∈ rules g2).
  { unfold Bin in HB.
    destruct (extend_each _ (rules g1)) as [e'|out] eqn:HE; cbn [bind] in HB;
      [done|]. injection HB as <-.
    apply elem_of_Grammar_init.
    destruct (extend_each_ret_elem _ _ _ _ HE Hr1) as (ys & Hys & Hin).
    rewrite He in Hys. cbn in Hys. injection Hys as <-. apply Hin. left. }
  destruct (Unit fuel g2) as [res'|] eqn:HU; [|done].
  destruct (Unit_never_raises _ _ _ HU) as [g3 ->].
  destruct (Unit_rules _ _ _ HU) as (_ & _ & _ & Hkept).
  assert (Hr3 : r ∈ rules g3).
  { apply Hkept; [done|]. unfold is_nt_unit_rule. by rewrite He. }
  intros [= <-]. left. unfold CnfWrapper_init.
  rewrite CnfWrapper_loop_fail; [done|].
  rewrite Forall_forall. intros HF. destruct (HF _ Hr3) as [_ [[t Ht]|(a & b & Hab)]];
    congruence.
Qed.

Lemma ToCnf_epsilon_rule_witness :
  exists res,
    ToCnf (RT := PyRe.runtime) 0 sample_epsilon = Some res /\
    (res = raise AssertionError \/ res = raise FormatError).
Proof.
  exists (raise AssertionError).
  assert (H : ToCnf (RT := PyRe.runtime) 0 sample_epsilon
              = Some (raise AssertionError)) by (vm_compute; reflexivity).
  split; [exact H|].
  apply (ToCnf_epsilon_rule (RT := PyRe.runtime) sample_epsilon
           (mkRule "A" [] 0 "e")) with (fuel := 0%nat); [|reflexivity|exact H].
  apply elem_of_Grammar_init. right. left.
Defined.

(** ** The order of the rules of a grammar *)

Lemma Ascii_compare_refl (c : ascii) : Ascii.compare c c = Eq.
Proof. apply N.compare_refl. Qed.

Lemma String_compare_refl (s : string) : String.compare s s = Eq.
Proof.
  induction s as [|c s IH]; [done|].
  cbn [String.compare]. by rewrite Ascii_compare_refl.
Qed.

Lemma String_compare_Lt_trans (a : string) :
  forall b c, String.compare a b = Lt -> String.compare b c = Lt ->
              String.compare a c = Lt.
Proof.
  induction a as [|x a IH]; intros [|y b] [|z c]; cbn [String.compare];
    try done.
  destruct (Ascii.compare x y) eqn:Hxy; try done;
    destruct (Ascii.compare y z) eqn:Hyz; try done.
  - apply Ascii.compare_eq_iff in Hxy as ->.
    apply Ascii.compare_eq_iff in Hyz as ->.
    rewrite Ascii_compare_refl. apply IH.
  - apply Ascii.compare_eq_iff in Hxy as ->. by rewrite Hyz.
  - apply Ascii.compare_eq_iff in Hyz as <-. by rewrite Hxy.
  - intros _ _. unfold Ascii.compare in *.
    apply N.compare_lt_iff in Hxy, Hyz.
    assert (H : N.compare (N_of_ascii x) (N_of_ascii z) = Lt)
      by (apply N.compare_lt_iff; by eapply N.lt_trans).
    by rewrite H.
Qed.

Lemma String_ltb_irrefl (a : string) : String.ltb a a = false.
Proof. unfold String.ltb. by rewrite String_compare_refl. Qed.

Lemma String_ltb_asym (a b : string) :
  String.ltb a b = true -> String.ltb b a = false.
Proof.
  unfold String.ltb. rewrite (String.compare_antisym b a).
  by destruct (String.compare a b).
Qed.

Lemma str_le_trans (a b c : string) : str_le a b -> str_le b c -> str_le a c.
Proof.
  unfold str_le, String.ltb. intros Hab Hbc.
  destruct (String.compare c a) eqn:Hca; try done.
  destruct (String.compare c b) eqn:Hcb; try done.
  - apply String.compare_eq_iff in Hcb as ->. by rewrite Hca in Hab.
  - assert (Hbc' : String.compare b c = Lt)
      by (by rewrite String.compare_antisym, Hcb).
    by rewrite (String_compare_Lt_trans _ _ _ Hbc' Hca) in Hab.
Qed.

Section Sorting.
Context {A : Type} (key : A -> string).

Lemma sorted_insert_sorted (x : A) (l : list A) :
  StronglySorted (fun a b => str_le (key a) (key b)) l ->
  StronglySorted (fun a b => str_le (key a) (key b)) (sorted_insert key x l).
Proof.
  induction 1 as [|y l Hl IH Hy]; cbn [sorted_insert].
  - repeat constructor.
  - destruct (String.ltb (key y) (key x)) eqn:Hlt.
    + constructor; [done|]. rewrite sorted_insert_Permutation.
      constructor; [|done]. by apply String_ltb_asym.
    + constructor; [by constructor|]. constructor; [done|].
      eapply Forall_impl; [exact Hy|]. intros z Hz.
      by apply (str_le_trans _ (key y)).
Qed.

Lemma sorted_sorted (l : list A) :
  StronglySorted (fun a b => str_le (key a) (key b)) (sorted key l).
Proof.
  induction l as [|x l IH]; cbn [sorted]; [constructor|].
  by apply sorted_insert_sorted.
Qed.

Lemma sorted_id (l : list A) :
  StronglySorted (fun a b => str_le (key a) (key b)) l -> sorted key l = l.
Proof.
  induction 1 as [|x l Hl IH Hx]; [done|].
  cbn [sorted]. rewrite IH. destruct l as [|y l]; [done|].
  cbn [sorted_insert]. apply Forall_cons in Hx as [Hxy _].
  unfold str_le in Hxy. by rewrite Hxy.
Qed.

Lemma sorted_insert_stable (k : string) (x : A) (l : list A) :
  List.filter (fun a => String.eqb (key a) k) (sorted_insert key x l) =
  List.filter (fun a => String.eqb (key a) k) (x :: l).
Proof.
  induction l as [|y l IH]; [done|]. cbn [sorted_insert].
  destruct (String.ltb (key y) (key x)) eqn:Hlt; [|done].
  cbn [List.filter] in *. rewrite IH.
  destruct (String.eqb (key x) k) eqn:Hx, (String.eqb (key y) k) eqn:Hy;
    try done.
  apply String.eqb_eq in Hx, Hy. subst k.
  by rewrite Hy, String_ltb_irrefl in Hlt.
Qed.

Lemma sorted_stable (k : string) (l : list A) :
  List.filter (fun a => String.eqb (key a) k) (sorted key l) =
  List.filter (fun a => String.eqb (key a) k) l.
Proof.
  induction l as [|x l IH]; [done|].
  cbn [sorted]. rewrite sorted_insert_stable. cbn [List.filter].
  by rewrite IH.
Qed.

End Sorting.

(** X7 ([Grammar.__init__]): the rules of [Grammar(rs)] are the rules [rs],
    each as often as in [rs], in non-decreasing order of [str(rule)]; rules
    with the same [str] keep the order they have in [rs]; and building a
    grammar from the rules of a grammar changes nothing. *)
Theorem Grammar_init_sorted (rs : list Rule) :
  rules (Grammar_init rs) ≡ₚ rs /\
  StronglySorted (fun r1 r2 => str_le (Rule_str r1) (Rule_str r2))
                 (rules (Grammar_init rs)) /\
  (forall k,
     List.filter (fun r => String.eqb (Rule_str r) k) (rules (Grammar_init rs))
     = List.filter (fun r => String.eqb (Rule_str r) k) rs) /\
  Grammar_init (rules (Grammar_init rs)) = Grammar_init rs.
Proof.
  unfold Grammar_init. cbn [rules]. split_and!.
  - apply sorted_Permutation.
  - apply sorted_sorted.
  - intros k. apply sorted_stable.
  - f_equal. apply sorted_id, sorted_sorted.
Qed.

(** ** Grammars that are in normal form already *)

Lemma concat_map_singleton {A : Type} (l : list A) :
  concat (map (fun x => [x]) l) = l.
Proof. induction l as [|x l IH]; [done|]. cbn. by rewrite IH. Qed.

Lemma cnf_shape_not_rewritten (r : Rule) :
  cnf_shape r ->
  term_rewrites r = false /\ (length (rhs r) <= 2)%nat /\
  is_nt_unit_rule r = false.
Proof.
  unfold term_rewrites, is_nt_unit_rule.
  intros [_ [[t ->]|(a & b & ->)]]; cbn; split_and!; done || lia.
Qed.

(** X8 ([ToCnf]): the conversion leaves a grammar alone that is in normal
    form already.  When every rule has a single terminal or two
    non-terminals as its right-hand side, [Term] and [Bin] return the
    grammar, [Unit] does not enter its loop, and the wrapper is built on
    the very same grammar. *)
Theorem ToCnf_cnf_fixpoint `{RT : Runtime} (rs : list Rule) (fuel : nat) :
  Forall cnf_shape rs ->
  Term (Grammar_init rs) = ret (Grammar_init rs) /\
  Bin (Grammar_init rs) = ret (Grammar_init rs) /\
  Unit fuel (Grammar_init rs) = Some (ret (Grammar_init rs)) /\
  exists w, ToCnf fuel (Grammar_init rs) = Some (ret w) /\
            grammar w = Grammar_init rs.
Proof.
  intros Hcnf.
  assert (Hg : Forall cnf_shape (rules (Grammar_init rs))).
  { unfold Grammar_init. cbn [rules]. by rewrite sorted_Permutation. }
  assert (Hid : Grammar_init (rules (Grammar_init rs)) = Grammar_init rs).
  { unfold Grammar_init. cbn [rules]. f_equal. apply sorted_id, sorted_sorted. }
  set (g := Grammar_init rs) in *. clearbody g.
  rewrite Forall_forall in Hg.
  assert (HT : Term g = ret g).
  { unfold Term. rewrite (extend_each_total _ (fun r => [r])).
    - cbn [bind ret]. by rewrite concat_map_singleton, Hid.
    - intros r Hr. unfold Term_rule.
      destruct (cnf_shape_not_rewritten r (Hg r Hr)) as (Hn & _).
      unfold term_rewrites in Hn. by rewrite Hn. }
  assert (HB : Bin g = ret g).
  { unfold Bin. rewrite (extend_each_total _ (fun r => [r])).
    - cbn [bind ret]. by rewrite concat_map_singleton, Hid.
    - intros r Hr.
      destruct (cnf_shape_not_rewritten r (Hg r Hr)) as (_ & Hlen & _).
      by rewrite bool_decide_eq_false_2 by lia. }
  assert (HU : Unit fuel g = Some (ret g)).
  { assert (HN : GetAnyNtUnitRule g = None).
    { apply GetAnyNtUnitRule_None. intros r Hr.
      by destruct (cnf_shape_not_rewritten r (Hg r Hr)) as (_ & _ & Hu). }
    destruct fuel; cbn [Unit]; by rewrite HN. }
  split_and!; try done.
  destruct (CnfWrapper_loop_ok (rules g) (∅, ∅)) as [st Hst];
    [by apply Forall_forall|].
  exists (mkCnfWrapper g st.1 st.2). split; [|done].
  unfold ToCnf. rewrite HT. cbn [bind ret]. rewrite HB. unfold ret at 1.
  rewrite HU. unfold ret at 1. unfold CnfWrapper_init. by rewrite Hst.
Qed.

Lemma ToCnf_cnf_fixpoint_witness :
  exists w, ToCnf (RT := PyRe.runtime) 0
              (Grammar_init [mkRule "S" [NT "A"; NT "B"] 1 "s";
                             mkRule "A" [T "a"] 5 "a5";
                             mkRule "B" [T "b"] 0 "b"]) = Some (ret w) /\
            grammar w = Grammar_init [mkRule "S" [NT "A"; NT "B"] 1 "s";
                                      mkRule "A" [T "a"] 5 "a5";
                                      mkRule "B" [T "b"] 0 "b"].
Proof.
  apply (ToCnf_cnf_fixpoint (RT := PyRe.runtime)).
  repeat (apply Forall_cons; split;
          [split; [reflexivity|
                   first [left; by eexists|right; by do 2 eexists]]|]).
  by apply Forall_nil.
Defined.

(** ** Unrolling skipped unit rules *)

Lemma spine_head (k : nat) (n : RuleNode) :
  exists rest, spine k n = n :: rest.
Proof. destruct k; cbn [spine]; eauto. Qed.

(** X9 ([UnrollUnitSkipRule]): the node built for skipped rules
    [s1 .. sk] is a chain of [k + 1] nodes.  Their rules have the lhs
    [lhs, s1.lhs, .., sk.lhs] and the aliases [alias, s1.alias, ..,
    sk.alias]; each node but the last has the next one as its only child
    and the unit rule to it; the last one has the original rhs and the
    children; every node stores the weight of its rule; and the weights of
    the chain add up to [weight]. *)
Theorem UnrollUnitSkipRule_spine (skipped : list Rule) :
  forall (lhs_name : string) (orig_rhs : list Symbol) (children : list Child)
         (w : Z) (a : string),
    let nodes :=
      spine (length skipped)
            (UnrollUnitSkipRule lhs_name orig_rhs skipped children w a) in
    map (fun n => lhs_s (node_rule n)) nodes = lhs_name :: map lhs_s skipped /\
    map (fun n => alias (node_rule n)) nodes = a :: map alias skipped /\
    Forall (fun n => node_weight n = weight (node_rule n) /\
                     isinstance_UnitSkipRule (node_rule n) = false) nodes /\
    sum_Z (map node_weight nodes) = w /\
    spine_linked nodes /\
    exists bottom, last nodes = Some bottom /\
                   rhs (node_rule bottom) = orig_rhs /\
                   node_children bottom = children.
Proof.
  induction skipped as [|s0 rest IH]; intros lhs_name orig_rhs children w a.
  - cbn. split_and!; try done; [repeat constructor|lia|eauto].
  - cbn [length UnrollUnitSkipRule].
    specialize (IH (lhs_s s0) orig_rhs children (weight s0) (alias s0)).
    cbn zeta in IH.
    set (inner := UnrollUnitSkipRule (lhs_s s0) orig_rhs rest children
                                     (weight s0) (alias s0)) in *.
    change (spine (S (length rest)) (mkRuleNode ?r [inr inner] ?w'))
      with (mkRuleNode r [inr inner] w' :: spine (length rest) inner).
    destruct (spine_head (length rest) inner) as [tl Htl].
    clearbody inner. rewrite Htl in *. clear Htl.
    destruct IH as (Hl & Ha & Hw & Hs & Hk & bottom & Hb & Hrhs & Hch).
    cbn zeta. split_and!.
    + cbn [map node_rule lhs_s]. by rewrite <- Hl.
    + cbn [map node_rule alias]. by rewrite <- Ha.
    + by constructor.
    + change (w - weight s0 + sum_Z (map node_weight (inner :: tl)) = w).
      rewrite Hs. lia.
    + split_and!; try done. cbn [node_rule rhs]. unfold lhs. f_equal. f_equal.
      by injection Hl.
    + exists bottom. split_and!; try done.
Qed.

(** X10 ([BuildUnitSkipRule], [UnrollUnitSkipRule]): unrolling undoes the
    skip of a unit rule that is a plain rule: the node for
    [BuildUnitSkipRule(u, t)] is the node of [u] over the node unrolled for
    [t].  When [u] is a skip rule itself, the chain recorded in [u] comes
    first as before, but the weight of its top rule is the weight it had
    when [u] is unrolled plus the weight of [t]. *)
Theorem UnrollUnitSkipRule_BuildUnitSkipRule (u t : Rule)
    (children : list Child) :
  let r := BuildUnitSkipRule u t in
  let unrolled (x : Rule) :=
    UnrollUnitSkipRule (lhs_s x) (rhs x) (skipped_rules x) children
                       (weight x) (alias x) in
  (isinstance_UnitSkipRule u = false -> rhs u = [lhs t] ->
   unrolled r = mkRuleNode u [inr (unrolled t)] (weight u)) /\
  (forall s0 sk, skipped_rules u = s0 :: sk ->
     node_rule (unrolled u) =
       mkRule (lhs_s u) [lhs s0] (weight u - weight s0) (alias u) /\
     node_rule (unrolled r) =
       mkRule (lhs_s u) [lhs s0] (weight u - weight s0 + weight t) (alias u)).
Proof.
  cbn zeta. split.
  - destruct u as [l g w a|]; [|done]. intros _. cbn [rhs]. intros ->.
    unfold BuildUnitSkipRule.
    cbn [isinstance_UnitSkipRule lhs_s rhs weight alias skipped_rules app].
    destruct (isinstance_UnitSkipRule t) eqn:Ht.
    + destruct t; [done|].
      cbn [UnrollUnitSkipRule skipped_rules app lhs_s weight alias rhs].
      f_equal; [f_equal; lia|lia].
    + destruct t; [|done].
      cbn [UnrollUnitSkipRule skipped_rules app lhs_s weight alias rhs].
      f_equal; [f_equal; lia|lia].
  - intros s0 sk Hsk. destruct u as [|l g sk' w a]; [done|].
    cbn [skipped_rules] in Hsk. subst sk'.
    unfold BuildUnitSkipRule.
    cbn [isinstance_UnitSkipRule lhs_s rhs weight alias skipped_rules].
    split; [done|].
    destruct (isinstance_UnitSkipRule t);
      cbn [app UnrollUnitSkipRule node_rule]; f_equal; lia.
Qed.

Lemma UnrollUnitSkipRule_BuildUnitSkipRule_witness :
  UnrollUnitSkipRule "A" [T "c"]
    (skipped_rules (BuildUnitSkipRule (mkRule "A" [NT "B"] 1 "ab")
                                      (mkRule "B" [T "c"] 2 "b")))
    [inl (T "c")] 3 "ab"
  = mkRuleNode (mkRule "A" [NT "B"] 1 "ab")
      [inr (mkRuleNode (mkRule "B" [T "c"] 2 "b") [inl (T "c")] 2)] 1.
Proof.
  apply (proj1 (UnrollUnitSkipRule_BuildUnitSkipRule
                  (mkRule "A" [NT "B"] 1 "ab") (mkRule "B" [T "c"] 2 "b")
                  [inl (T "c")])); reflexivity.
Defined.

(** ** The leaves of reverted trees *)

Lemma fringe_node_eq (rule : Rule) (children : list Child) (w : Z) :
  fringe_node (mkRuleNode rule children w) = fringes children.
Proof.
  cbn [fringe_node]. unfold fringes.
  induction children as [|[t|m] l IH]; cbn [map concat fringe app]; [done|..];
    by rewrite IH.
Qed.

Lemma fringes_app (l1 l2 : list Child) :
  fringes (l1 ++ l2) = fringes l1 ++ fringes l2.
Proof. unfold fringes. by rewrite map_app, concat_app. Qed.

Lemma fringes_cons (c : Child) (l : list Child) :
  fringes (c :: l) = fringe c ++ fringes l.
Proof. done. Qed.

Lemma UnrollUnitSkipRule_fringe (skipped : list Rule) :
  forall lhs_name orig_rhs children w a,
    fringe_node (UnrollUnitSkipRule lhs_name orig_rhs skipped children w a)
    = fringes children.
Proof.
  induction skipped as [|s0 rest IH]; intros; cbn [UnrollUnitSkipRule];
    rewrite fringe_node_eq; [done|].
  rewrite fringes_cons. cbn [fringe]. rewrite IH. unfold fringes at 2.
  cbn. by rewrite app_nil_r.
Qed.

Lemma splice_children_fringe (l : list Child) :
  fringes (splice_children l) = fringes l.
Proof.
  induction l as [|[t|[rule ch w]] l IH]; cbn [splice_children]; [done|..].
  - by rewrite !fringes_cons, IH.
  - cbn [node_rule node_children].
    destruct (String.prefix "__SP_" (lhs_s rule)).
    + by rewrite fringes_app, fringes_cons, IH; cbn [fringe];
        rewrite fringe_node_eq.
    + by rewrite !fringes_cons, IH.
Qed.

Lemma RevertCnf_node_finish (rule : Rule) (children : list Child) (c : Child) :
  (if isinstance_UnitSkipRule rule then
     ret (inr (UnrollUnitSkipRule (lhs_s rule) (rhs rule) (skipped_rules rule)
                 (splice_children children) (weight rule) (alias rule)))
   else ret (inr (mkRuleNode rule (splice_children children) 0))) = ret c ->
  fringe c = fringes children.
Proof.
  destruct (isinstance_UnitSkipRule rule); intros [= <-]; cbn [fringe].
  - by rewrite UnrollUnitSkipRule_fringe, splice_children_fringe.
  - by rewrite fringe_node_eq, splice_children_fringe.
Qed.

Lemma take_one_drop {A : Type} (l : list A) (i : nat) (x : A) :
  l !! i = Some x -> take 1 (drop i l) = [x].
Proof. intros Hx. by rewrite (drop_S _ _ _ Hx). Qed.

Section Leaves.
Context `{RT : Runtime} (rs : list Rule) (s : list string).

Lemma node_derivation_range i j n :
  node_derivation rs s i j n -> 0 <= i <= j.
Proof. induction 1; lia. Qed.

Lemma node_derivation_fringe i j n :
  node_derivation rs s i j n -> fringe_node n = span_leaves s i j.
Proof.
  induction 1 as [i w t rule Hi Hw|i p j n1 n2 rule Hp Hr Hrhs H1 IH1 H2 IH2];
    rewrite fringe_node_eq; unfold span_leaves.
  - replace (Z.to_nat (i - i + 1)) with 1%nat by lia.
    by rewrite (take_one_drop _ _ _ Hw).
  - rewrite !fringes_cons. cbn [fringe]. rewrite IH1, IH2.
    unfold fringes, span_leaves. cbn [map concat]. rewrite app_nil_r.
    apply node_derivation_range in H1.
    rewrite <- map_app. f_equal.
    replace (Z.to_nat p) with (Z.to_nat i + Z.to_nat (p - 1 - i + 1))%nat
      by lia.
    rewrite <- drop_drop, take_take_drop. f_equal. lia.
Qed.

Lemma RevertCnf_node_derivation i j n :
  term_names_unit rs ->
  node_derivation rs s i j n ->
  exists c, RevertCnf_node n = ret c /\ fringe c = fringe_node n.
Proof.
  intros HT.
  induction 1 as [i w t rule Hi Hw Hr Hrhs Hm
                 |i p j n1 n2 rule Hp Hr Hrhs H1 IH1 H2 IH2];
    rewrite fringe_node_eq; cbn [RevertCnf_node].
  - destruct (String.prefix "__T_" (lhs_s rule)); [by eexists|].
    cbn [bind ret].
    destruct (isinstance_UnitSkipRule rule) eqn:Hu; eexists; (split; [done|]);
      apply (RevertCnf_node_finish rule); by rewrite Hu.
  - destruct (String.prefix "__T_" (lhs_s rule)) eqn:Hpre.
    { apply (HT _ Hr) in Hpre. by rewrite Hrhs in Hpre. }
    destruct IH1 as (c1 & -> & Hc1), IH2 as (c2 & -> & Hc2). cbn [bind ret].
    destruct (isinstance_UnitSkipRule rule) eqn:Hu; eexists; (split; [done|]).
    + rewrite (RevertCnf_node_finish rule [c1; c2]) by (by rewrite Hu).
      rewrite !fringes_cons. cbn [fringe]. by rewrite Hc1, Hc2.
    + rewrite (RevertCnf_node_finish rule [c1; c2]) by (by rewrite Hu).
      rewrite !fringes_cons. cbn [fringe]. by rewrite Hc1, Hc2.
Qed.

End Leaves.

Lemma _Parse_tree_derivation `{RT : Runtime} (gr : Grammar) (g : CnfWrapper)
    (s : list string) (table : table_t) (trees : trees_t) :
  CnfWrapper_init gr = ret g ->
  _Parse s g = ret (table, trees) ->
  forall i j X node, (trees !!! (i, j)) !! X = Some node ->
    node_derivation (rules gr) s i j node.
Proof.
  intros Hg Hrun i j X node Hn.
  destruct (_Parse_runs gr g s Hg) as [Hpost _].
  destruct (Hpost _ Hrun) as [Hsound _].
  destruct (Hsound i j) as [_ Htree]. cbn [snd] in Htree.
  by destruct (Htree X node Hn).
Qed.

(** X11 ([RevertCnf] on the trees of [_Parse]): when no rule named [__T_..]
    has more than one symbol on its right-hand side, [RevertCnf] returns
    for every tree that [_Parse] stores, and the leaves of the reverted tree
    are, from left to right, the tokens of the span of the tree. *)
Theorem RevertCnf_parse_tree `{RT : Runtime} (gr : Grammar) (g : CnfWrapper)
    (s : list string) (table : table_t) (trees : trees_t)
    (i j : Z) (X : Symbol) (node : RuleNode) :
  CnfWrapper_init gr = ret g ->
  term_names_unit (rules gr) ->
  _Parse s g = ret (table, trees) ->
  (trees !!! (i, j)) !! X = Some node ->
  exists c, RevertCnf (inr node) = ret c /\ fringe c = span_leaves s i j.
Proof.
  intros Hg HT Hrun Hn.
  pose proof (_Parse_tree_derivation gr g s table trees Hg Hrun i j X node Hn)
    as Hd.
  destruct (RevertCnf_node_derivation _ _ i j node HT Hd) as (c & Hc & Hf).
  exists c. split; [done|].
  by rewrite Hf, (node_derivation_fringe _ _ _ _ _ Hd).
Qed.

Lemma RevertCnf_parse_tree_witness :
  CnfWrapper_init sample_cnf = ret sample_wrapper /\
  forall table trees node,
    _Parse (RT := PyRe.runtime) ["a"; "b"] sample_wrapper
      = ret (table, trees) ->
    (trees !!! (0, 1)) !! NT "S" = Some node ->
    exists c, RevertCnf (inr node) = ret c /\ fringe c = [T "a"; T "b"].
Proof.
  split; [vm_compute; reflexivity|].
  intros table trees node Hrun Hn.
  apply (RevertCnf_parse_tree (RT := PyRe.runtime) sample_cnf sample_wrapper
           ["a"; "b"] table trees 0 1 (NT "S") node);
    [vm_compute; reflexivity| |done|done].
  intros r
    [->|[->|[->|[->|[]%elem_of_nil]%elem_of_cons]%elem_of_cons]%elem_of_cons]%elem_of_Grammar_init%elem_of_cons;
    cbn; discriminate.
Defined.

(** ** The leaves of the output tree *)

Lemma tree_tokens_eq (d : string) (l : list (Token + Tree)) (r : LarkRule) :
  tree_tokens (mkTree d l r) = forest_tokens l.
Proof.
  cbn [tree_tokens]. unfold forest_tokens.
  induction l as [|[tok|t] l IH]; cbn [map concat app]; [done|..];
    by rewrite IH.
Qed.

Lemma _ToTree_node_tokens `{RT : Runtime} (orig : gmap string LarkRule)
    (n : RuleNode) :
  forall tree, _ToTree_node orig n = ret tree ->
               tree_tokens tree = map Symbol_str (fringe_node n).
Proof.
  induction n as [rule children w IH] using RuleNode_nested_ind.
  intros tree. cbn [_ToTree_node].
  destruct (getitem orig (alias rule)) as [e|orig_rule]; [done|].
  cbn [bind].
  match goal with
  | |- context [bind (?f 0%nat children) _] => set (each := f)
  end.
  assert (Heach : forall i out, each i children = ret out ->
            forest_tokens out = map Symbol_str (fringes children)).
  { clear tree. induction IH as [|[t|m] l Hc _ IHl]; intros i out.
    - intros [= <-]. done.
    - change (each i (inl t :: l))
        with (e <- index (expansion orig_rule) i ;;
              rest <- each (S i) l ;;
              ret (inl (mkToken e (Symbol_str t)) :: rest)).
      destruct (index (expansion orig_rule) i) as [?|e]; [done|].
      cbn [bind]. destruct (each (S i) l) as [?|rest] eqn:Hrest; [done|].
      intros [= <-]. rewrite fringes_cons. cbn [fringe app map].
      rewrite <- (IHl (S i) rest Hrest). done.
    - change (each i (inr m :: l))
        with (t <- _ToTree_node orig m ;;
              rest <- each (S i) l ;; ret (inr t :: rest)).
      destruct (_ToTree_node orig m) as [?|t] eqn:Ht; [done|].
      cbn [bind]. destruct (each (S i) l) as [?|rest] eqn:Hrest; [done|].
      intros [= <-]. rewrite fringes_cons, map_app. cbn [fringe].
      rewrite <- (IHl (S i) rest Hrest), <- (Hc t eq_refl). done. }
  destruct (each 0%nat children) as [?|out] eqn:Hout; [done|].
  intros [= <-]. rewrite tree_tokens_eq, fringe_node_eq. by eapply Heach.
Qed.

(** X12 ([Parser.parse]): the tree [parse] returns spells the input.  For a
    parser whose grammar is a constructed [CnfWrapper] in which no rule
    named [__T_..] has more than one symbol on its right-hand side, the
    values of the tokens at the leaves of a returned tree are, from left to
    right, the tokens given to [parse]. *)
Theorem parse_spells_input `{RT : Runtime} (gr : Grammar) (self : Parser)
    (tokenized : list string) (tree : Tree) :
  CnfWrapper_init gr = ret (parser_grammar self) ->
  term_names_unit (rules gr) ->
  parse self tokenized = ret tree ->
  tree_tokens tree = tokenized.
Proof.
  intros Hg HT. unfold parse.
  destruct (_Parse tokenized (parser_grammar self)) as [?|[table trees]]
    eqn:Hrun; [done|].
  cbn [bind].
  destruct (no_start_rule self table (Z.of_nat (length tokenized))); [done|].
  unfold getitem.
  destruct ((trees !!! (0, Z.of_nat (length tokenized) - 1))
              !! NT (Symbol_str (start self))) as [node|] eqn:Hn; [|done].
  cbn [bind ret].
  pose proof (_Parse_tree_derivation gr _ _ _ _ Hg Hrun _ _ _ _ Hn) as Hd.
  destruct (RevertCnf_node_derivation _ _ _ _ node HT Hd) as (c & Hc & Hf).
  cbn [RevertCnf]. rewrite Hc. cbn [bind ret].
  destruct c as [t|n']; [done|]. cbn [_ToTree].
  intros Htree. rewrite (_ToTree_node_tokens _ _ _ Htree).
  cbn [fringe] in Hf. rewrite Hf, (node_derivation_fringe _ _ _ _ _ Hd).
  unfold span_leaves.
  replace (Z.to_nat (Z.of_nat (length tokenized) - 1 - 0 + 1))
    with (length tokenized) by (apply node_derivation_range in Hd; lia).
  change (Z.to_nat 0) with 0%nat. rewrite drop_0, firstn_all.
  rewrite map_map. cbn [Symbol_str]. apply map_id.
Qed.

Lemma parse_spells_input_witness :
  exists tree,
    parse (RT := PyRe.runtime) sample_parser ["a"; "b"] = ret tree /\
    tree_tokens tree = ["a"; "b"].
Proof.
  assert (H : match parse (RT := PyRe.runtime) sample_parser ["a"; "b"] with
              | inr _ => True
              | inl _ => False
              end) by (vm_compute; exact I).
  destruct (parse (RT := PyRe.runtime) sample_parser ["a"; "b"])
    as [e|tree] eqn:E; [done|].
  exists tree. split; [done|].
  apply (parse_spells_input (RT := PyRe.runtime)
           (grammar (parser_grammar sample_parser)) sample_parser
           ["a"; "b"] tree); [vm_compute; reflexivity| |exact E].
  intros r Hr. vm_compute in Hr.
  repeat (apply elem_of_cons in Hr as [->|Hr]; [cbn; discriminate|]).
  by apply elem_of_nil in Hr.
Defined.

(** ** What the unit elimination returns *)

Lemma Unit_rules_origin (fuel : nat) :
  forall g g', Unit fuel g = Some (ret g') ->
    forall r', r' ∈ rules g' ->
      r' ∈ rules g \/
      (isinstance_UnitSkipRule r' = true /\
       exists u t, u ∈ rules g /\ t ∈ rules g /\
                   is_nt_unit_rule u = true /\
                   lhs r' = lhs u /\ alias r' = alias u /\ rhs r' = rhs t).
Proof.
  induction fuel as [|fuel IH]; intros g g'; cbn [Unit];
    destruct (GetAnyNtUnitRule g) as [rule|] eqn:HG;
    try (intros [= <-]; eauto; fail); try done.
  destruct (GetAnyNtUnitRule_Some _ _ HG) as [Hrule [b Hb]].
  assert (Hunit : is_nt_unit_rule rule = true)
    by (apply is_nt_unit_rule_rhs; eauto).
  destruct (RemoveUnitRule g rule) as [e|g1] eqn:HR; [done|].
  intros HU r' Hr'.
  pose proof (RemoveUnitRule_elem _ _ _ _ Hb HR) as Hel.
  destruct (IH _ _ HU r' Hr') as [Hin|(Hsk & u & t & Hu & Ht & Hnu & Hl & Ha & Hr)].
  - apply Hel in Hin as [[Hin _]|(t & Ht & _ & ->)]; [by left|right].
    split; [done|]. exists rule, t. split_and!; done.
  - right. split; [done|].
    assert (Hu' : exists u', u' ∈ rules g /\ is_nt_unit_rule u' = true /\
                             lhs u = lhs u' /\ alias u = alias u').
    { apply Hel in Hu as [[Hu _]|(t' & Ht' & _ & ->)]; [by exists u|].
      exists rule. split_and!; done. }
    assert (Ht' : exists t', t' ∈ rules g /\ rhs t = rhs t').
    { apply Hel in Ht as [[Ht _]|(t' & Ht' & _ & ->)]; [by exists t|].
      by exists t'. }
    destruct Hu' as (u' & ? & ? & Hlu & Hau), Ht' as (t' & ? & Hrt).
    exists u', t'. split_and!; try done; congruence.
Qed.

(** X13 ([Unit], [RemoveUnitRule]): the loop of [Unit] never raises.  The
    grammar it returns has no unit rule with a non-terminal; it keeps every
    rule of [g] that is no such unit rule; and each of its rules is a rule
    of [g], or a [UnitSkipRule] that has the lhs and the alias of a unit
    rule of [g] and the right-hand side of a rule of [g]. *)
Theorem Unit_result (fuel : nat) (g : Grammar) (res : result Grammar) :
  Unit fuel g = Some res ->
  exists g',
    res = ret g' /\
    GetAnyNtUnitRule g' = None /\
    (forall r, r ∈ rules g -> is_nt_unit_rule r = false -> r ∈ rules g') /\
    (forall r', r' ∈ rules g' ->
       is_nt_unit_rule r' = false /\
       (r' ∈ rules g \/
        (isinstance_UnitSkipRule r' = true /\
         exists u t, u ∈ rules g /\ t ∈ rules g /\
                     is_nt_unit_rule u = true /\
                     lhs r' = lhs u /\ alias r' = alias u /\
                     rhs r' = rhs t))).
Proof.
  intros HU. destruct (Unit_never_raises _ _ _ HU) as [g' ->].
  exists g'. destruct (Unit_rules _ _ _ HU) as (HN & _ & _ & Hkept).
  split_and!; try done. intros r' Hr'. split.
  - by eapply GetAnyNtUnitRule_None in HN.
  - by apply (Unit_rules_origin _ _ _ HU).
Qed.

Lemma Unit_result_witness :
  exists g',
    Unit 3 sample_units = Some (ret g') /\ GetAnyNtUnitRule g' = None.
Proof.
  assert (H : match Unit 3 sample_units with
              | Some (inr _) => True
              | _ => False
              end) by (vm_compute; exact I).
  destruct (Unit 3 sample_units) as [[e|g']|] eqn:E; try done.
  destruct (Unit_result 3 sample_units (ret g') E) as (g'' & [= <-] & HN & _).
  by exists g'.
Defined.

(** ** Hashing and equality *)

Lemma lhs_s_erase (r : Rule) : lhs_s (erase r) = lhs_s r.
Proof. by destruct r. Qed.

(** X14 ([Symbol.__eq__], [Symbol.__hash__], [Rule.__hash__]): symbols
    are equal exactly when they are of the same class and have the same
    name, and exactly when the strings they hash are the same, so that
    [T("a")] and [NT("a")] are different keys of a dictionary; rules that
    are equal hash the same string; and two rules that hash the same string
    need not be equal. *)
Theorem hash_consistent :
  (forall x y : Symbol,
     (Symbol_eqb x y = true <-> x = y) /\
     (Symbol_hash_key x = Symbol_hash_key y <-> x = y) /\
     (Symbol_neb x y = true <-> x <> y)) /\
  (forall r1 r2 : Rule, Rule_eqb r1 r2 = true -> Rule_str r1 = Rule_str r2) /\
  (exists r1 r2 : Rule, Rule_str r1 = Rule_str r2 /\ Rule_eqb r1 r2 = false).
Proof.
  split_and!.
  - intros x y. split_and!.
    + apply Symbol_eqb_eq.
    + split; [|by intros ->].
      destruct x as [a|a], y as [b|b];
        cbv [Symbol_hash_key TypeName Symbol_str String.append];
        intros [=]; by subst.
    + unfold Symbol_neb. rewrite negb_true_iff. apply Symbol_eqb_neq.
  - intros r1 r2 He%Rule_eqb_erase. unfold Rule_str, lhs.
    by rewrite <- (lhs_s_erase r1), <- (rhs_erase r1), He, lhs_s_erase,
      rhs_erase.
  - exists (mkRule "A" [T "a"] 0 ""), (mkRule "A" [NT "a"] 0 ""). done.
Qed.

(** ** Construction of the parser *)

Lemma foldl_insert_last (l : list LarkRule) :
  forall (d : gmap string LarkRule) (a : string),
    foldl (fun d rule => <[lark_alias rule := rule]> d) d l !! a =
    match last (List.filter (fun r => String.eqb (lark_alias r) a) l) with
    | Some r => Some r
    | None => d !! a
    end.
Proof.
  induction l as [|x l IH]; intros d a; [done|].
  cbn [foldl List.filter]. rewrite IH.
  destruct (String.eqb (lark_alias x) a) eqn:Hx.
  - apply String.eqb_eq in Hx as <-. rewrite last_cons.
    destruct (last _); [done|]. by rewrite lookup_insert_eq.
  - apply String.eqb_neq in Hx.
    destruct (last _); [done|]. by rewrite lookup_insert_ne.
Qed.

Lemma map_result_inv {A B : Type} (f : A -> result B) (l : list A)
    (out : list B) :
  map_result f l = ret out -> Forall2 (fun x y => f x = ret y) l out.
Proof.
  revert out. induction l as [|x l IH]; intros out; cbn [map_result].
  - intros [= <-]. constructor.
  - destruct (f x) as [?|y] eqn:Hx; [done|]. cbn [bind].
    destruct (map_result f l) as [?|rest]; [done|]. cbn [bind].
    intros [= <-]. constructor; [done|]. by apply IH.
Qed.

Lemma _ToRule_inv `{RT : Runtime} (lark_rule : LarkRule) (r : Rule) :
  _ToRule lark_rule = ret r ->
  r = lark_rule_of lark_rule /\ patterns_compile lark_rule.
Proof.
  unfold _ToRule.
  destruct (map_result _ (expansion lark_rule)) as [?|new_rhs] eqn:Hm; [done|].
  cbn [bind]. intros [= <-]. apply map_result_inv in Hm.
  assert (Hrhs : new_rhs = map lark_symbol (expansion lark_rule) /\
                 patterns_compile lark_rule).
  { unfold patterns_compile.
    induction Hm as [|x y l l' Hxy _ [IH1 IH2]];
      [split; [done|by intros ? ?%elem_of_nil]|].
    assert (y = lark_symbol x /\
            (isinstance_T (lark_symbol x) = true ->
             is_Some (re_compile (Symbol_str (lark_symbol x))))) as [-> Hc].
    { destruct x as [nm d|d|nt]; cbn [lark_symbol Symbol_str isinstance_T];
        unfold T_init in Hxy; try destruct (re_compile d) eqn:Hd;
        try done; injection Hxy as <-; split; try done; by eauto. }
    split; [by rewrite IH1|].
    intros x' [->|Hx']%elem_of_cons; [done|by apply IH2]. }
  destruct Hrhs as [-> Hc]. split; [|done].
  unfold lark_rule_of, lark_weight. f_equal.
  destruct (options lark_rule) as [[[p|]]|]; cbn; try done.
  destruct (Z.eqb_spec p 0); by subst.
Qed.

Lemma ToCnf_wrapper `{RT : Runtime} (fuel : nat) (g : Grammar)
    (w : CnfWrapper) :
  ToCnf fuel g = Some (ret w) ->
  CnfWrapper_init (grammar w) = ret w /\ Forall cnf_shape (cnf_rules w).
Proof.
  unfold ToCnf. destruct (g1 <- Term g ;; Bin g1) as [?|g2]; [done|].
  destruct (Unit fuel g2) as [[?|g3]|]; try done.
  intros [= Hw].
  destruct (CnfWrapper_init_indexes _ _ Hw) as [Hg _]. rewrite Hg.
  split; [done|]. unfold cnf_rules. rewrite Hg.
  destruct (Forall_cnf_shape_dec (rules g3)) as [|Hn]; [done|].
  unfold CnfWrapper_init in Hw.
  by rewrite (CnfWrapper_loop_fail _ _ Hn) in Hw.
Qed.

(** X15 ([Parser.__init__], [Parser._ToRule]): what holds of every parser
    that was constructed.  Its start symbol is [NT(start)]; [orig_rules]
    maps an alias to the last raw rule that has it; every terminal pattern
    of the raw rules compiles; its grammar is [ToCnf] of the rules
    [_ToRule] builds, with the priority as weight and 0 for none; and that
    grammar is a validated wrapper: building [CnfWrapper] again on its
    grammar gives it back, and each of its rules has a single terminal or
    two non-terminals as its right-hand side. *)
Theorem Parser_init_invariants `{RT : Runtime} (fuel : nat)
    (lark_rules : list LarkRule) (start_name : string) (P : Parser) :
  Parser_init fuel lark_rules start_name = Some (ret P) ->
  start P = NT start_name /\
  (forall a, orig_rules P !! a =
             last (List.filter (fun r => String.eqb (lark_alias r) a)
                               lark_rules)) /\
  Forall patterns_compile lark_rules /\
  ToCnf fuel (Grammar_init (map lark_rule_of lark_rules))
    = Some (ret (parser_grammar P)) /\
  CnfWrapper_init (grammar (parser_grammar P)) = ret (parser_grammar P) /\
  Forall cnf_shape (cnf_rules (parser_grammar P)).
Proof.
  unfold Parser_init.
  destruct (map_result _ToRule lark_rules) as [?|rs] eqn:Hm; [done|].
  destruct (ToCnf fuel (Grammar_init rs)) as [[?|g]|] eqn:HT; try done.
  intros [= <-]. cbn [start orig_rules parser_grammar].
  apply map_result_inv in Hm.
  assert (Hrs : rs = map lark_rule_of lark_rules /\
                Forall patterns_compile lark_rules).
  { clear HT. induction Hm as [|x y l l' Hxy _ [IH1 IH2]]; [done|].
    apply _ToRule_inv in Hxy as [-> Hc]. split; [by rewrite IH1|].
    by constructor. }
  destruct Hrs as [-> Hc].
  destruct (ToCnf_wrapper _ _ _ HT) as [Hw Hs].
  split_and!; try done.
  intros a. rewrite foldl_insert_last. by destruct (last _).
Qed.

Lemma Parser_init_invariants_witness :
  Parser_init (RT := PyRe.runtime) 0 sample_lark_rules "S"
    = Some (ret sample_parser) /\
  start sample_parser = NT "S" /\
  CnfWrapper_init (grammar (parser_grammar sample_parser))
    = ret (parser_grammar sample_parser).
Proof.
  assert (H : Parser_init (RT := PyRe.runtime) 0 sample_lark_rules "S"
              = Some (ret sample_parser)) by (vm_compute; reflexivity).
  split; [exact H|].
  destruct (Parser_init_invariants (RT := PyRe.runtime) 0 sample_lark_rules
              "S" sample_parser H) as (Hs & _ & _ & _ & Hw & _).
  by split.
Defined.

(** ** The language of a grammar *)

Section Language.
Context `{RT : Runtime} (s : list string).

Lemma gderives_app rs i p k l1 l2 :
  gderives rs s i p l1 -> gderives rs s p k l2 -> gderives rs s i k (l1 ++ l2).
Proof.
  induction 1 as [i|i p w t l Hi Hw Hm _ IH|i q p rule l Hr H1 _ _ IH];
    intros H2; cbn [app].
  - done.
  - eapply gderives_T; eauto.
  - eapply gderives_NT; eauto.
Qed.

Lemma gderives_nil_inv rs i k : gderives rs s i k [] -> i = k.
Proof. by inversion 1. Qed.

Lemma gderives_app_inv rs l1 :
  forall i k l2, gderives rs s i k (l1 ++ l2) ->
    exists p, gderives rs s i p l1 /\ gderives rs s p k l2.
Proof.
  induction l1 as [|x l1 IH]; intros i k l2; cbn [app].
  - intros H. exists i. split; [constructor|done].
  - inversion 1 as [|i' k' w t l Hi Hw Hm Hrest|i' q k' rule l Hr H1 Hrest];
      subst.
    + destruct (IH _ _ _ Hrest) as (p & Hp1 & Hp2).
      exists p. split; [|done]. eapply gderives_T; eauto.
    + destruct (IH _ _ _ Hrest) as (p & Hp1 & Hp2).
      exists p. split; [|done]. eapply gderives_NT; eauto.
Qed.

Lemma gderives_cons_inv rs i k x l :
  gderives rs s i k (x :: l) ->
  exists p, gderives rs s i p [x] /\ gderives rs s p k l.
Proof. apply (gderives_app_inv rs [x]). Qed.

Lemma gderives_cons rs i p k x l :
  gderives rs s i p [x] -> gderives rs s p k l -> gderives rs s i k (x :: l).
Proof. apply (gderives_app rs i p k [x] l). Qed.

Lemma gderives_rule rs i k rule :
  rule ∈ rs -> gderives rs s i k (rhs rule) -> gderives rs s i k [lhs rule].
Proof. intros Hr H. eapply gderives_NT; [done|exact H|constructor]. Qed.

Lemma gderives_NT_inv rs i k a :
  gderives rs s i k [NT a] ->
  exists rule, rule ∈ rs /\ lhs_s rule = a /\ gderives rs s i k (rhs rule).
Proof.
  inversion 1 as [| |i' q k' rule l Hr H1 Hrest Hi Hk [Hl Hnil]]; subst.
  apply gderives_nil_inv in Hrest as ->. by exists rule.
Qed.

Lemma gderives_T_inv rs i k t :
  gderives rs s i k [T t] ->
  k = i + 1 /\ 0 <= i /\
  exists w, s !! Z.to_nat i = Some w /\ T_match (T t) w = true.
Proof.
  inversion 1 as [|i' k' w t' l Hi Hw Hm Hrest|]; subst.
  apply gderives_nil_inv in Hrest as <-. eauto.
Qed.

Lemma gderives_map rs (f : Symbol -> Symbol) l :
  forall i k,
    (forall x i p, x ∈ l -> gderives rs s i p [x] -> gderives rs s i p [f x]) ->
    gderives rs s i k l -> gderives rs s i k (map f l).
Proof.
  induction l as [|x l IH]; intros i k Hf; [done|].
  intros (p & Hx & Hl)%gderives_cons_inv. cbn [map].
  apply (gderives_cons rs i p); [apply Hf; [left|done]|].
  apply IH; [|done]. intros y i' p' Hy. apply Hf. by right.
Qed.

(** Every use of a rule of [rs] can be replayed in [rs'], after the
    symbols are replaced as [sigma] says. *)
Lemma gderives_subst rs rs' (sigma : Symbol -> list Symbol) :
  (forall t, sigma (T t) = [T t]) ->
  (forall rule i p, rule ∈ rs ->
     gderives rs' s i p (subst_seq sigma (rhs rule)) ->
     gderives rs' s i p (sigma (lhs rule))) ->
  forall i k l, gderives rs s i k l -> gderives rs' s i k (subst_seq sigma l).
Proof.
  intros HT Hrule i k l.
  induction 1 as [i|i p w t l Hi Hw Hm _ IH|i q p rule l Hr _ IH1 _ IH2];
    unfold subst_seq in *; cbn [map concat].
  - constructor.
  - rewrite HT. cbn [app]. eapply gderives_T; eauto.
  - eapply gderives_app; [|exact IH2]. by apply Hrule.
Qed.

Lemma subst_seq_id l : subst_seq (fun x => [x]) l = l.
Proof. unfold subst_seq. induction l as [|x l IH]; [done|]. cbn. by rewrite IH. Qed.

Lemma gderives_replay rs rs' :
  (forall rule i p, rule ∈ rs ->
     gderives rs' s i p (rhs rule) -> gderives rs' s i p [lhs rule]) ->
  forall i k l, gderives rs s i k l -> gderives rs' s i k l.
Proof.
  intros Hrule i k l H.
  rewrite <- (subst_seq_id l).
  apply (gderives_subst rs rs' (fun x => [x])); [done| |done].
  intros rule i' p' Hr. rewrite subst_seq_id. by apply Hrule.
Qed.

(** On rules in normal form, the derivations the table builder follows are
    the derivations of the language. *)
Lemma derives_gderives rs i j X c :
  derives rs s i j X c -> gderives rs s i (j + 1) [X].
Proof.
  induction 1 as [i w t rule Hi Hw Hr Hrhs Hm
                 |i p j a b w1 w2 rule Hp Hr Hrhs _ IH1 _ IH2].
  - apply gderives_rule; [done|]. rewrite Hrhs.
    eapply gderives_T; eauto. constructor.
  - apply gderives_rule; [done|]. rewrite Hrhs.
    replace (p - 1 + 1) with p in IH1 by lia.
    by apply (gderives_cons rs i p).
Qed.

Lemma gderives_cyk_seq rs :
  Forall cnf_shape rs ->
  forall i k l, gderives rs s i k l -> cyk_seq rs s i k l.
Proof.
  intros Hcnf. rewrite Forall_forall in Hcnf.
  induction 1 as [i|i p w t l Hi Hw Hm _ IH|i q p rule l Hr _ IH1 _ IH2];
    cbn [cyk_seq].
  - done.
  - exists (i + 1). split; [|done]. cbn [cyk_sym]. eauto.
  - exists q. split; [|done]. unfold lhs. cbn [cyk_sym].
    destruct (Hcnf _ Hr) as [_ [[t Ht]|(x & y & Hxy)]].
    + rewrite Ht in IH1. cbn [cyk_seq cyk_sym] in IH1. destruct IH1 as (p1 & (-> & Hi & w & Hw & Hm) & <-).
      replace (i + 1 - 1) with i by lia. exists (weight rule).
      by apply (derives_terminal rs s i w t).
    + rewrite Hxy in IH1. cbn [cyk_seq cyk_sym] in IH1.
      destruct IH1 as (p1 & [c1 H1] & p2 & [c2 H2] & <-).
      pose proof (derives_range (mkGrammar rs) s _ _ _ _ H1).
      pose proof (derives_range (mkGrammar rs) s _ _ _ _ H2).
      exists (weight rule + c1 + c2).
      apply (derives_binary rs s i p1 (p2 - 1) x y); [lia|done..].
Qed.

Lemma gderives_derives rs i k a :
  Forall cnf_shape rs ->
  gderives rs s i k [NT a] -> exists c, derives rs s i (k - 1) (NT a) c.
Proof.
  intros Hcnf H. apply (gderives_cyk_seq rs Hcnf) in H.
  by destruct H as (p & H & <-).
Qed.

End Language.

(** ** The passes of the conversion and the language *)

Section Passes.
Context `{RT : Runtime} (s : list string).

Lemma RemoveUnitRule_language (g g' : Grammar) (rule : Rule) :
  GetAnyNtUnitRule g = Some rule ->
  RemoveUnitRule g rule = ret g' ->
  forall i k l, gderives (rules g) s i k l <-> gderives (rules g') s i k l.
Proof.
  intros HG HR. destruct (GetAnyNtUnitRule_Some _ _ HG) as [Hrule [b Hb]].
  pose proof (RemoveUnitRule_elem _ _ _ _ Hb HR) as Hel.
  intros i k l; split; apply gderives_replay.
  - intros r i' p' Hr Hd. destruct (Rule_eqb r rule) eqn:He.
    + rewrite (Rule_eqb_lhs _ _ He).
      rewrite (Rule_eqb_rhs _ _ He), Hb in Hd.
      apply gderives_NT_inv in Hd as (t & Ht & Hl & Hd).
      pose proof Ht as [[Ht' _]|(t0 & Ht0 & Hl0 & ->)]%Hel.
      * change (lhs rule) with (lhs (BuildUnitSkipRule rule t)).
        apply gderives_rule; [|exact Hd].
        apply Hel. right. exists t. split_and!; try done.
        unfold lhs. by rewrite Hl.
      * change (lhs rule) with (lhs (BuildUnitSkipRule rule t0)).
        by apply gderives_rule.
    + apply gderives_rule; [|done]. apply Hel. left. split; [done|].
      unfold Rule_neb. by rewrite He.
  - intros r' i' p' Hr' Hd.
    apply Hel in Hr' as [[Hr' _]|(t & Ht & Hl & ->)].
    + by apply gderives_rule.
    + change (lhs (BuildUnitSkipRule rule t)) with (lhs rule).
      apply gderives_rule; [done|]. rewrite Hb, <- Hl.
      by apply gderives_rule.
Qed.

Lemma Unit_language_steps (fuel : nat) :
  forall g g', Unit fuel g = Some (ret g') ->
    forall i k l, gderives (rules g) s i k l <-> gderives (rules g') s i k l.
Proof.
  induction fuel as [|fuel IH]; intros g g'; cbn [Unit];
    destruct (GetAnyNtUnitRule g) as [rule|] eqn:HG;
    try (intros [= <-]; done); try done.
  destruct (RemoveUnitRule g rule) as [e|g1] eqn:HR; [done|].
  intros HU i k l.
  rewrite (RemoveUnitRule_language _ _ _ HG HR). by apply IH.
Qed.

Lemma prefix_empty (a : string) : String.prefix "" a = true.
Proof. by destruct a. Qed.

Lemma term_meaning_term_nt (x : Symbol) :
  (forall a, x = NT a -> String.prefix "__T_" a = false) ->
  term_meaning (term_nt x) = [x].
Proof.
  destruct x as [t|a]; intros Hx; cbn [term_nt term_meaning].
  - change (String.prefix "__T_" ("__T_" +:+ t)) with (String.prefix "" t).
    by rewrite prefix_empty.
  - by rewrite (Hx a eq_refl).
Qed.

Lemma term_meaning_fresh (x : Symbol) :
  (forall a, x = NT a -> String.prefix "__T_" a = false) ->
  term_meaning x = [x].
Proof.
  destruct x as [t|a]; intros Hx; cbn [term_meaning]; [done|].
  by rewrite (Hx a eq_refl).
Qed.

Lemma subst_seq_pointwise (sigma : Symbol -> list Symbol)
    (f : Symbol -> Symbol) (l : list Symbol) :
  (forall x, x ∈ l -> sigma (f x) = [x]) -> subst_seq sigma (map f l) = l.
Proof.
  unfold subst_seq. induction l as [|x l IH]; intros H; [done|].
  cbn [map concat]. rewrite (H x) by left. cbn [app]. f_equal.
  apply IH. intros y Hy. apply H. by right.
Qed.

Lemma Term_complete (g g1 : Grammar) :
  Term g = ret g1 ->
  forall i k l, gderives (rules g) s i k l -> gderives (rules g1) s i k l.
Proof.
  intros HT. destruct (Term_total g) as (g1' & HT' & Hperm).
  rewrite HT in HT'. injection HT' as <-.
  assert (Hin : forall r r1, r ∈ rules g -> r1 ∈ Term_image r ->
                             r1 ∈ rules g1).
  { intros r r1 Hr Hr1. rewrite Hperm. apply elem_of_concat_map. eauto. }
  apply gderives_replay. intros r i p Hr Hd.
  specialize (Hin r). unfold Term_image in Hin.
  destruct (term_rewrites r) eqn:Hrw.
  - change (lhs r)
      with (lhs (mkRule (lhs_s r) (map term_nt (rhs r)) (weight r) (alias r))).
    apply gderives_rule; [apply Hin; [done|left]|]. cbn [rhs].
    apply gderives_map; [|done].
    intros [t|a] i' p' Hx Hdx; [|done]. cbn [term_nt].
    change (NT ("__T_" +:+ t)) with (lhs (term_unit_rule (T t))).
    apply gderives_rule; [|done].
    apply Hin; [done|]. right. apply list_elem_of_fmap. exists (T t).
    split; [done|]. by apply elem_of_remove_dups, elem_of_filter_list.
  - apply gderives_rule; [|done]. apply Hin; [done|left].
Qed.

Lemma Term_sound (g g1 : Grammar) :
  Term g = ret g1 -> term_fresh (rules g) ->
  forall i k l, gderives (rules g1) s i k l ->
                gderives (rules g) s i k (subst_seq term_meaning l).
Proof.
  intros HT Hfresh. destruct (Term_total g) as (g1' & HT' & Hperm).
  rewrite HT in HT'. injection HT' as <-.
  apply gderives_subst; [done|]. intros r1 i p Hr1.
  rewrite Hperm in Hr1. apply elem_of_concat_map in Hr1 as (r & Hr & Hr1).
  destruct (Hfresh _ Hr) as [Hl Hrhs].
  assert (Hx : forall x, x ∈ rhs r ->
                 forall a, x = NT a -> String.prefix "__T_" a = false).
  { intros x Hx a ->. by apply Hrhs. }
  apply Term_image_cases in Hr1 as [[-> _]|[_ [->|[t ->]]]].
  - unfold lhs. cbn [term_meaning]. rewrite Hl.
    rewrite <- (map_id (rhs r)) at 1. rewrite subst_seq_pointwise.
    + by apply gderives_rule.
    + intros x Hxin. apply term_meaning_fresh. by apply Hx.
  - unfold lhs. cbn [lhs_s rhs term_meaning]. rewrite Hl.
    rewrite subst_seq_pointwise.
    + by apply gderives_rule.
    + intros x Hxin. apply term_meaning_term_nt. by apply Hx.
  - unfold term_unit_rule, lhs. cbn [lhs_s rhs Symbol_str term_meaning].
    change (String.prefix "__T_" ("__T_" +:+ t)) with (String.prefix "" t).
    by rewrite prefix_empty.
Qed.

End Passes.

Section Binarize.
Context `{RT : Runtime} (s : list string).

Lemma Split_percent (rule : Rule) :
  (0 < length (rhs rule))%nat -> has_percent (Rule_split_str rule) = true ->
  Split rule = raise FormatError.
Proof.
  intros Hlen Hp. unfold Split. fold (Rule_split_str rule).
  rewrite index_lookup_total by lia. cbn [bind ret]. by rewrite Hp.
Qed.

Lemma Bin_ret_closed_form (g g' : Grammar) :
  Bin g = ret g' ->
  g' = Grammar_init (concat (map Bin_image (rules g))).
Proof.
  intros HB. rewrite Bin_closed_form in HB; [by injection HB|].
  intros r Hr Hlen. unfold Bin in HB.
  destruct (extend_each _ (rules g)) as [?|out] eqn:HE; [done|].
  destruct (extend_each_ret_elem _ _ _ _ HE Hr) as (ys & Hys & _).
  rewrite bool_decide_eq_true_2 in Hys by done.
  destruct (has_percent (Rule_split_str r)) eqn:Hp; [|done].
  by rewrite Split_percent in Hys by (done || lia).
Qed.

Lemma Split_rules_derive (rs' : list Rule) (r : Rule) :
  (3 <= length (rhs r))%nat ->
  (forall r', r' ∈ Split_rules r -> r' ∈ rs') ->
  forall i p, gderives rs' s i p (rhs r) -> gderives rs' s i p [lhs r].
Proof.
  intros Hlen Hin.
  assert (Htail : forall (d : nat) (k : Z),
            1 <= k -> k + Z.of_nat d = Z.of_nat (length (rhs r)) - 2 ->
            forall i p,
              gderives rs' s i p (drop (Z.to_nat k) (rhs r)) ->
              gderives rs' s i p [NT (rule_name_format (Rule_split_str r) k)]).
  { induction d as [|d IH]; intros k Hk Hd i p Hder.
    - assert (Hlast : Split_last r ∈ rs').
      { apply Hin. unfold Split_rules. right. apply elem_of_app. right. left. }
      replace k with (Z.of_nat (length (rhs r)) - 2) by lia.
      change (NT (rule_name_format (Rule_split_str r)
                    (Z.of_nat (length (rhs r)) - 2)))
        with (lhs (Split_last r)).
      apply gderives_rule; [done|]. unfold Split_last, last_two. cbn [rhs].
      by replace (length (rhs r) - 2)%nat with (Z.to_nat k) by lia.
    - assert (Hmid : Split_middle r k ∈ rs').
      { apply Hin. unfold Split_rules. right. apply elem_of_app. left.
        apply list_elem_of_fmap. exists k. split; [done|].
        apply elem_of_seqZ. lia. }
      assert (Hlk : (Z.to_nat k < length (rhs r))%nat) by lia.
      destruct (lookup_lt_is_Some_2 _ _ Hlk) as [x Hx].
      rewrite (drop_S _ _ _ Hx) in Hder.
      apply gderives_cons_inv in Hder as (q & Hq1 & Hq2).
      change (NT (rule_name_format (Rule_split_str r) k))
        with (lhs (Split_middle r k)).
      apply gderives_rule; [done|]. unfold Split_middle. cbn [rhs].
      rewrite (list_lookup_total_correct _ _ _ Hx).
      apply (gderives_cons s rs' i q); [done|].
      apply (IH (k + 1)); [lia|lia|].
      by replace (Z.to_nat (k + 1)) with (S (Z.to_nat k)) by lia. }
  intros i p Hder.
  assert (Hl0 : (0 < length (rhs r))%nat) by lia.
  destruct (lookup_lt_is_Some_2 _ _ Hl0) as [x Hx].
  rewrite <- (drop_0 (rhs r)), (drop_S _ _ _ Hx) in Hder.
  apply gderives_cons_inv in Hder as (q & Hq1 & Hq2).
  set (first := mkRule (lhs_s r)
         [rhs r !!! 0%nat; NT (rule_name_format (Rule_split_str r) 1)]
         (weight r) (alias r)).
  change (lhs r) with (lhs first).
  apply gderives_rule; [apply Hin; left|]. cbn [first rhs].
  rewrite (list_lookup_total_correct _ _ _ Hx).
  apply (gderives_cons s rs' i q); [done|].
  by apply (Htail (length (rhs r) - 3)%nat 1); [lia|lia|].
Qed.

Lemma Bin_complete (g g' : Grammar) :
  Bin g = ret g' ->
  forall i k l, gderives (rules g) s i k l -> gderives (rules g') s i k l.
Proof.
  intros ->%Bin_ret_closed_form.
  apply gderives_replay. intros r i p Hr.
  assert (Hin : forall r', r' ∈ Bin_image r ->
            r' ∈ rules (Grammar_init (concat (map Bin_image (rules g))))).
  { intros r' Hr'. apply elem_of_Grammar_init, elem_of_concat_map. eauto. }
  unfold Bin_image in Hin. case_bool_decide as Hlen.
  - apply Split_rules_derive; [lia|done].
  - apply gderives_rule. apply Hin. left.
Qed.

Lemma subst_seq_fixed (sigma : Symbol -> list Symbol) (l : list Symbol) :
  (forall x, x ∈ l -> sigma x = [x]) -> subst_seq sigma l = l.
Proof.
  intros H. rewrite <- (map_id l) at 1. by apply subst_seq_pointwise.
Qed.

Lemma Bin_sound (g g' : Grammar) (sigma : Symbol -> list Symbol) :
  Bin g = ret g' -> split_names_fresh (rules g) sigma ->
  forall i k l, gderives (rules g') s i k l ->
                gderives (rules g) s i k (subst_seq sigma l).
Proof.
  intros ->%Bin_ret_closed_form [HT Hfresh].
  apply gderives_subst; [done|]. intros r' i p.
  rewrite elem_of_Grammar_init, elem_of_concat_map.
  intros (r & Hr & Hr'). destruct (Hfresh r Hr) as (Hl & Hx & Hnames).
  revert Hr'. unfold Bin_image. case_bool_decide as Hlen.
  - specialize (Hnames Hlen). unfold Split_rules.
    rewrite elem_of_cons, elem_of_app, list_elem_of_fmap,
      list_elem_of_singleton.
    assert (Hl0 : (0 < length (rhs r))%nat) by lia.
    destruct (lookup_lt_is_Some_2 _ _ Hl0) as [x0 Hx0].
    intros [->|[(k & -> & Hk)| -> ]].
    + change (lhs (mkRule (lhs_s r) ?a ?b ?c)) with (lhs r). rewrite Hl.
      cbn [rhs]. unfold subst_seq. cbn [map concat].
      rewrite (list_lookup_total_correct _ _ _ Hx0).
      rewrite (Hx x0) by (by eapply list_elem_of_lookup_2).
      rewrite Hnames by lia. rewrite app_nil_r. cbn [app].
      change (Z.to_nat 1) with 1%nat.
      rewrite <- (drop_S _ _ _ Hx0), drop_0. by apply gderives_rule.
    + apply elem_of_seqZ in Hk.
      assert (Hlk : (Z.to_nat k < length (rhs r))%nat) by lia.
      destruct (lookup_lt_is_Some_2 _ _ Hlk) as [x Hxk].
      unfold Split_middle, lhs. cbn [lhs_s rhs].
      unfold subst_seq. cbn [map concat].
      rewrite (list_lookup_total_correct _ _ _ Hxk).
      rewrite (Hx x) by (by eapply list_elem_of_lookup_2).
      rewrite !Hnames by lia. rewrite app_nil_r. cbn [app].
      replace (Z.to_nat (k + 1)) with (S (Z.to_nat k)) by lia.
      by rewrite <- (drop_S _ _ _ Hxk).
    + unfold Split_last, lhs, last_two. cbn [lhs_s rhs].
      rewrite Hnames by lia.
      replace (Z.to_nat (Z.of_nat (length (rhs r)) - 2))
        with (length (rhs r) - 2)%nat by lia.
      rewrite subst_seq_fixed; [done|].
      intros x Hxin. apply Hx. revert Hxin. apply subseteq_drop.
  - intros ->%list_elem_of_singleton. rewrite Hl, subst_seq_fixed by done.
    by apply gderives_rule.
Qed.

End Binarize.

(** X16 ([Unit], [RemoveUnitRule]): the elimination of unit rules keeps
    the language: whenever the loop of [Unit] ends, a sequence of symbols
    derives a span of tokens in the grammar returned iff it does in [g]. *)
Theorem Unit_language `{RT : Runtime} (fuel : nat) (g g' : Grammar) :
  Unit fuel g = Some (ret g') ->
  forall s i k l, gderives (rules g) s i k l <-> gderives (rules g') s i k l.
Proof. intros HU s. by apply (Unit_language_steps s fuel). Qed.

Lemma Unit_language_witness :
  exists g',
    Unit 3 sample_units = Some (ret g') /\
    forall s i k l,
      gderives (RT := PyRe.runtime) (rules sample_units) s i k l <->
      gderives (RT := PyRe.runtime) (rules g') s i k l.
Proof.
  assert (H : match Unit 3 sample_units with
              | Some (inr _) => True
              | _ => False
              end) by (vm_compute; exact I).
  destruct (Unit 3 sample_units) as [[e|g']|] eqn:E; try done.
  exists g'. split; [done|].
  exact (Unit_language (RT := PyRe.runtime) 3 sample_units g' E).
Defined.

(** X17 ([Term]): when no name of the grammar starts with [__T_], [Term]
    keeps the language of every symbol of the grammar: a terminal, or a
    non-terminal whose name does not start with [__T_], derives a span of
    tokens in the grammar returned iff it does in [g]. *)
Theorem Term_language `{RT : Runtime} (g : Grammar) :
  term_fresh (rules g) ->
  exists g1,
    Term g = ret g1 /\
    forall s i k X,
      term_meaning X = [X] ->
      (gderives (rules g) s i k [X] <-> gderives (rules g1) s i k [X]).
Proof.
  intros Hfresh. destruct (Term_total g) as (g1 & HT & _).
  exists g1. split; [done|]. intros s i k X HX. split.
  - by apply Term_complete.
  - intros Hd%(Term_sound s g g1 HT Hfresh).
    unfold subst_seq in Hd. cbn [map concat] in Hd.
    by rewrite HX in Hd.
Qed.

Lemma Term_language_witness :
  exists g1,
    Term (RT := PyRe.runtime) sample_long = ret g1 /\
    forall s i k,
      gderives (RT := PyRe.runtime) (rules sample_long) s i k [NT "S"] <->
      gderives (RT := PyRe.runtime) (rules g1) s i k [NT "S"].
Proof.
  destruct (Term_language (RT := PyRe.runtime) sample_long) as (g1 & HT & H).
  - intros r
      [->|[->|[->|[]%elem_of_nil]%elem_of_cons]%elem_of_cons]%elem_of_Grammar_init%elem_of_cons;
      (split; [reflexivity|]); cbn [rhs]; intros a Ha;
      repeat match goal with
             | H : _ ∈ _ :: _ |- _ =>
                 apply elem_of_cons in H as [H|H];
                 [try discriminate H; try (injection H as ->; reflexivity)|]
             | H : _ ∈ [] |- _ => by apply elem_of_nil in H
             end.
  - exists g1. split; [done|]. intros s i k. by apply H.
Defined.

(** X18 ([Bin], [Split]): when the names [Split] generates collide with
    nothing, [Bin] keeps the language of every symbol that [sigma] reads as
    itself: it derives a span of tokens in the grammar returned iff it does
    in [g].  From [g] to the grammar returned, this holds for every
    sequence of symbols and with no condition on the names. *)
Theorem Bin_language `{RT : Runtime} (g g' : Grammar)
    (sigma : Symbol -> list Symbol) :
  Bin g = ret g' ->
  (forall s i k l, gderives (rules g) s i k l -> gderives (rules g') s i k l) /\
  (split_names_fresh (rules g) sigma ->
   forall s i k X, sigma X = [X] ->
     (gderives (rules g) s i k [X] <-> gderives (rules g') s i k [X])).
Proof.
  intros HB. split.
  - intros s. by apply Bin_complete.
  - intros Hfresh s i k X HX. split; [by apply Bin_complete|].
    intros Hd%(Bin_sound s g g' sigma HB Hfresh).
    unfold subst_seq in Hd. cbn [map concat] in Hd. by rewrite HX in Hd.
Qed.

Lemma sample_split_fresh :
  split_names_fresh (rules sample_split) sample_split_meaning.
Proof.
  split; [done|].
  intros r
    [->|[->|[->|[->|[]%elem_of_nil]%elem_of_cons]%elem_of_cons]%elem_of_cons]%elem_of_Grammar_init%elem_of_cons;
    (split; [reflexivity|split]); cbn [rhs length].
  all: try (intros Hlen; lia).
  all: try (intros x Hx;
            repeat (apply elem_of_cons in Hx as [->|Hx]; [reflexivity|]);
            by apply elem_of_nil in Hx).
  intros _ k Hk. assert (k = 1) as -> by lia. vm_compute. reflexivity.
Qed.

Lemma Bin_language_witness :
  exists g',
    Bin sample_split = ret g' /\
    forall s i k,
      gderives (RT := PyRe.runtime) (rules sample_split) s i k [NT "S"] <->
      gderives (RT := PyRe.runtime) (rules g') s i k [NT "S"].
Proof.
  assert (H : match Bin sample_split with inr _ => True | inl _ => False end)
    by (vm_compute; exact I).
  destruct (Bin sample_split) as [e|g'] eqn:E; [done|].
  exists g'. split; [done|]. intros s i k.
  by apply (proj2 (Bin_language (RT := PyRe.runtime) sample_split g'
                     sample_split_meaning E) sample_split_fresh).
Defined.

(** ** The language of the converted grammar *)

Lemma gderives_same_rules `{RT : Runtime} (s : list string) rs rs' :
  (forall r, r ∈ rs -> r ∈ rs') ->
  forall i k l, gderives rs s i k l -> gderives rs' s i k l.
Proof.
  intros Hin. apply gderives_replay. intros r i p Hr.
  apply gderives_rule. by apply Hin.
Qed.

Lemma ToCnf_inv `{RT : Runtime} (fuel : nat) (g : Grammar) (w : CnfWrapper) :
  ToCnf fuel g = Some (ret w) ->
  exists g1 g2,
    Term g = ret g1 /\ Bin g1 = ret g2 /\
    Unit fuel g2 = Some (ret (grammar w)) /\
    CnfWrapper_init (grammar w) = ret w /\
    Forall cnf_shape (cnf_rules w).
Proof.
  intros HT. destruct (ToCnf_wrapper _ _ _ HT) as [Hw Hs].
  unfold ToCnf in HT.
  destruct (Term g) as [?|g1] eqn:H1; [done|]. cbn [bind] in HT.
  destruct (Bin g1) as [?|g2] eqn:H2; [done|].
  destruct (Unit fuel g2) as [[?|g3]|] eqn:H3; try done.
  injection HT as HT.
  destruct (CnfWrapper_init_indexes _ _ HT) as [<- _].
  by exists g1, g2.
Qed.

(** X19 ([ToCnf]): the converted grammar derives everything the grammar
    does; and when no name of the grammar starts with [__T_] and the names
    [Split] generates collide with nothing, what a sequence of symbols
    derives in the converted grammar is derived in the grammar by the
    sequence it stands for. *)
Theorem ToCnf_language `{RT : Runtime} (fuel : nat) (g : Grammar)
    (w : CnfWrapper) (sigma : Symbol -> list Symbol) :
  ToCnf fuel g = Some (ret w) ->
  (forall s i k l,
     gderives (rules g) s i k l -> gderives (cnf_rules w) s i k l) /\
  (term_fresh (rules g) ->
   (forall g1, Term g = ret g1 -> split_names_fresh (rules g1) sigma) ->
   forall s i k l,
     gderives (cnf_rules w) s i k l ->
     gderives (rules g) s i k (subst_seq term_meaning (subst_seq sigma l))).
Proof.
  intros (g1 & g2 & H1 & H2 & H3 & _)%ToCnf_inv. split.
  - intros s i k l Hd. apply (Unit_language_steps s _ _ _ H3).
    by apply (Bin_complete s g1), (Term_complete s g).
  - intros Hfresh Hsplit s i k l Hd.
    apply (Term_sound s g g1 H1 Hfresh).
    apply (Bin_sound s g1 g2 sigma H2 (Hsplit g1 H1)).
    by apply (Unit_language_steps s _ _ _ H3).
Qed.

Lemma ToCnf_language_witness :
  exists fuel w,
    ToCnf (RT := PyRe.runtime) fuel sample_long = Some (ret w) /\
    forall s i k l,
      gderives (RT := PyRe.runtime) (rules sample_long) s i k l ->
      gderives (RT := PyRe.runtime) (cnf_rules w) s i k l.
Proof.
  assert (H : match ToCnf (RT := PyRe.runtime) 2 sample_long with
              | Some (inr _) => True
              | _ => False
              end) by (vm_compute; exact I).
  destruct (ToCnf (RT := PyRe.runtime) 2 sample_long) as [[e|w]|] eqn:E;
    try done.
  exists 2%nat, w. split; [done|].
  exact (proj1 (ToCnf_language (RT := PyRe.runtime) 2 sample_long w
                  (fun x => [x]) E)).
Defined.

(** ** The language the parser accepts *)

Lemma Parser_init_grammar `{RT : Runtime} (fuel : nat)
    (lark_rules : list LarkRule) (start_name : string) (P : Parser) :
  Parser_init fuel lark_rules start_name = Some (ret P) ->
  start P = NT start_name /\
  ToCnf fuel (Grammar_init (map lark_rule_of lark_rules))
    = Some (ret (parser_grammar P)).
Proof.
  unfold Parser_init.
  destruct (map_result _ToRule lark_rules) as [?|rs] eqn:Hm; [done|].
  destruct (ToCnf fuel (Grammar_init rs)) as [[?|g]|] eqn:HT; try done.
  intros [= <-]. cbn [start parser_grammar]. split; [done|].
  apply map_result_inv in Hm.
  assert (Hrs : rs = map lark_rule_of lark_rules).
  { clear HT. induction Hm as [|x y l l' Hxy _ IH]; [done|].
    apply _ToRule_inv in Hxy as [-> _]. by rewrite IH. }
  by rewrite <- Hrs.
Qed.

(** X20 ([Parser.__init__], [Parser.parse]): the parser and the language
    of its rules.  For a constructed parser and tokens that compile as
    patterns, [parse] does not raise [ParseError] on an input that the
    start symbol derives in the rules given to the parser; and when no
    name of these rules starts with [__T_] and the names [Split] generates
    collide with nothing, [parse] raises [ParseError] on every other
    input. *)
Theorem parse_decides_language `{RT : Runtime} (fuel : nat)
    (lark_rules : list LarkRule) (start_name : string) (P : Parser)
    (tokenized : list string) (sigma : Symbol -> list Symbol) :
  Parser_init fuel lark_rules start_name = Some (ret P) ->
  tokens_compile tokenized ->
  let rs := map lark_rule_of lark_rules in
  let n := Z.of_nat (length tokenized) in
  (gderives rs tokenized 0 n [NT start_name] ->
   parse P tokenized <> raise ParseError) /\
  (term_fresh rs -> String.prefix "__T_" start_name = false ->
   (forall g1, Term (Grammar_init rs) = ret g1 ->
               split_names_fresh (rules g1) sigma) ->
   sigma (NT start_name) = [NT start_name] ->
   parse P tokenized <> raise ParseError ->
   gderives rs tokenized 0 n [NT start_name]).
Proof.
  intros [Hstart HT]%Parser_init_grammar HC rs n. fold rs in HT.
  destruct (ToCnf_inv _ _ _ HT) as (g1 & g2 & H1 & H2 & H3 & Hw & Hs).
  set (w := parser_grammar P) in *.
  destruct (_Parse_runs (grammar w) w tokenized Hw) as [_ Hex].
  destruct (Hex HC) as ([table trees] & Hrun).
  pose proof (_Parse_cells (grammar w) w tokenized table trees Hw Hrun
                0 (n - 1) (start P)) as (Htab & _ & _).
  assert (Hrej : parse P tokenized = raise ParseError <->
                 forall r, r ∈ table !!! (0, n - 1) -> lhs r <> start P).
  { rewrite parse_ParseError_iff. fold w n. split.
    - intros (table' & trees' & Hrun' & Hall).
      rewrite Hrun in Hrun'. by injection Hrun' as <- <-.
    - intros Hall. by exists table, trees. }
  split.
  - intros Hd Hp. rewrite Hrej in Hp.
    assert (Hcnf : gderives (cnf_rules w) tokenized 0 n [NT start_name]).
    { apply (Unit_language_steps tokenized _ _ _ H3).
      apply (Bin_complete tokenized g1 g2 H2).
      apply (Term_complete tokenized (Grammar_init rs) g1 H1).
      revert Hd. apply gderives_same_rules.
      intros r Hr. by apply elem_of_Grammar_init. }
    apply (gderives_derives tokenized) in Hcnf as [c Hc]; [|done].
    rewrite <- Hstart in Hc.
    destruct (proj2 Htab (ex_intro _ c Hc)) as (r & Hr & Hl).
    by apply (Hp r).
  - intros Hfresh Hpre Hsplit Hsig Hp.
    destruct (Exists_dec (fun r => lhs r = start P) (table !!! (0, n - 1)))
      as [Hex'|Hnex].
    + apply Exists_exists in Hex' as (r & Hr & Hl).
      destruct (proj1 Htab (ex_intro _ r (conj Hr Hl))) as [c Hc].
      apply (derives_gderives tokenized) in Hc.
      replace (n - 1 + 1) with n in Hc by lia. rewrite Hstart in Hc.
      apply (Unit_language_steps tokenized _ _ _ H3) in Hc.
      apply (Bin_sound tokenized g1 g2 sigma H2 (Hsplit g1 H1)) in Hc.
      unfold subst_seq in Hc. cbn [map concat] in Hc.
      rewrite Hsig in Hc. cbn [app] in Hc.
      apply (Term_sound tokenized (Grammar_init rs) g1 H1) in Hc.
      * unfold subst_seq in Hc. cbn [map concat term_meaning] in Hc.
        rewrite Hpre in Hc. cbn [app] in Hc.
        revert Hc. apply gderives_same_rules.
        intros r' Hr'. exact (proj1 (elem_of_Grammar_init r' rs) Hr').
      * intros r' Hr'. apply Hfresh.
        exact (proj1 (elem_of_Grammar_init r' rs) Hr').
    + exfalso. apply Hp, Hrej. intros r Hr Hl. apply Hnex.
      apply Exists_exists. eauto.
Qed.

Lemma sample_derivation :
  gderives (RT := PyRe.runtime) (map lark_rule_of sample_lark_rules)
           ["a"; "b"] 0 2 [NT "S"].
Proof.
  apply (gderives_rule (RT := PyRe.runtime) _ _ 0 2
           (mkRule "S" [NT "A"; NT "B"] 0 "r1")); [left|].
  cbn [rhs].
  apply (gderives_NT _ _ 0 1 2 (mkRule "A" [T "a"] 0 "a") [NT "B"]);
    [right; left| |].
  - apply (gderives_T _ _ 0 1 "a" "a" []);
      [lia|reflexivity|vm_compute; reflexivity|constructor].
  - apply (gderives_rule (RT := PyRe.runtime) _ _ 1 2
             (mkRule "B" [T "b"] 0 "b")); [right; right; left|].
    apply (gderives_T _ _ 1 2 "b" "b" []);
      [lia|reflexivity|vm_compute; reflexivity|constructor].
Qed.

Lemma parse_decides_language_witness :
  Parser_init (RT := PyRe.runtime) 0 sample_lark_rules "S"
    = Some (ret sample_parser) /\
  parse (RT := PyRe.runtime) sample_parser ["a"; "b"] <> raise ParseError.
Proof.
  assert (H : Parser_init (RT := PyRe.runtime) 0 sample_lark_rules "S"
              = Some (ret sample_parser)) by (vm_compute; reflexivity).
  split; [exact H|].
  apply (proj1 (parse_decides_language (RT := PyRe.runtime) 0
                  sample_lark_rules "S" sample_parser ["a"; "b"]
                  (fun x => [x]) H sample_tokens_compile)).
  exact sample_derivation.
Defined.
